(** * wschannel: channels over a websocket, and the listener that queues them

    A shallow embedding of the package's revisions: the three revisions of
    [Channel] (gorilla without a done signal, gorilla with one, nhooyr with the
    guarded [Close]), [Dial], and the two designs of [Listener] (queue filled
    under the mutex; queue filled by a goroutine tracked by a wait group).

    The websocket connection is an opaque collaborator: what its calls return
    is given by a [Transport] oracle over the history of effects, and every
    call leaves an event in the trace of the [World]. *)

From Stdlib Require Import ZArith String Ascii Strings.Byte DecimalString List Bool Lia.
From stdpp Require Import base option gmap.
Import ListNotations.
Open Scope Z_scope.
Open Scope string_scope.
Open Scope list_scope.

(** ** Go error values *)

(** [websocket.CloseError]: a close code and its text.  [Printed] is what
    the library's [Error] method prints for it. *)
Record CloseError := mkCloseError { Code : Z; Text : string; Printed : string }.

(** The dynamic values an [error] interface takes in this package.  The nil
    interface is [None : option error]. *)
Inductive error :=
| ErrClosed                               (* net.ErrClosed *)
| ErrBadHandshake                         (* websocket.ErrBadHandshake *)
| ErrListenerClosed                       (* errors.New("listener is closed") *)
| Canceled                                (* context.Canceled *)
| DeadlineExceeded                        (* context.DeadlineExceeded *)
| CloseErrorPtr (p : option CloseError)   (* a *websocket.CloseError; None is the nil pointer *)
| CloseErrorVal (ce : CloseError)         (* a websocket.CloseError held by value *)
| errorString (s : string)                (* errors.New, fmt.Errorf without %w *)
| wrapError (msg : string) (inner : error). (* fmt.Errorf with one %w *)

#[global] Instance CloseError_eq_dec : EqDecision CloseError.
Proof. solve_decision. Defined.

#[global] Instance error_eq_dec : EqDecision error.
Proof. solve_decision. Defined.

(** The text of an error as [fmt] prints it for [%w], [%v] and [%s]: the
    result of the [Error] method, and "<nil>" for a nil pointer receiver,
    whose method panics ([fmt] recovers that panic).  A direct call
    [err.Error()] is [call_Error] below. *)
Definition Error (e : error) : string :=
  match e with
  | ErrClosed => "use of closed network connection"
  | ErrBadHandshake => "websocket: bad handshake"
  | ErrListenerClosed => "listener is closed"
  | Canceled => "context canceled"
  | DeadlineExceeded => "context deadline exceeded"
  | CloseErrorPtr (Some ce) => Printed ce
  | CloseErrorPtr None => "<nil>"
  | CloseErrorVal ce => Printed ce
  | errorString s => s
  | wrapError msg _ => msg
  end.

(** The method call [err.Error()] on a non-nil interface value.  [None] is
    the run-time panic "invalid memory address or nil pointer dereference":
    the method of [*websocket.CloseError] reads the fields of its receiver,
    which is nil here. *)
Definition call_Error (e : error) : option string :=
  match e with
  | CloseErrorPtr None => None
  | _ => Some (Error e)
  end.

(** [fmt.Errorf(prefix + "%w", err)] and [fmt.Errorf(prefix + "%s", s)]. *)
Definition Errorf_w (prefix : string) (err : error) : error :=
  wrapError (prefix ++ Error err) err.
Definition Errorf_s (prefix : string) (s : string) : error :=
  errorString (prefix ++ s).

(** [errors.Is] for a non-nil, comparable target: the chain of [err] is
    walked through [Unwrap], comparing each link with [==].  None of the
    error types above has an [Is] method. *)
Fixpoint errors_Is (err target : error) : bool :=
  if decide (err = target) then true
  else match err with
       | wrapError _ inner => errors_Is inner target
       | _ => false
       end.

(** The type assertion [err.( *websocket.CloseError)]: it looks at the dynamic
    type of the interface value only, never through a wrapper. *)
Definition is_CloseError_ptr (err : option error) : bool :=
  match err with
  | Some (CloseErrorPtr _) => true
  | _ => false
  end.

(** An error that carries a close frame's status: a non-nil pointer to a
    [CloseError] (gorilla), a [CloseError] value (nhooyr), or a wrapper
    around one of them. *)
Fixpoint carries_close (e : error) : bool :=
  match e with
  | CloseErrorPtr (Some _) => true
  | CloseErrorVal _ => true
  | wrapError _ inner => carries_close inner
  | _ => false
  end.

(** ** The world: transport effects and the heap *)

Inductive MessageType := TextMessage | BinaryMessage | CloseMessage.

#[global] Instance MessageType_eq_dec : EqDecision MessageType.
Proof. solve_decision. Defined.

Definition bytes := list byte.

#[global] Instance byte_eq_dec : EqDecision byte := Byte.byte_eq_dec.

(** [websocket.CloseNormalClosure], [websocket.CloseNoStatusReceived]
    (gorilla) and [websocket.StatusNormalClosure] (nhooyr). *)
Definition CloseNormalClosure : Z := 1000.
Definition CloseNoStatusReceived : Z := 1005.
Definition StatusNormalClosure : Z := 1000.

Definition byte_of_Z (z : Z) : byte :=
  match Byte.of_N (Z.to_N (z mod 256)) with
  | Some b => b
  | None => x00
  end.

(** [websocket.FormatCloseMessage]: the code in two bytes, big endian, then
    the text; nothing at all for [CloseNoStatusReceived]. *)
Definition FormatCloseMessage (closeCode : Z) (text : string) : bytes :=
  if (closeCode =? CloseNoStatusReceived)%Z then []
  else byte_of_Z (closeCode / 256) :: byte_of_Z closeCode
         :: map (fun a => byte_of_Z (Z.of_nat (nat_of_ascii a)))
                (list_ascii_of_string text).

Definition closeMessage : bytes := FormatCloseMessage CloseNormalClosure "".

(** Effects, in program order.  Connections and signals are named by their
    handle. *)
Inductive event :=
| EvWrite (conn : nat) (mt : MessageType) (data : bytes) (* conn.WriteMessage / conn.Write *)
| EvRead (conn : nat)                                    (* conn.ReadMessage / conn.Read *)
| EvConnClose (conn : nat)                               (* gorilla conn.Close() *)
| EvGoClose (conn : nat) (code : Z) (reason : string)    (* go conn.Close(code, reason) *)
| EvSignal (d : nat)                                     (* close(d) on a chan struct{} *)
| EvDial (url : string)                                  (* the dialer's handshake *)
| EvUpgrade (req : nat)                                  (* Upgrader.Upgrade(w, req, hdr) *)
| EvHttpError (req : nat) (msg : string) (code : Z).     (* http.Error(w, msg, code) *)

#[global] Instance event_eq_dec : EqDecision event.
Proof. solve_decision. Defined.

(** What the connection answers, as a function of everything done so far. *)
Record Transport := mkTransport {
  write_result : list event -> nat -> MessageType -> bytes -> option error;
  read_result : list event -> nat -> MessageType * bytes * option error;
  close_result : list event -> nat -> option error
}.

(** The [Channel] struct.  The first revision has no [done] field: it is the
    struct with [done = None]. *)
Record Channel := mkChannel {
  c : nat;            (* c *websocket.Conn *)
  done : option nat   (* done chan struct{}; None is the nil channel *)
}.

#[global] Instance Channel_eq_dec : EqDecision Channel.
Proof. solve_decision. Defined.

(** [trace]: the effects so far.  [signals]: the heap of [chan struct{}]
    values, [true] once closed.  [objs]: the heap of [Channel] structs, which
    the methods reach through their pointer receiver. *)
Record World := mkWorld {
  trace : list event;
  signals : gmap nat bool;
  objs : gmap nat Channel
}.

Definition emit (e : event) (w : World) : World :=
  mkWorld (trace w ++ [e]) (signals w) (objs w).

(** A call either returns or panics. *)
Inductive outcome (A : Type) :=
| Ret (a : A) (w : World)
| Panic (msg : string) (w : World).
Arguments Ret {A} a w.
Arguments Panic {A} msg w.

Definition bind {A B} (m : outcome A) (k : A -> World -> outcome B) : outcome B :=
  match m with
  | Ret a w => k a w
  | Panic msg w => Panic msg w
  end.

(** A handle not in use in a heap. *)
Definition fresh_key {V} (m : gmap nat V) : nat := fresh (dom m).

(** [make(chan struct{})]: a fresh, open signal. *)
Definition make_signal (w : World) : nat * World :=
  let d := fresh_key (signals w) in
  (d, mkWorld (trace w) (<[d := false]> (signals w)) (objs w)).

(** [close(d)]: closing a nil or a closed channel panics. *)
Definition close_signal (d : option nat) (w : World) : outcome unit :=
  match d with
  | None => Panic "close of nil channel" w
  | Some d =>
      match signals w !! d with
      | Some false =>
          Ret tt (mkWorld (trace w ++ [EvSignal d]) (<[d := true]> (signals w)) (objs w))
      | _ => Panic "close of closed channel" w
      end
  end.

(** Allocation of a [Channel] struct, and access through the pointer. *)
Definition alloc (ch : Channel) (w : World) : nat * World :=
  let p := fresh_key (objs w) in
  (p, mkWorld (trace w) (signals w) (<[p := ch]> (objs w))).

Definition deref (p : nat) (w : World) : outcome Channel :=
  match objs w !! p with
  | Some ch => Ret ch w
  | None => Panic "invalid memory address or nil pointer dereference" w
  end.

Definition store (p : nat) (ch : Channel) (w : World) : World :=
  mkWorld (trace w) (signals w) (<[p := ch]> (objs w)).

(** The connection's methods: the oracle answers on the history, and the
    call is appended to it. *)
Section Conn.
Variable T : Transport.

Definition WriteMessage (conn : nat) (mt : MessageType) (data : bytes) (w : World)
  : option error * World :=
  (write_result T (trace w) conn mt data, emit (EvWrite conn mt data) w).

Definition ReadMessage (conn : nat) (w : World)
  : MessageType * bytes * option error * World :=
  (read_result T (trace w) conn, emit (EvRead conn) w).

Definition conn_Close (conn : nat) (w : World) : option error * World :=
  (close_result T (trace w) conn, emit (EvConnClose conn) w).

(** nhooyr's names for the first two; the context is the background one. *)
Definition Write := WriteMessage.
Definition Read := ReadMessage.
End Conn.

(** ** Channel, first revision: gorilla, no done signal *)

Module ChannelV1.
Section WithTransport.
Variable T : Transport.

Definition New (conn : nat) (w : World) : nat * World :=
  alloc (mkChannel conn None) w.

Definition Send (p : nat) (data : bytes) (w : World) : outcome (option error) :=
  bind (deref p w) (fun ch w =>
    let '(err, w) := WriteMessage T (c ch) BinaryMessage data w in
    Ret err w).

Definition Recv (p : nat) (w : World) : outcome (option bytes * option error) :=
  bind (deref p w) (fun ch w =>
    let '(_, bits, err, w) := ReadMessage T (c ch) w in
    match err with
    | Some e => Ret (None, Some e) w
    | None => Ret (Some bits, None) w
    end).

Definition Close (p : nat) (w : World) : outcome (option error) :=
  bind (deref p w) (fun ch w =>
    let '(err, w) := WriteMessage T (c ch) CloseMessage closeMessage w in
    let '(cerr, w) := conn_Close T (c ch) w in
    match err with
    | Some e => Ret (Some e) w
    | None => Ret cerr w
    end).
End WithTransport.
End ChannelV1.

(** ** Channel, second revision: gorilla, optional done signal, filterErr *)

Module ChannelV2.
Section WithTransport.
Variable T : Transport.

Definition filterErr (err : option error) : option error :=
  if is_CloseError_ptr err then Some ErrClosed else err.

Definition New (conn : nat) (w : World) : nat * World :=
  alloc (mkChannel conn None) w.

Definition Send (p : nat) (data : bytes) (w : World) : outcome (option error) :=
  bind (deref p w) (fun ch w =>
    let '(err, w) := WriteMessage T (c ch) BinaryMessage data w in
    Ret (filterErr err) w).

Definition Recv (p : nat) (w : World) : outcome (option bytes * option error) :=
  bind (deref p w) (fun ch w =>
    let '(_, bits, err, w) := ReadMessage T (c ch) w in
    match err with
    | Some e => Ret (None, filterErr (Some e)) w
    | None => Ret (Some bits, None) w
    end).

Definition Close (p : nat) (w : World) : outcome (option error) :=
  bind (deref p w) (fun ch w =>
    let '(err, w) := WriteMessage T (c ch) CloseMessage closeMessage w in
    let '(cerr, w) := conn_Close T (c ch) w in
    match err with
    | Some e => Ret (Some e) w
    | None =>
        match done ch with
        | Some d => bind (close_signal (Some d) w) (fun _ w => Ret cerr w)
        | None => Ret cerr w
        end
    end).
End WithTransport.
End ChannelV2.

(** ** Channel, third revision: nhooyr, guarded Close, Done *)

Module ChannelV3.
Section WithTransport.
Variable T : Transport.

(** [( *websocket.CloseError)(nil)] as an [error]: the typed nil pointer. *)
Definition nil_CloseError : error := CloseErrorPtr None.

Definition filterErr (err : option error) : option error :=
  match err with
  | None => None
  | Some e => if errors_Is e nil_CloseError then Some ErrClosed else Some e
  end.

Definition New (conn : nat) (w : World) : nat * World :=
  let '(d, w) := make_signal w in
  alloc (mkChannel conn (Some d)) w.

Definition Send (p : nat) (data : bytes) (w : World) : outcome (option error) :=
  bind (deref p w) (fun ch w =>
    let '(err, w) := Write T (c ch) BinaryMessage data w in
    Ret (filterErr err) w).

Definition Recv (p : nat) (w : World) : outcome (option bytes * option error) :=
  bind (deref p w) (fun ch w =>
    let '(_, bits, err, w) := Read T (c ch) w in
    match err with
    | Some e => Ret (None, filterErr (Some e)) w
    | None => Ret (Some bits, None) w
    end).

(** The close handshake runs in a goroutine of its own, [go c.c.Close(...)]:
    the call is recorded when it is spawned and its result is dropped. *)
Definition Close (p : nat) (w : World) : outcome (option error) :=
  bind (deref p w) (fun ch w =>
    match done ch with
    | Some d =>
        bind (close_signal (Some d) w) (fun _ w =>
          let w := emit (EvGoClose (c ch) StatusNormalClosure "bye") w in
          let w := store p (mkChannel (c ch) None) w in
          Ret None w)
    | None => Ret None w
    end).

Definition Done (p : nat) (w : World) : outcome (option nat) :=
  bind (deref p w) (fun ch w => Ret (done ch) w).
End WithTransport.
End ChannelV3.

(** ** Dial *)

(** The handshake response: what [io.ReadAll(rsp.Body)] gives. *)
Record Response := mkResponse { ReadAll_Body : string * option error }.

(** [http.Header]; [None] is the nil map. *)
Definition HttpHeader := option (list (string * string)).

(** A [websocket.Dialer]: [Dial(url, header)] answers with the connection,
    the response (nil when there was none) and the error. *)
Record WsDialer := mkWsDialer {
  ws_dial : list event -> string -> HttpHeader -> nat * option Response * option error
}.

Module DialV2.
Record DialOptions := mkDialOptions {
  Header : HttpHeader;
  Dialer : option WsDialer
}.

Definition header (o : option DialOptions) : HttpHeader :=
  match o with
  | None => None
  | Some o => Header o
  end.

Section WithDefaults.
(** [websocket.DefaultDialer] and [strings.TrimSpace]. *)
Variable DefaultDialer : WsDialer.
Variable TrimSpace : string -> string.

Definition dialer (o : option DialOptions) : WsDialer :=
  match o with
  | None => DefaultDialer
  | Some o =>
      match Dialer o with
      | None => DefaultDialer
      | Some d => d
      end
  end.

Definition Dial (url : string) (opts : option DialOptions) (w : World)
  : outcome (option nat * option error) :=
  let '(conn, rsp, err) := ws_dial (dialer opts) (trace w) url (header opts) in
  let w := emit (EvDial url) w in
  match err with
  | Some e =>
      if decide (e <> ErrBadHandshake) then
        Ret (None, Some (Errorf_w "dial: " e)) w
      else
        match rsp with
        | None => Panic "invalid memory address or nil pointer dereference" w
        | Some r =>
            let '(msg, rerr) := ReadAll_Body r in
            match rerr with
            | None =>
                if negb (Nat.eqb (String.length msg) 0) then
                  Ret (None, Some (Errorf_s "dial: " (TrimSpace msg))) w
                else Ret (None, Some e) w
            | Some _ => Ret (None, Some e) w
            end
        end
  | None =>
      let '(p, w) := alloc (mkChannel conn None) w in
      Ret (Some p, None) w
  end.
End WithDefaults.
End DialV2.

(** [context.Context], as far as [select] sees it: [ctx.Done()] is closed
    exactly when [ctx.Err()] is not nil; [context.Background()] never is. *)
Inductive ctx_error := ctxCanceled | ctxDeadlineExceeded.

Definition ctx_err (e : ctx_error) : error :=
  match e with
  | ctxCanceled => Canceled
  | ctxDeadlineExceeded => DeadlineExceeded
  end.

Inductive Ctx :=
| Background
| Pending                 (* a cancellable context that has not fired *)
| Fired (e : ctx_error).  (* Done() is closed, Err() gives [ctx_err e] *)

Module DialV3.
Record DialOptions := mkDialOptions {
  HTTPClient : option nat;
  Header : HttpHeader
}.

Definition header (o : option DialOptions) : HttpHeader :=
  match o with
  | None => None
  | Some o => Header o
  end.

Definition client (o : option DialOptions) : option nat :=
  match o with
  | None => None
  | Some o => HTTPClient o
  end.

Section WithDial.
(** [websocket.Dial(ctx, url, &websocket.DialOptions{...})]. *)
Variable websocket_Dial :
  list event -> Ctx -> string -> option nat -> HttpHeader -> nat * option error.

Definition DialContext (ctx : Ctx) (url : string) (opts : option DialOptions)
  (w : World) : outcome (option nat * option error) :=
  let '(conn, err) := websocket_Dial (trace w) ctx url (client opts) (header opts) in
  let w := emit (EvDial url) w in
  match err with
  | Some e => Ret (None, Some e) w
  | None =>
      let '(p, w) := ChannelV3.New conn w in
      Ret (Some p, None) w
  end.

Definition Dial (url : string) (opts : option DialOptions) (w : World)
  : outcome (option nat * option error) :=
  DialContext Background url opts w.
End WithDial.
End DialV3.

(** ** Buffered channels of [*Channel] *)

Record Chan := mkChan {
  buf : list nat;       (* the queued pointers, oldest first *)
  capacity : nat;       (* cap(q) *)
  chan_closed : bool
}.

Definition make_chan (n : Z) : Chan := mkChan [] (Z.to_nat n) false.

Inductive sent :=
| SendProceeds (q : Chan)
| SendBlocks
| SendPanics (msg : string).

(** [q <- x]. *)
Definition chan_send (x : nat) (q : Chan) : sent :=
  if chan_closed q then SendPanics "send on closed channel"
  else if Nat.ltb (length (buf q)) (capacity q)
       then SendProceeds (mkChan (buf q ++ [x]) (capacity q) (chan_closed q))
       else SendBlocks.

(** [x, ok := <-q]: [None] when the receive cannot proceed; otherwise the
    value, or [None] for [ok = false] on a closed and drained channel. *)
Definition chan_recv (q : Chan) : option (option nat * Chan) :=
  match buf q with
  | x :: rest => Some (Some x, mkChan rest (capacity q) (chan_closed q))
  | [] => if chan_closed q then Some (None, q) else None
  end.

(** [close(q)]: [None] is the panic on a closed channel. *)
Definition chan_close (q : Chan) : option Chan :=
  if chan_closed q then None else Some (mkChan (buf q) (capacity q) true).

(** ** Listener with a bounded queue filled under the mutex *)

Definition StatusInternalServerError : Z := 500.
Definition StatusServiceUnavailable : Z := 503.

(** [net/http]'s [checkWriteHeaderCode]: a status outside 100..999 makes
    [WriteHeader] panic. *)
Definition checkWriteHeaderCode (code : Z) : bool :=
  (100 <=? code)%Z && (code <=? 999)%Z.

(** [http.Error(w, msg, code)] on the response of request [req]: it sets
    the headers, then calls [w.WriteHeader(code)], then writes the message.
    When [WriteHeader] panics nothing has been sent. *)
Definition http_Error (req : nat) (msg : string) (code : Z) (w : World)
  : outcome unit :=
  if checkWriteHeaderCode code then Ret tt (emit (EvHttpError req msg code) w)
  else Panic ("invalid WriteHeader code " ++ NilZero.string_of_int (Z.to_int code)) w.

(** A [websocket.Upgrader]: [Upgrade(w, req, hdr)] answers with the
    connection and the error. *)
Record WsUpgrader := mkWsUpgrader {
  ws_upgrade : list event -> nat -> HttpHeader -> nat * option error
}.

(** The admission hook [func( *http.Request) (int, error)]; requests are
    named by a handle. *)
Definition CheckFn := nat -> Z * option error.

Module Listener.
Record ListenOptions := mkListenOptions {
  MaxPending : Z;
  CheckAccept : option CheckFn;
  Header : HttpHeader;
  Upgrader : WsUpgrader
}.

Record Listener := mkListener {
  u : WsUpgrader;
  hdr : HttpHeader;
  check : CheckFn;
  inc : Chan;
  closed : bool
}.

Definition set_inc (l : Listener) (q : Chan) : Listener :=
  mkListener (u l) (hdr l) (check l) q (closed l).

(** The methods of [*ListenOptions]; [None] is the nil pointer.  The
    method [check] is [checkOf] here, the name being the listener's field. *)
Definition maxPending (o : option ListenOptions) : Z :=
  match o with
  | None => 1
  | Some o => if (MaxPending o <=? 0)%Z then 1 else MaxPending o
  end.

Definition checkOf (o : option ListenOptions) : CheckFn :=
  match o with
  | None => fun _ => (0, None)
  | Some o =>
      match CheckAccept o with
      | None => fun _ => (0, None)
      | Some f => f
      end
  end.

Definition header (o : option ListenOptions) : HttpHeader :=
  match o with
  | None => None
  | Some o => Header o
  end.

(** What a handler invocation does after its critical section. *)
Inductive served :=
  | Returns                       (* the handler returns *)
  | AwaitsDone (d : nat)          (* it blocks in [<-done] until [d] is closed *)
  | BlocksOnSend                  (* it is stuck in [lst.inc <- ch] *)
  | HandlerPanics (msg : string). (* it panics; the server closes the connection *)

(** A handler that ends with a call of [http.Error]. *)
Definition answers (l : Listener) (o : outcome unit) : served * Listener * World :=
  match o with
  | Ret _ w => (Returns, l, w)
  | Panic msg w => (HandlerPanics msg, l, w)
  end.

(** The status the handler uses for a refusal by the hook. *)
Definition refusal_status (code : Z) : Z :=
  if (code <=? 0)%Z then StatusInternalServerError else code.

(** Whether the hook's answer lets the handler get past
    [http.Error(w, err.Error(), code)]: the error's method returns and the
    status is one that [WriteHeader] takes. *)
Definition hook_answer_ok (r : Z * option error) : bool :=
  match r with
  | (code, Some e) =>
      match call_Error e with
      | Some _ => checkWriteHeaderCode (refusal_status code)
      | None => false
      end
  | (_, None) => true
  end.

Inductive accepted :=
  | AcceptsChannel (p : nat)
  | AcceptsError (e : error)
  | AcceptBlocks.

Section WithEnv.
(** The zero [websocket.Upgrader{}], and the [Close] method of the
    [Channel] revision in use. *)
Variable zeroUpgrader : WsUpgrader.
Variable Channel_Close : nat -> World -> outcome (option error).

Definition upgrader (o : option ListenOptions) : WsUpgrader :=
  match o with
  | None => zeroUpgrader
  | Some o => Upgrader o
  end.

(** [make(chan *Channel, n)] is taken to succeed: [n] is positive here, and
    a capacity beyond what the runtime can allocate is left out of the
    model. *)
Definition NewListener (opts : option ListenOptions) : Listener :=
  mkListener (upgrader opts) (header opts) (checkOf opts)
             (make_chan (maxPending opts)) false.

(** The mutex makes the section between Lock and Unlock atomic with
    respect to [Close] and to other handlers.  [Accept] takes no lock, but
    it only removes from the queue, so a receive that falls between the
    length test and the send leaves the send able to proceed. *)
Definition ServeHTTP (req : nat) (l : Listener) (w : World)
  : served * Listener * World :=
  match check l req with
  | (code, Some e) =>
      let code := refusal_status code in
      match call_Error e with
      | Some msg => answers l (http_Error req msg code w)
      | None =>
          (HandlerPanics "invalid memory address or nil pointer dereference", l, w)
      end
  | (_, None) =>
      if closed l then
        answers l (http_Error req "listener is closed" StatusInternalServerError w)
      else if Nat.eqb (length (buf (inc l))) (capacity (inc l)) then
        answers l (http_Error req "connection queue is full" StatusServiceUnavailable w)
      else
        let '(conn, err) := ws_upgrade (u l) (trace w) req (hdr l) in
        let w := emit (EvUpgrade req) w in
        match err with
        | Some _ => (Returns, l, w)
        | None =>
            let '(p, w) := ChannelV3.New conn w in
            match chan_send p (inc l) with
            | SendProceeds q =>
                match objs w !! p with
                | Some ch =>
                    match done ch with
                    | Some d => (AwaitsDone d, set_inc l q, w)
                    | None => (Returns, set_inc l q, w)
                    end
                | None =>
                    (HandlerPanics "invalid memory address or nil pointer dereference",
                     set_inc l q, w)
                end
            | SendBlocks => (BlocksOnSend, l, w)
            | SendPanics msg => (HandlerPanics msg, l, w)
            end
        end
  end.

(** [select] over [ctx.Done()] and [lst.inc]: when both can proceed the
    runtime picks one, here by [pick_ctx]. *)
Definition Accept (ctx : Ctx) (pick_ctx : bool) (l : Listener)
  : accepted * Listener :=
  let from_queue (r : option nat * Chan) :=
    match r with
    | (Some p, q) => (AcceptsChannel p, set_inc l q)
    | (None, _) => (AcceptsError ErrListenerClosed, l)
    end in
  match ctx, chan_recv (inc l) with
  | Fired e, Some r =>
      if pick_ctx then (AcceptsError (ctx_err e), l) else from_queue r
  | Fired e, None => (AcceptsError (ctx_err e), l)
  | _, Some r => from_queue r
  | _, None => (AcceptBlocks, l)
  end.

(** [for ch := range lst.inc { if err := ch.Close(); cerr == nil { cerr = err } }]
    on the closed queue. *)
Fixpoint drain (chs : list nat) (cerr : option error) (w : World)
  : outcome (option error) :=
  match chs with
  | [] => Ret cerr w
  | p :: rest =>
      bind (Channel_Close p w) (fun err w =>
        drain rest (match cerr with None => err | Some _ => cerr end) w)
  end.

Definition Close (l : Listener) (w : World) : outcome (option error * Listener) :=
  if closed l then Ret (Some ErrListenerClosed, l) w
  else
    match chan_close (inc l) with
    | None => Panic "close of closed channel" w
    | Some q =>
        bind (drain (buf q) None w) (fun cerr w =>
          Ret (cerr, mkListener (u l) (hdr l) (check l)
                       (mkChan [] (capacity q) true) true) w)
    end.
End WithEnv.
End Listener.

(** ** Observations on outcomes *)

Definition outcome_world {A} (o : outcome A) : World :=
  match o with
  | Ret _ w => w
  | Panic _ w => w
  end.

(** The done signal of [ch] can still be closed: it is nil (and then not
    touched by the gorilla [Close]) or open. *)
Definition done_closable (ch : Channel) (w : World) : Prop :=
  match done ch with
  | None => True
  | Some d => signals w !! d = Some false
  end.

(** The world after the close message was written, and after the
    connection was closed as well. *)
Definition notify (ch : Channel) : event := EvWrite (c ch) CloseMessage closeMessage.
Definition after_notify (ch : Channel) (w : World) : World := emit (notify ch) w.
Definition after_conn_close (ch : Channel) (w : World) : World :=
  emit (EvConnClose (c ch)) (after_notify ch w).

(** [k] calls of a [Close] method one after the other; the next call is made
    once the previous one has returned. *)
Fixpoint closes (Close : nat -> World -> outcome (option error)) (k : nat)
  (p : nat) (w : World) : outcome (list (option error)) :=
  match k with
  | O => Ret [] w
  | S k =>
      bind (Close p w) (fun r w =>
        bind (closes Close k p w) (fun rs w => Ret (r :: rs) w))
  end.

(** Waiting on a signal, [<-d]: it proceeds once [d] is closed; a receive
    from the nil channel never proceeds. *)
Definition await (d : option nat) (w : World) : bool :=
  match d with
  | None => false
  | Some d =>
      match signals w !! d with
      | Some true => true
      | _ => false
      end
  end.

(** ** Sample environments *)

Definition world0 : World := mkWorld [] ∅ ∅.

(** A connection on which every call succeeds and reads give no data. *)
Definition quiet : Transport :=
  mkTransport (fun _ _ _ _ => None) (fun _ _ => (BinaryMessage, [], None)) (fun _ _ => None).

(** A connection the peer has dropped: writes fail, closing works. *)
Definition broken_pipe : error := errorString "write: broken pipe".
Definition dropped : Transport :=
  mkTransport (fun _ _ _ _ => Some broken_pipe)
              (fun _ _ => (BinaryMessage, [], Some broken_pipe)) (fun _ _ => None).

(** A connection that works until it is closed: once [Close] has been
    called on it a write fails, as gorilla's does after the close message
    ([websocket.ErrCloseSent]), and closing it again reports the closed
    connection. *)
Definition ErrCloseSent : error := errorString "websocket: close sent".
Definition closed_before (conn : nat) (tr : list event) : bool :=
  bool_decide (EvConnClose conn ∈ tr).
Definition closable : Transport :=
  mkTransport (fun tr conn _ _ => if closed_before conn tr then Some ErrCloseSent else None)
              (fun _ _ => (BinaryMessage, [], None))
              (fun tr conn => if closed_before conn tr then Some ErrClosed else None).

(** What nhooyr's [Read] returns when the peer's close frame arrives: the
    [CloseError] value wrapped by [fmt.Errorf("received close frame: %w", ce)]. *)
Definition quoted (s : string) : string :=
  String (ascii_of_nat 34) (s ++ String (ascii_of_nat 34) EmptyString).
Definition bye : CloseError :=
  mkCloseError 1000 "bye" ("status = StatusNormalClosure and reason = " ++ quoted "bye").
Definition received_close_frame : error :=
  Errorf_w "received close frame: " (CloseErrorVal bye).
Definition peer_closed : Transport :=
  mkTransport (fun _ _ _ _ => Some received_close_frame)
              (fun _ _ => (BinaryMessage, [], Some received_close_frame))
              (fun _ _ => None).

(** What gorilla's [ReadMessage] returns for the same frame. *)
Definition gorilla_close_frame : error :=
  CloseErrorPtr (Some (mkCloseError 1000 "bye" "websocket: close 1000 (normal): bye")).


(** [Unwrap], as [errors.Unwrap] sees it. *)
Definition Unwrap (e : error) : option error :=
  match e with
  | wrapError _ inner => Some inner
  | _ => None
  end.

(** [strings.TrimSpace] restricted to text in ASCII: leading and trailing
    tab, line feed, vertical tab, form feed, carriage return and space are
    cut.  The library function also cuts the white space of Unicode beyond
    ASCII; [Dial] takes the library function as a parameter, and this
    restriction only serves examples whose text is ASCII. *)
Definition is_space (a : ascii) : bool :=
  let n := nat_of_ascii a in
  (Nat.leb 9 n && Nat.leb n 13) || Nat.eqb n 32.

Fixpoint trim_left (l : list ascii) : list ascii :=
  match l with
  | a :: rest => if is_space a then trim_left rest else l
  | [] => []
  end.

Definition TrimSpace_ascii (s : string) : string :=
  string_of_list_ascii
    (rev (trim_left (rev (trim_left (list_ascii_of_string s))))).

(** A server that refuses the handshake with the given response body, and
    an endpoint that cannot be reached. *)
Definition refusing (body : string) : WsDialer :=
  mkWsDialer (fun _ _ _ => (O, Some (mkResponse (body, None)), Some ErrBadHandshake)).

Definition connection_refused : error := errorString "dial tcp: connection refused".
Definition unreachable : WsDialer :=
  mkWsDialer (fun _ _ _ => (O, None, Some connection_refused)).

(** What [http.Error(w, msg, code)] leaves as the response body, the
    message and a line feed, for the messages "failed" and "". *)
Definition empty_message_body : string := String (ascii_of_nat 10) EmptyString.

Definition failed_body : string := String "f" (String "a" (String "i" (String "l"
  (String "e" (String "d" (String (ascii_of_nat 10) EmptyString)))))).

(** ** The listener at work *)

(** What may happen to a listener and the heap it lives in: handlers run
    their critical section, consumers accept and later close what they
    accepted, the listener is closed, and channels unrelated to the listener
    are made, used and closed.  Channels are closed by the nhooyr revision's
    [Close], the one that goes with the [New] the handler calls. *)
Inductive action :=
| ActServe (req : nat)
| ActAccept (ctx : Ctx) (pick_ctx : bool)
| ActClose
| ActChannelClose (p : nat)
| ActNew (conn : nat)
| ActSend (T : Transport) (p : nat) (data : bytes)
| ActRecv (T : Transport) (p : nat).

(** One action; [None] when the program has panicked, or when the action is
    not available: a consumer cannot close a channel that is still queued,
    since it has no pointer to it. *)
Definition act (a : action) (s : Listener.Listener * World)
  : option (Listener.Listener * World) :=
  let '(l, w) := s in
  match a with
  | ActServe req =>
      match Listener.ServeHTTP req l w with
      | (Listener.HandlerPanics _, _, _) => None
      | (_, l', w') => Some (l', w')
      end
  | ActAccept ctx pick_ctx => Some ((Listener.Accept ctx pick_ctx l).2, w)
  | ActClose =>
      match Listener.Close ChannelV3.Close l w with
      | Ret (_, l') w' => Some (l', w')
      | Panic _ _ => None
      end
  | ActChannelClose p =>
      if decide (p ∈ buf (Listener.inc l)) then None
      else match ChannelV3.Close p w with
           | Ret _ w' => Some (l, w')
           | Panic _ _ => None
           end
  | ActNew conn => Some (l, (ChannelV3.New conn w).2)
  | ActSend T p data =>
      match ChannelV3.Send T p data w with
      | Ret _ w' => Some (l, w')
      | Panic _ _ => None
      end
  | ActRecv T p =>
      match ChannelV3.Recv T p w with
      | Ret _ w' => Some (l, w')
      | Panic _ _ => None
      end
  end.

Fixpoint run (acts : list action) (s : Listener.Listener * World)
  : option (Listener.Listener * World) :=
  match acts with
  | [] => Some s
  | a :: rest =>
      match act a s with
      | Some s' => run rest s'
      | None => None
      end
  end.

(** The states reached from a new listener. *)
Definition reachable (zero : WsUpgrader) (opts : option Listener.ListenOptions)
  (s : Listener.Listener * World) : Prop :=
  exists acts, run acts (Listener.NewListener zero opts, world0) = Some s.

(** Heap discipline: a done signal belongs to one [Channel] struct, and a
    struct's signal has been made. *)
Definition own (w : World) : Prop :=
  forall p1 p2 ch1 ch2 d,
    objs w !! p1 = Some ch1 -> objs w !! p2 = Some ch2 ->
    done ch1 = Some d -> done ch2 = Some d -> p1 = p2.

Definition allocd (w : World) : Prop :=
  forall p ch d,
    objs w !! p = Some ch -> done ch = Some d -> is_Some (signals w !! d).

(** The queued channels are live: each has its struct, whose signal is
    open. *)
Definition queued_ok (chs : list nat) (w : World) : Prop :=
  forall p, p ∈ chs ->
    exists conn d, objs w !! p = Some (mkChannel conn (Some d)) /\
                   signals w !! d = Some false.

(** What holds of every such state. *)
Record Inv (l : Listener.Listener) (w : World) : Prop := mkInv {
  inv_flag : chan_closed (Listener.inc l) = Listener.closed l;
  inv_room : (length (buf (Listener.inc l)) <= capacity (Listener.inc l))%nat;
  inv_cap : (1 <= capacity (Listener.inc l))%nat;
  inv_drained : Listener.closed l = true -> buf (Listener.inc l) = [];
  inv_nodup : NoDup (buf (Listener.inc l));
  inv_queued : queued_ok (buf (Listener.inc l)) w;
  inv_own : own w;
  inv_alloc : allocd w
}.

(** The world after the nhooyr [Close] of the struct at [p], which held
    connection [conn] and the open signal [d]. *)
Definition closed_world (p conn d : nat) (w : World) : World :=
  mkWorld (trace w ++ [EvSignal d; EvGoClose conn StatusNormalClosure "bye"])
          (<[d := true]> (signals w))
          (<[p := mkChannel conn None]> (objs w)).

(** An upgrader that always succeeds and names the connection after the
    request. *)
Definition upgrading : WsUpgrader := mkWsUpgrader (fun _ req _ => (req, None)).



(** The state after the given actions on a listener with default options
    behind an upgrader that always succeeds. *)
Definition default_listener : Listener.Listener * World :=
  (Listener.NewListener upgrading None, world0).

Definition state_after (acts : list action) : Listener.Listener * World :=
  match run acts default_listener with
  | Some s => s
  | None => default_listener
  end.

Definition not_fired (ctx : Ctx) : Prop :=
  match ctx with
  | Fired _ => False
  | _ => True
  end.

(** ** Listener with a wait group: the interleavings *)

(** The earlier listener: [add] registers a goroutine with the wait group
    [wg]; the goroutine sends the channel to the queue and waits for its
    done signal; [Close] waits for [wg] before it returns.  The deferred
    calls of [Close] run last-in first-out, so [wg.Wait()] runs before
    [mu.Unlock()]: the wait is made with the mutex held.

    Each thread is a program counter; a step is one lock, channel, signal or
    wait-group operation of one thread.  What the hook, the upgrader and the
    close notification answer is chosen by the step's label.  A handler
    whose request the hook refuses is over, whether it answers and returns
    or panics in its answer (the server recovers a handler's panic, so that
    the process goes on); [crashed] is the panic of a goroutine of the
    package's own, which ends the process. *)
Module ListenerWG.

(** A handler invocation [ServeHTTP]. *)
Inductive hpc :=
| H0             (* before the hook *)
| H1             (* before [Upgrade] *)
| H2             (* before [add]: waiting for the mutex *)
| H3 (d : nat)   (* in [<-done] *)
| HDone.         (* returned *)

(** The goroutine started by [add]. *)
Inductive gpc :=
| G0             (* before [lst.inc <- ch] *)
| G1             (* in [<-done] *)
| GDone.         (* finished: [wg.Done()] has run *)

(** A call of [Close]. *)
Inductive cpc :=
| C0                        (* before [mu.Lock()] *)
| C1                        (* holding the mutex, before the test of [closed] *)
| CDrain                    (* in [for ch := range lst.inc] *)
| C2 (r : option error)     (* in the deferred [wg.Wait()] *)
| C3 (r : option error)     (* before the deferred [mu.Unlock()] *)
| CDone (r : option error). (* returned [r] *)

#[global] Instance hpc_eq_dec : EqDecision hpc.
Proof. solve_decision. Defined.
#[global] Instance gpc_eq_dec : EqDecision gpc.
Proof. solve_decision. Defined.
#[global] Instance cpc_eq_dec : EqDecision cpc.
Proof. solve_decision. Defined.

(** [conns]: one entry per successful [add], the goroutine's counter and
    whether the connection's done signal is closed; the queue holds indices
    into it.  [held]: the channels consumers got from [Accept]. *)
Record State := mkState {
  closed : bool;
  mu : bool;
  inc : Chan;
  wg : nat;
  handlers : list hpc;
  conns : list (gpc * bool);
  closers : list cpc;
  held : list nat;
  crashed : bool
}.

Definition NewListener : State :=
  mkState false false (make_chan 1) O [] [] [] [] false.

Definition crash (s : State) : State :=
  mkState (closed s) (mu s) (inc s) (wg s) (handlers s) (conns s) (closers s)
          (held s) true.

Definition set_handler (i : nat) (pc : hpc) (s : State) : State :=
  mkState (closed s) (mu s) (inc s) (wg s) (<[i := pc]> (handlers s)) (conns s)
          (closers s) (held s) (crashed s).

Definition set_conn (d : nat) (x : gpc * bool) (s : State) : State :=
  mkState (closed s) (mu s) (inc s) (wg s) (handlers s) (<[d := x]> (conns s))
          (closers s) (held s) (crashed s).

Definition set_closer (k : nat) (pc : cpc) (s : State) : State :=
  mkState (closed s) (mu s) (inc s) (wg s) (handlers s) (conns s)
          (<[k := pc]> (closers s)) (held s) (crashed s).

Definition set_queue (q : Chan) (s : State) : State :=
  mkState (closed s) (mu s) q (wg s) (handlers s) (conns s) (closers s)
          (held s) (crashed s).

Definition set_mu (b : bool) (s : State) : State :=
  mkState (closed s) b (inc s) (wg s) (handlers s) (conns s) (closers s)
          (held s) (crashed s).

Definition set_closed (b : bool) (s : State) : State :=
  mkState b (mu s) (inc s) (wg s) (handlers s) (conns s) (closers s)
          (held s) (crashed s).

Definition set_wg (n : nat) (s : State) : State :=
  mkState (closed s) (mu s) (inc s) n (handlers s) (conns s) (closers s)
          (held s) (crashed s).

(** [close(done)] inside [Channel.Close], gorilla revision with the done
    signal: made only when the close message was written; closing a closed
    signal panics. *)
Definition signal_done (d : nat) (notified : bool) (s : State) : State :=
  if notified then
    match conns s !! d with
    | Some (pc, false) => set_conn d (pc, true) s
    | _ => crash s
    end
  else s.

Inductive label :=
| LArrive                               (* a request arrives *)
| LHook (i : nat) (pass : bool)         (* lst.check(req) *)
| LUpgrade (i : nat) (ok : bool)        (* lst.u.Upgrade(w, req, lst.hdr) *)
| LAdd (i : nat)                        (* lst.add(conn), under the mutex *)
| LReturn (i : nat)                     (* <-done proceeds, the handler returns *)
| LSend (d : nat)                       (* lst.inc <- ch *)
| LFinish (d : nat)                     (* <-done proceeds, then wg.Done() *)
| LAccept                               (* a consumer's Accept receives *)
| LChannelClose (d : nat) (notified : bool) (* a consumer closes its channel *)
| LCloseCall                            (* a call of Close starts *)
| LLock (k : nat)                       (* mu.Lock() *)
| LBody (k : nat)                       (* if lst.closed ...; close(lst.inc) *)
| LDrain (k : nat) (notified : bool)    (* one turn of the range loop, or its end *)
| LWait (k : nat)                       (* wg.Wait() proceeds *)
| LUnlock (k : nat).                    (* mu.Unlock(), Close returns *)

(** One step; [None] when the thread cannot take it in this state. *)
Definition step (a : label) (s : State) : option State :=
  if crashed s then None else
  match a with
  | LArrive =>
      Some (mkState (closed s) (mu s) (inc s) (wg s) (handlers s ++ [H0]) (conns s)
                    (closers s) (held s) (crashed s))
  | LHook i pass =>
      match handlers s !! i with
      | Some H0 => Some (set_handler i (if pass then H1 else HDone) s)
      | _ => None
      end
  | LUpgrade i ok =>
      match handlers s !! i with
      | Some H1 => Some (set_handler i (if ok then H2 else HDone) s)
      | _ => None
      end
  | LAdd i =>
      match handlers s !! i with
      | Some H2 =>
          if mu s then None
          else if closed s then Some (set_handler i HDone s)
          else
            Some (mkState (closed s) (mu s) (inc s) (S (wg s))
                          (<[i := H3 (length (conns s))]> (handlers s))
                          (conns s ++ [(G0, false)])
                          (closers s) (held s) (crashed s))
      | _ => None
      end
  | LReturn i =>
      match handlers s !! i with
      | Some (H3 d) =>
          match conns s !! d with
          | Some (_, true) => Some (set_handler i HDone s)
          | _ => None
          end
      | _ => None
      end
  | LSend d =>
      match conns s !! d with
      | Some (G0, sg) =>
          match chan_send d (inc s) with
          | SendProceeds q => Some (set_queue q (set_conn d (G1, sg) s))
          | SendBlocks => None
          | SendPanics _ => Some (crash s)
          end
      | _ => None
      end
  | LFinish d =>
      match conns s !! d with
      | Some (G1, true) =>
          match wg s with
          | O => Some (crash s)
          | S n => Some (set_wg n (set_conn d (GDone, true) s))
          end
      | _ => None
      end
  | LAccept =>
      match chan_recv (inc s) with
      | Some (Some d, q) =>
          Some (mkState (closed s) (mu s) q (wg s) (handlers s) (conns s)
                        (closers s) (d :: held s) (crashed s))
      | _ => None
      end
  | LChannelClose d notified =>
      if decide (d ∈ held s) then Some (signal_done d notified s) else None
  | LCloseCall =>
      Some (mkState (closed s) (mu s) (inc s) (wg s) (handlers s) (conns s)
                    (closers s ++ [C0]) (held s) (crashed s))
  | LLock k =>
      match closers s !! k with
      | Some C0 => if mu s then None else Some (set_mu true (set_closer k C1 s))
      | _ => None
      end
  | LBody k =>
      match closers s !! k with
      | Some C1 =>
          if closed s then Some (set_closer k (C2 (Some ErrListenerClosed)) s)
          else match chan_close (inc s) with
               | Some q => Some (set_queue q (set_closer k CDrain s))
               | None => Some (crash s)
               end
      | _ => None
      end
  | LDrain k notified =>
      match closers s !! k with
      | Some CDrain =>
          match buf (inc s) with
          | d :: rest =>
              Some (signal_done d notified
                      (set_queue (mkChan rest (capacity (inc s)) (chan_closed (inc s))) s))
          | [] =>
              if chan_closed (inc s)
              then Some (set_closed true (set_closer k (C2 None) s))
              else None
          end
      | _ => None
      end
  | LWait k =>
      match closers s !! k with
      | Some (C2 r) =>
          match wg s with
          | O => Some (set_closer k (C3 r) s)
          | S _ => None
          end
      | _ => None
      end
  | LUnlock k =>
      match closers s !! k with
      | Some (C3 r) => Some (set_mu false (set_closer k (CDone r) s))
      | _ => None
      end
  end.

Fixpoint exec (sched : list label) (s : State) : option State :=
  match sched with
  | [] => Some s
  | a :: rest =>
      match step a s with
      | Some s' => exec rest s'
      | None => None
      end
  end.

Definition reachable (s : State) : Prop :=
  exists sched, exec sched NewListener = Some s.

(** The goroutines of [add] that have not finished. *)
Fixpoint live (cs : list (gpc * bool)) : nat :=
  match cs with
  | [] => O
  | (GDone, _) :: rest => live rest
  | _ :: rest => S (live rest)
  end.

Definition returned (pc : cpc) : bool :=
  match pc with
  | CDone _ => true
  | _ => false
  end.

Definition waited (pc : cpc) : bool :=
  match pc with
  | C3 _ | CDone _ => true
  | _ => false
  end.

Definition past_body (pc : cpc) : bool :=
  match pc with
  | C2 _ | C3 _ | CDone _ => true
  | _ => false
  end.

Record Inv (s : State) : Prop := mkInv {
  inv_wg : wg s = live (conns s);
  inv_fired : forall d b, conns s !! d = Some (GDone, b) -> b = true;
  inv_past : forall k pc, closers s !! k = Some pc -> past_body pc = true ->
             closed s = true;
  inv_waited : forall k pc, closers s !! k = Some pc -> waited pc = true ->
               wg s = O;
  inv_handler : forall i d, handlers s !! i = Some (H3 d) -> (d < length (conns s))%nat
}.



(** A handler that reaches [add] while [Close] waits with the mutex held. *)
Definition sched_locked_out : list label :=
  [LArrive; LHook 0 true; LUpgrade 0 true; LAdd 0; LSend 0; LAccept;
   LArrive; LHook 1 true; LUpgrade 1 true;
   LCloseCall; LLock 0; LBody 0; LDrain 0 true].

End ListenerWG.

(** ** More on the listener *)

(** [n] calls of [Accept] one after the other, each taking the queue's case
    of the [select] when it is ready. *)
Fixpoint accepts (ctx : Ctx) (n : nat) (l : Listener.Listener)
  : list Listener.accepted * Listener.Listener :=
  match n with
  | O => ([], l)
  | S n =>
      let '(r, l1) := Listener.Accept ctx false l in
      let '(rs, l2) := accepts ctx n l1 in
      (r :: rs, l2)
  end.

(** Every struct that still holds a done signal holds an open one. *)
Definition open_done (w : World) : Prop :=
  forall p ch d,
    objs w !! p = Some ch -> done ch = Some d -> signals w !! d = Some false.

(** The channels' [Close] called on each of [chs] in turn, whatever the
    calls return, and the first error among the results. *)
Fixpoint close_all (Channel_Close : nat -> World -> outcome (option error))
  (chs : list nat) (w : World) : outcome (list (option error)) :=
  match chs with
  | [] => Ret [] w
  | p :: rest =>
      bind (Channel_Close p w) (fun r w =>
        bind (close_all Channel_Close rest w) (fun rs w => Ret (r :: rs) w))
  end.

Fixpoint first_error (rs : list (option error)) : option error :=
  match rs with
  | [] => None
  | Some e :: _ => Some e
  | None :: rest => first_error rest
  end.

(** The actions that need no pointer from outside: what handlers, accepting
    consumers and [Close] do to the listener. *)
Definition listener_action (a : action) : bool :=
  match a with
  | ActServe _ | ActAccept _ _ | ActClose | ActNew _ => true
  | _ => false
  end.

(** ** Counting closes *)

(** How often the connection [conn] was closed by the gorilla [Close]. *)
Fixpoint conn_closes (conn : nat) (tr : list event) : nat :=
  match tr with
  | [] => O
  | e :: rest =>
      ((if decide (e = EvConnClose conn) then 1 else 0) + conn_closes conn rest)%nat
  end.

(** A server that accepts the handshake on connection 7. *)
Definition accepting : WsDialer := mkWsDialer (fun _ _ _ => (7%nat, None, None)).

(** ** More on the listener with a wait group *)

Module ListenerWGInv.
Import ListenerWG.

(** The calls of [Close] that hold the mutex. *)
Definition holds (pc : cpc) : bool :=
  match pc with
  | C1 | CDrain | C2 _ | C3 _ => true
  | _ => false
  end.

Fixpoint holders (cs : list cpc) : nat :=
  match cs with
  | [] => O
  | pc :: rest => ((if holds pc then 1 else 0) + holders rest)%nat
  end.

Record Inv2 (s : State) : Prop := mkInv2 {
  inv_mutex : holders (closers s) = if mu s then 1%nat else O;
  inv_closed_queue : closed s = true -> chan_closed (inc s) = true;
  inv_queue_closer : chan_closed (inc s) = true ->
    closed s = true \/ exists k, closers s !! k = Some CDrain;
  inv_cap1 : capacity (inc s) = 1%nat;
  inv_len1 : (length (buf (inc s)) <= 1)%nat;
  inv_buf : forall d, d ∈ buf (inc s) -> conns s !! d = Some (G1, false);
  inv_unsent : forall d b, conns s !! d = Some (G0, b) -> b = false;
  inv_buf_nodup : NoDup (buf (inc s));
  inv_held : forall d, d ∈ held s ->
    (d ∉ buf (inc s)) /\ exists pc b, conns s !! d = Some (pc, b) /\ pc <> G0
}.

(** A connection nobody can close any more: its goroutine waits on a done
    signal that is open, and the channel is neither queued nor held by a
    consumer. *)
Definition orphan (d : nat) (s : State) : Prop :=
  conns s !! d = Some (G1, false) /\ (d ∉ buf (inc s)) /\ (d ∉ held s).

(** [Close] drains a queued channel whose close message cannot be written. *)
Definition sched_failed_notification : list label :=
  [LArrive; LHook 0 true; LUpgrade 0 true; LAdd 0; LSend 0;
   LCloseCall; LLock 0; LBody 0; LDrain 0 false].

(** [Close] closes the queue before the goroutine of [add] has sent. *)
Definition sched_close_before_send : list label :=
  [LArrive; LHook 0 true; LUpgrade 0 true; LAdd 0;
   LCloseCall; LLock 0; LBody 0; LDrain 0 true].

End ListenerWGInv.

(** The state a schedule leads to from the new listener. *)
Definition WG_state_after (sched : list ListenerWG.label) : ListenerWG.State :=
  match ListenerWG.exec sched ListenerWG.NewListener with
  | Some s => s
  | None => ListenerWG.NewListener
  end.

(** Two connections arrive and are registered; the first goroutine has
    sent. *)
Definition sched_two_connections : list ListenerWG.label :=
  [ListenerWG.LArrive; ListenerWG.LHook 0 true; ListenerWG.LUpgrade 0 true;
   ListenerWG.LAdd 0; ListenerWG.LSend 0;
   ListenerWG.LArrive; ListenerWG.LHook 1 true; ListenerWG.LUpgrade 1 true;
   ListenerWG.LAdd 1].
(** * Properties *)

(** ** The heap *)

Lemma fresh_None {V} (m : gmap nat V) : m !! fresh_key m = None.
Proof.
  unfold fresh_key. apply not_elem_of_dom. apply is_fresh.
Qed.

Lemma deref_Some p w ch : objs w !! p = Some ch -> deref p w = Ret ch w.
Proof. intros H. unfold deref. now rewrite H. Qed.

Lemma New_V3_spec conn w :
  let d := fresh_key (signals w) in
  let p := fresh_key (objs w) in
  ChannelV3.New conn w =
    (p, mkWorld (trace w) (<[d := false]> (signals w))
                (<[p := mkChannel conn (Some d)]> (objs w))).
Proof. reflexivity. Qed.

(** ** Channel.Close, gorilla revisions *)

Example closeMessage_bytes : closeMessage = [x03; xe8].
Proof. reflexivity. Qed.

Section CloseGorilla.
Variable T : Transport.
Variables (p : nat) (w : World) (ch : Channel).
Hypothesis Hp : objs w !! p = Some ch.

Lemma Close_V1_eq :
  ChannelV1.Close T p w =
    Ret (match write_result T (trace w) (c ch) CloseMessage closeMessage with
         | Some e => Some e
         | None => close_result T (trace (after_notify ch w)) (c ch)
         end) (after_conn_close ch w).
Proof.
  unfold ChannelV1.Close. rewrite (deref_Some _ _ _ Hp). simpl.
  destruct (write_result T _ _ _ _); reflexivity.
Qed.

Lemma Close_V2_eq :
  ChannelV2.Close T p w =
    match write_result T (trace w) (c ch) CloseMessage closeMessage with
    | Some e => Ret (Some e) (after_conn_close ch w)
    | None =>
        match done ch with
        | Some d =>
            bind (close_signal (Some d) (after_conn_close ch w))
                 (fun _ w' => Ret (close_result T (trace (after_notify ch w)) (c ch)) w')
        | None => Ret (close_result T (trace (after_notify ch w)) (c ch))
                      (after_conn_close ch w)
        end
    end.
Proof.
  unfold ChannelV2.Close. rewrite (deref_Some _ _ _ Hp). simpl.
  destruct (write_result T _ _ _ _); reflexivity.
Qed.

Lemma after_conn_close_trace :
  trace (after_conn_close ch w) = trace w ++ [notify ch; EvConnClose (c ch)].
Proof. unfold after_conn_close, after_notify, emit. simpl. now rewrite <- app_assoc. Qed.

Lemma Close_V2_trace :
  exists rest,
    trace (outcome_world (ChannelV2.Close T p w)) =
      trace w ++ [notify ch; EvConnClose (c ch)] ++ rest.
Proof.
  rewrite Close_V2_eq. destruct (write_result T _ _ _ _).
  - exists []. simpl outcome_world. now rewrite after_conn_close_trace.
  - destruct (done ch) as [d|].
    + unfold close_signal.
      destruct (signals (after_conn_close ch w) !! d) as [[|]|] eqn:Hd;
        cbn [outcome_world bind trace].
      * exists []. now rewrite after_conn_close_trace.
      * exists [EvSignal d]. rewrite after_conn_close_trace.
        now rewrite <- app_assoc.
      * exists []. now rewrite after_conn_close_trace.
    + exists []. simpl outcome_world. now rewrite after_conn_close_trace.
Qed.

Lemma Close_V2_returns :
  write_result T (trace w) (c ch) CloseMessage closeMessage <> None \/ done_closable ch w ->
  exists w',
    ChannelV2.Close T p w =
      Ret (match write_result T (trace w) (c ch) CloseMessage closeMessage with
           | Some e => Some e
           | None => close_result T (trace (after_notify ch w)) (c ch)
           end) w'.
Proof.
  intros H. rewrite Close_V2_eq.
  destruct (write_result T _ _ _ _) as [e|] eqn:He.
  - eauto.
  - destruct H as [H|H]; [congruence|].
    unfold done_closable in H. destruct (done ch) as [d|]; [|eauto].
    unfold close_signal.
    change (signals (after_conn_close ch w)) with (signals w). rewrite H.
    simpl. eauto.
Qed.
End CloseGorilla.

(** C1.  In both gorilla revisions [Close] first writes the close message,
    then closes the connection whatever the write answered, and returns the
    write's error when there is one and the connection's close status
    otherwise.  The first revision always returns; the second returns
    whenever the write failed or the done signal is nil or still open. *)
Theorem Close_notifies_then_closes_transport
  (T : Transport) (p : nat) (w : World) (ch : Channel) :
  objs w !! p = Some ch ->
  let err := write_result T (trace w) (c ch) CloseMessage closeMessage in
  let cerr := close_result T (trace w ++ [notify ch]) (c ch) in
  let result := match err with Some e => Some e | None => cerr end in
  (exists w', ChannelV1.Close T p w = Ret result w' /\
              trace w' = trace w ++ [notify ch; EvConnClose (c ch)]) /\
  (exists rest, trace (outcome_world (ChannelV2.Close T p w)) =
                  trace w ++ [notify ch; EvConnClose (c ch)] ++ rest) /\
  (err <> None \/ done_closable ch w ->
   exists w', ChannelV2.Close T p w = Ret result w').
Proof.
  intros Hp err cerr result. split; [|split].
  - eexists. split; [apply (Close_V1_eq T p w ch Hp)|].
    apply after_conn_close_trace.
  - apply (Close_V2_trace T p w ch Hp).
  - apply (Close_V2_returns T p w ch Hp).
Qed.

(** A channel over a dropped connection: the write fails, the connection is
    closed all the same, and the write's error is what [Close] returns. *)
Lemma Close_notifies_then_closes_transport_witness :
  let w := (ChannelV2.New 7 world0).2 in
  (exists w', ChannelV1.Close dropped 0 w = Ret (Some broken_pipe) w' /\
              trace w' = [notify (mkChannel 7 None); EvConnClose 7]) /\
  (exists w', ChannelV2.Close dropped 0 w = Ret (Some broken_pipe) w').
Proof.
  destruct (Close_notifies_then_closes_transport dropped 0
              (ChannelV2.New 7 world0).2 (mkChannel 7 None))
    as (H1 & _ & H3).
  - vm_compute. reflexivity.
  - split; [exact H1|]. apply H3. left. discriminate.
Defined.

(** ** Channel.Close and Done, nhooyr revision *)

Lemma Close_V3_nil_done p w conn :
  objs w !! p = Some (mkChannel conn None) ->
  ChannelV3.Close p w = Ret None w.
Proof.
  intros H. unfold ChannelV3.Close. now rewrite (deref_Some _ _ _ H).
Qed.

Lemma closes_V3_nil_done k p w conn :
  objs w !! p = Some (mkChannel conn None) ->
  closes ChannelV3.Close k p w = Ret (repeat None k) w.
Proof.
  intros H. induction k as [|k IH]; [reflexivity|].
  cbn [closes repeat]. rewrite (Close_V3_nil_done p w conn H).
  cbn [bind]. rewrite IH. reflexivity.
Qed.

(** The world a first [Close] leaves: the signal fired, the close handshake
    handed to a goroutine, and the [done] field set to nil. *)
Lemma Close_V3_open_done p w conn d :
  objs w !! p = Some (mkChannel conn (Some d)) ->
  signals w !! d = Some false ->
  ChannelV3.Close p w =
    Ret None
      (mkWorld (trace w ++ [EvSignal d; EvGoClose conn StatusNormalClosure "bye"])
               (<[d := true]> (signals w))
               (<[p := mkChannel conn None]> (objs w))).
Proof.
  intros Hp Hd. unfold ChannelV3.Close. rewrite (deref_Some _ _ _ Hp).
  cbn [bind done c close_signal]. rewrite Hd. cbn [bind].
  unfold store, emit. cbn [trace signals objs]. now rewrite <- app_assoc.
Qed.

Lemma Close_V3_first conn w :
  let d := fresh_key (signals w) in
  let p := (ChannelV3.New conn w).1 in
  ChannelV3.Close p (ChannelV3.New conn w).2 =
    Ret None
      (mkWorld (trace w ++ [EvSignal d; EvGoClose conn StatusNormalClosure "bye"])
               (<[d := true]> (<[d := false]> (signals w)))
               (<[p := mkChannel conn None]>
                  (<[p := mkChannel conn (Some d)]> (objs w)))).
Proof.
  intros d p. rewrite New_V3_spec. cbn [fst snd].
  rewrite (Close_V3_open_done _ _ conn (fresh_key (signals w))).
  - reflexivity.
  - apply lookup_insert_eq.
  - apply lookup_insert_eq.
Qed.

(** After [k+1] successive calls the struct holds a nil [done] and the
    signal is closed. *)
Lemma Close_fires_done_exactly_once_aux conn w k :
  let d := fresh_key (signals w) in
  let p := (ChannelV3.New conn w).1 in
  let w0 := (ChannelV3.New conn w).2 in
  exists w1,
    closes ChannelV3.Close (S k) p w0 = Ret (repeat None (S k)) w1 /\
    objs w1 !! p = Some (mkChannel conn None) /\
    signals w1 !! d = Some true.
Proof.
  intros d p w0. eexists. split; [|split].
  - cbn [closes]. unfold w0, p. rewrite Close_V3_first. cbn [bind].
    rewrite (closes_V3_nil_done k _ _ conn); [reflexivity|].
    apply lookup_insert_eq.
  - apply lookup_insert_eq.
  - apply lookup_insert_eq.
Qed.

(** C2, as the code has it, for the nhooyr revision, whose [Close] is
    guarded by the done field.  On a channel made by [New], any number [k+1]
    of successive [Close] calls return nil without panic and leave exactly
    what the first call left: one firing of the done signal and one close
    handshake handed to the transport; a further [Close] changes nothing. *)
Theorem Close_fires_done_exactly_once (conn : nat) (w : World) (k : nat) :
  let d := fresh_key (signals w) in
  let p := (ChannelV3.New conn w).1 in
  let w0 := (ChannelV3.New conn w).2 in
  exists w1,
    ChannelV3.Close p w0 = Ret None w1 /\
    closes ChannelV3.Close (S k) p w0 = Ret (repeat None (S k)) w1 /\
    trace w1 = trace w ++ [EvSignal d; EvGoClose conn StatusNormalClosure "bye"] /\
    signals w1 !! d = Some true /\
    ChannelV3.Close p w1 = Ret None w1.
Proof.
  intros d p w0. eexists. split; [apply Close_V3_first|].
  assert (Hnil : forall m sg tr,
             objs (mkWorld tr sg (<[p := mkChannel conn None]> m)) !! p
             = Some (mkChannel conn None)).
  { intros. apply lookup_insert_eq. }
  split; [|split; [reflexivity|split; [apply lookup_insert_eq|]]].
  - cbn [closes]. unfold w0, p. rewrite Close_V3_first. cbn [bind].
    rewrite (closes_V3_nil_done k _ _ conn (Hnil _ _ _)). reflexivity.
  - apply (Close_V3_nil_done _ _ conn). apply Hnil.
Qed.

(** C2, counterexample: the gorilla revision with the done signal has no
    such guard.  On a connection that works until it is closed, the first
    [Close] fires done and the second writes and closes the connection once
    more, returning the write's error.  On a connection the peer has
    dropped, the close message cannot be written: each [Close] closes the
    connection and returns before the signal is closed, so that done is
    never fired. *)
Lemma Close_V2_closes_transport_again :
  let ch := mkChannel 7 (Some O) in
  let w := mkWorld [] {[ O := false ]} {[ O := ch ]} in
  (exists w',
     closes (ChannelV2.Close closable) 2 O w = Ret [None; Some ErrCloseSent] w' /\
     trace w' = [notify ch; EvConnClose 7; EvSignal O; notify ch; EvConnClose 7] /\
     signals w' !! O = Some true) /\
  (exists w',
     closes (ChannelV2.Close dropped) 2 O w
       = Ret [Some broken_pipe; Some broken_pipe] w' /\
     trace w' = [notify ch; EvConnClose 7; notify ch; EvConnClose 7] /\
     signals w' !! O = Some false).
Proof.
  split; eexists; (split; [vm_compute; reflexivity|]); split; reflexivity.
Qed.

(** C10.  [Done] gives the channel's signal before the first [Close]; the
    first [Close] fires that signal and sets the field to nil, so [Done]
    gives nil from then on: waiting on what it returns never proceeds,
    although the signal itself has fired.  [DialContext] returns a channel
    made by [New]. *)
Theorem Done_is_nil_after_Close (conn : nat) (w : World) (k : nat) :
  let d := fresh_key (signals w) in
  let p := (ChannelV3.New conn w).1 in
  let w0 := (ChannelV3.New conn w).2 in
  ChannelV3.Done p w0 = Ret (Some d) w0 /\
  await (Some d) w0 = false /\
  (exists w1,
     closes ChannelV3.Close (S k) p w0 = Ret (repeat None (S k)) w1 /\
     ChannelV3.Done p w1 = Ret None w1 /\
     await None w1 = false /\
     await (Some d) w1 = true) /\
  (forall dial ctx url opts,
     let w' := emit (EvDial url) w in
     match dial (trace w) ctx url (DialV3.client opts) (DialV3.header opts) with
     | (conn', None) =>
         DialV3.DialContext dial ctx url opts w =
           Ret (Some (ChannelV3.New conn' w').1, None) (ChannelV3.New conn' w').2
     | (_, Some e) => DialV3.DialContext dial ctx url opts w = Ret (None, Some e) w'
     end).
Proof.
  intros d p w0. split; [|split; [|split]].
  - unfold ChannelV3.Done, w0, p. rewrite New_V3_spec. cbn [fst snd].
    unfold deref. cbn [objs]. rewrite lookup_insert_eq. reflexivity.
  - unfold await, w0. rewrite New_V3_spec. cbn [snd signals].
    now rewrite lookup_insert_eq.
  - destruct (Close_fires_done_exactly_once_aux conn w k) as (w1 & Hk & Hobj & Hsig).
    exists w1. split; [exact Hk|]. split; [|split; [reflexivity|]].
    + unfold ChannelV3.Done, p. now rewrite (deref_Some _ _ _ Hobj).
    + unfold await, d. now rewrite Hsig.
  - intros dial ctx url opts w'. unfold DialV3.DialContext.
    destruct (dial _ _ _ _ _) as [conn' [e|]]; [reflexivity|].
    fold w'. destruct (ChannelV3.New conn' w') as [p' w'']. reflexivity.
Qed.

(** ** filterErr *)

(** The gorilla revision asserts the dynamic type: every
    [*websocket.CloseError] becomes [net.ErrClosed], anything else is
    returned as it came. *)
Lemma filterErr_V2_spec (err : option error) :
  ChannelV2.filterErr err =
    match err with
    | Some (CloseErrorPtr _) => Some ErrClosed
    | _ => err
    end.
Proof. destruct err as [[]|]; reflexivity. Qed.

Lemma Recv_V2_filters T p w ch :
  objs w !! p = Some ch ->
  ChannelV2.Recv T p w =
    match read_result T (trace w) (c ch) with
    | (_, _, Some e) => Ret (None, ChannelV2.filterErr (Some e)) (emit (EvRead (c ch)) w)
    | (_, bits, None) => Ret (Some bits, None) (emit (EvRead (c ch)) w)
    end.
Proof.
  intros H. unfold ChannelV2.Recv. rewrite (deref_Some _ _ _ H).
  cbn [bind]. unfold ReadMessage.
  destruct (read_result T (trace w) (c ch)) as [[mt bits] [e|]]; reflexivity.
Qed.

(** In the nhooyr revision the test is [errors.Is] against the nil
    [*websocket.CloseError]: only that very pointer, somewhere in the chain,
    is mapped. *)
Lemma errors_Is_nil_CloseError (e : error) :
  carries_close e = true -> errors_Is e ChannelV3.nil_CloseError = false.
Proof.
  unfold ChannelV3.nil_CloseError.
  induction e as [| | | | |[ce|]|ce|s|msg inner IH]; cbn [carries_close errors_Is];
    try discriminate; intros H.
  - destruct (decide _) as [E|_]; [discriminate E|reflexivity].
  - destruct (decide _) as [E|_]; [discriminate E|reflexivity].
  - destruct (decide _) as [E|_]; [discriminate E|]. now apply IH.
Qed.

Lemma filterErr_V3_keeps_close_errors (e : error) :
  carries_close e = true -> ChannelV3.filterErr (Some e) = Some e.
Proof.
  intros H. unfold ChannelV3.filterErr. now rewrite errors_Is_nil_CloseError.
Qed.

(** C3.  The error nhooyr reports for a received close frame goes through
    the nhooyr revision's [filterErr], [Recv] and [Send] unchanged, not as
    [net.ErrClosed]; the gorilla revision maps gorilla's error for the same
    frame. *)
Theorem filterErr_V3_passes_close_frame :
  carries_close received_close_frame = true /\
  ChannelV3.filterErr (Some received_close_frame) = Some received_close_frame /\
  Some received_close_frame <> Some ErrClosed /\
  (let '(p, w) := ChannelV3.New 7 world0 in
   ChannelV3.Recv peer_closed p w
     = Ret (None, Some received_close_frame) (emit (EvRead 7) w) /\
   ChannelV3.Send peer_closed p [] w
     = Ret (Some received_close_frame) (emit (EvWrite 7 BinaryMessage []) w)) /\
  ChannelV2.filterErr (Some gorilla_close_frame) = Some ErrClosed.
Proof.
  split; [reflexivity|]. split; [reflexivity|]. split; [discriminate|].
  split; [|reflexivity]. vm_compute. split; reflexivity.
Qed.

(** ** Dial, gorilla revision *)

Section DialForms.
Variable DefaultDialer : WsDialer.
Variable TrimSpace : string -> string.
Variables (url : string) (opts : option DialV2.DialOptions) (w : World).

(** A failure that is not the bad-handshake error comes back wrapped. *)
Lemma Dial_wraps_other_failures conn rsp e :
  ws_dial (DialV2.dialer DefaultDialer opts) (trace w) url (DialV2.header opts)
    = (conn, rsp, Some e) ->
  e <> ErrBadHandshake ->
  DialV2.Dial DefaultDialer TrimSpace url opts w
    = Ret (None, Some (wrapError ("dial: " ++ Error e) e)) (emit (EvDial url) w).
Proof.
  intros Hd Hne. unfold DialV2.Dial. rewrite Hd.
  destruct (decide (e <> ErrBadHandshake)); [reflexivity|contradiction].
Qed.

(** A refused handshake with a readable, non-empty body comes back as the
    trimmed body behind "dial: ". *)
Lemma Dial_surfaces_body conn msg :
  ws_dial (DialV2.dialer DefaultDialer opts) (trace w) url (DialV2.header opts)
    = (conn, Some (mkResponse (msg, None)), Some ErrBadHandshake) ->
  String.length msg <> O ->
  DialV2.Dial DefaultDialer TrimSpace url opts w
    = Ret (None, Some (errorString ("dial: " ++ TrimSpace msg))) (emit (EvDial url) w).
Proof.
  intros Hd Hlen. unfold DialV2.Dial. rewrite Hd.
  destruct (decide (ErrBadHandshake <> ErrBadHandshake)); [contradiction|].
  cbn [ReadAll_Body]. destruct (Nat.eqb_spec (String.length msg) 0); [contradiction|].
  reflexivity.
Qed.

(** A refused handshake whose body is empty or could not be read comes back
    as the bad-handshake error itself. *)
Lemma Dial_bare_bad_handshake conn msg rerr :
  ws_dial (DialV2.dialer DefaultDialer opts) (trace w) url (DialV2.header opts)
    = (conn, Some (mkResponse (msg, rerr)), Some ErrBadHandshake) ->
  String.length msg = O \/ rerr <> None ->
  DialV2.Dial DefaultDialer TrimSpace url opts w
    = Ret (None, Some ErrBadHandshake) (emit (EvDial url) w).
Proof.
  intros Hd H. unfold DialV2.Dial. rewrite Hd.
  destruct (decide (ErrBadHandshake <> ErrBadHandshake)); [contradiction|].
  cbn [ReadAll_Body]. destruct rerr as [re|]; [reflexivity|].
  destruct H as [H|H]; [|congruence]. now rewrite H.
Qed.
End DialForms.

(** C9, as the code has it.  A dial failure takes one of three forms: a
    failure other than the bad-handshake error is wrapped behind "dial: "
    and stays reachable through [Unwrap]; a refused handshake whose body was
    read and is not empty is reported as "dial: " and the body with the
    white space around it trimmed; a refused handshake with an empty or
    unreadable body is the bad-handshake error itself, not wrapped.  The
    form for an unreachable endpoint differs from both forms for a refused
    handshake. *)
Theorem Dial_failure_forms (DefaultDialer : WsDialer) (TrimSpace : string -> string)
  (url : string) (opts : option DialV2.DialOptions) (w : World)
  (conn : nat) (rsp : option Response) (e : error) :
  ws_dial (DialV2.dialer DefaultDialer opts) (trace w) url (DialV2.header opts)
    = (conn, rsp, Some e) ->
  let result := DialV2.Dial DefaultDialer TrimSpace url opts w in
  let w' := emit (EvDial url) w in
  (e <> ErrBadHandshake ->
   exists e', result = Ret (None, Some e') w' /\
              Unwrap e' = Some e /\ Error e' = ("dial: " ++ Error e)%string) /\
  (forall msg, e = ErrBadHandshake -> rsp = Some (mkResponse (msg, None)) ->
     String.length msg <> O ->
     exists e', result = Ret (None, Some e') w' /\
                Unwrap e' = None /\ Error e' = ("dial: " ++ TrimSpace msg)%string) /\
  (forall msg rerr, e = ErrBadHandshake -> rsp = Some (mkResponse (msg, rerr)) ->
     String.length msg = O \/ rerr <> None ->
     result = Ret (None, Some ErrBadHandshake) w') /\
  (forall cause msg,
     wrapError ("dial: " ++ Error cause)%string cause <> errorString (("dial: " ++ TrimSpace msg)%string) /\
     wrapError ("dial: " ++ Error cause)%string cause <> ErrBadHandshake).
Proof.
  intros Hd result w'. repeat split.
  - intros Hne. eexists. split; [|split].
    + apply (Dial_wraps_other_failures _ _ _ _ _ _ _ _ Hd Hne).
    + reflexivity.
    + reflexivity.
  - intros msg -> -> Hlen. eexists. split; [|split].
    + apply (Dial_surfaces_body _ _ _ _ _ _ _ Hd Hlen).
    + reflexivity.
    + reflexivity.
  - intros msg rerr -> -> H.
    apply (Dial_bare_bad_handshake _ _ _ _ _ _ _ _ Hd H).
  - discriminate.
  - discriminate.
Qed.

(** The rejection of the admission test, read back by the client. *)
Lemma Dial_failure_forms_witness :
  exists e', DialV2.Dial (refusing failed_body) TrimSpace_ascii "ws://host/" None world0
               = Ret (None, Some e') (emit (EvDial "ws://host/") world0) /\
             Unwrap e' = None /\ Error e' = "dial: failed".
Proof.
  destruct (Dial_failure_forms (refusing failed_body) TrimSpace_ascii "ws://host/" None
              world0 O (Some (mkResponse (failed_body, None))) ErrBadHandshake eq_refl)
    as (_ & H & _).
  apply (H failed_body eq_refl eq_refl). vm_compute. discriminate.
Defined.

(** C9, counterexample: a handshake refused without a body gives the
    bare bad-handshake error, with no wrapper and no "dial: " context; and a
    body of white space only, though not empty, leaves nothing of itself in
    the error. *)
Lemma Dial_bad_handshake_unwrapped :
  DialV2.Dial unreachable TrimSpace_ascii "ws://host/"
      (Some (DialV2.mkDialOptions None (Some (refusing "")))) world0
    = Ret (None, Some ErrBadHandshake) (emit (EvDial "ws://host/") world0) /\
  Unwrap ErrBadHandshake = None /\
  Error ErrBadHandshake = "websocket: bad handshake" /\
  String.length empty_message_body = 1%nat /\
  DialV2.Dial unreachable TrimSpace_ascii "ws://host/"
      (Some (DialV2.mkDialOptions None (Some (refusing empty_message_body)))) world0
    = Ret (None, Some (errorString "dial: ")) (emit (EvDial "ws://host/") world0).
Proof. repeat split. Qed.

(** ** The listener's invariant *)

Lemma Close_V3_cases p w r w' :
  ChannelV3.Close p w = Ret r w' ->
  r = None /\
  ((exists conn, objs w !! p = Some (mkChannel conn None) /\ w' = w) \/
   (exists conn d, objs w !! p = Some (mkChannel conn (Some d)) /\
                   signals w !! d = Some false /\ w' = closed_world p conn d w)).
Proof.
  unfold ChannelV3.Close, deref.
  destruct (objs w !! p) as [[conn [d|]]|] eqn:Hp; cbn [bind done c]; try discriminate.
  - unfold close_signal. destruct (signals w !! d) as [[|]|] eqn:Hd; try discriminate.
    cbn [bind]. intros [= <- <-]. split; [reflexivity|]. right.
    exists conn, d. split; [reflexivity|]. split; [exact Hd|].
    unfold closed_world, store, emit. cbn [trace signals objs].
    now rewrite <- app_assoc.
  - intros [= <- <-]. split; [reflexivity|]. left. now exists conn.
Qed.

Lemma Close_V3_closed_world p w conn d :
  objs w !! p = Some (mkChannel conn (Some d)) ->
  signals w !! d = Some false ->
  ChannelV3.Close p w = Ret None (closed_world p conn d w).
Proof. intros. now apply Close_V3_open_done. Qed.

Section ClosedWorld.
Variables (p conn d : nat) (w : World).
Hypothesis Hp : objs w !! p = Some (mkChannel conn (Some d)).
Hypothesis Hown : own w.

Lemma closed_world_own : own (closed_world p conn d w).
Proof.
  intros p1 p2 ch1 ch2 d'. cbn [closed_world objs].
  rewrite !lookup_insert. repeat case_decide; subst.
  - intros [= <-]. discriminate.
  - intros [= <-]. discriminate.
  - intros _ [= <-]. discriminate.
  - apply Hown.
Qed.

Lemma closed_world_allocd : allocd w -> allocd (closed_world p conn d w).
Proof.
  intros Ha q ch d'. cbn [closed_world objs signals].
  rewrite lookup_insert. case_decide; subst.
  - intros [= <-]. discriminate.
  - intros Hq Hd. rewrite lookup_insert. case_decide; [eauto|].
    eapply Ha; eauto.
Qed.

Lemma closed_world_queued chs :
  p ∉ chs -> queued_ok chs w -> queued_ok chs (closed_world p conn d w).
Proof.
  intros Hnin Hq q Hin. destruct (Hq q Hin) as (conn' & d' & Hobj & Hsig).
  exists conn', d'. cbn [closed_world objs signals].
  assert (q <> p) by (intros ->; contradiction).
  rewrite lookup_insert_ne by congruence. split; [exact Hobj|].
  rewrite lookup_insert_ne; [exact Hsig|].
  intros ->. apply H. eapply (Hown q p); eauto.
Qed.
End ClosedWorld.

Section NewWorld.
Variables (conn : nat) (w : World).

Lemma New_own : own w -> allocd w -> own (ChannelV3.New conn w).2.
Proof.
  intros Hown Ha p1 p2 ch1 ch2 d. rewrite New_V3_spec. cbn [snd objs].
  rewrite !lookup_insert. repeat case_decide; subst.
  - reflexivity.
  - intros [= <-] H2 [= <-] Hd. destruct (Ha _ _ _ H2 Hd) as [b Hb].
    rewrite fresh_None in Hb. discriminate.
  - intros H1 [= <-] Hd [= <-]. destruct (Ha _ _ _ H1 Hd) as [b Hb].
    rewrite fresh_None in Hb. discriminate.
  - apply Hown.
Qed.

Lemma New_allocd : allocd w -> allocd (ChannelV3.New conn w).2.
Proof.
  intros Ha p ch d. rewrite New_V3_spec. cbn [snd objs signals].
  rewrite lookup_insert. case_decide; subst.
  - intros [= <-] [= <-]. rewrite lookup_insert_eq. eauto.
  - intros Hp Hd. rewrite lookup_insert. case_decide; [eauto|].
    eapply Ha; eauto.
Qed.

Lemma New_fresh_notin chs : queued_ok chs w -> fresh_key (objs w) ∉ chs.
Proof.
  intros Hq Hin. destruct (Hq _ Hin) as (conn' & d' & Hobj & _).
  rewrite fresh_None in Hobj. discriminate.
Qed.

Lemma New_queued chs : queued_ok chs w -> queued_ok chs (ChannelV3.New conn w).2.
Proof.
  intros Hq q Hin. destruct (Hq q Hin) as (conn' & d' & Hobj & Hsig).
  exists conn', d'. rewrite New_V3_spec. cbn [snd objs signals].
  rewrite !lookup_insert. repeat case_decide; subst.
  - rewrite fresh_None in Hobj. discriminate.
  - rewrite fresh_None in Hobj. discriminate.
  - rewrite fresh_None in Hsig. discriminate.
  - split; assumption.
Qed.

Lemma New_queued_new :
  exists d, objs (ChannelV3.New conn w).2 !! (ChannelV3.New conn w).1
              = Some (mkChannel conn (Some d)) /\
            signals (ChannelV3.New conn w).2 !! d = Some false.
Proof.
  exists (fresh_key (signals w)). rewrite New_V3_spec. cbn [fst snd objs signals].
  now rewrite !lookup_insert_eq.
Qed.
End NewWorld.

(** The drain of [Listener.Close]: every queued channel is closed, in queue
    order; nothing else on the heap is touched. *)
Lemma drain_spec (chs : list nat) :
  forall (w : World) (cerr : option error),
    NoDup chs -> queued_ok chs w -> own w ->
    exists w',
      Listener.drain ChannelV3.Close chs cerr w = Ret cerr w' /\
      own w' /\
      (allocd w -> allocd w') /\
      (exists rest, trace w' = trace w ++ rest) /\
      (forall q, q ∉ chs -> objs w' !! q = objs w !! q) /\
      (forall d, signals w !! d = Some true -> signals w' !! d = Some true) /\
      (forall p conn d, p ∈ chs -> objs w !! p = Some (mkChannel conn (Some d)) ->
         signals w' !! d = Some true /\
         objs w' !! p = Some (mkChannel conn None) /\
         EvSignal d ∈ trace w' /\
         EvGoClose conn StatusNormalClosure "bye" ∈ trace w').
Proof.
  induction chs as [|p rest IH]; intros w cerr Hnd Hq Hown.
  - exists w. cbn [Listener.drain].
    split; [reflexivity|]. split; [exact Hown|]. split; [auto|].
    split; [exists []; now rewrite app_nil_r|]. split; [auto|]. split; [auto|].
    intros p conn d Hin. now apply elem_of_nil in Hin.
  - apply NoDup_cons in Hnd as [Hnin Hnd'].
    destruct (Hq p (list_elem_of_here p rest)) as (conn & d & Hobj & Hsig).
    assert (Hq' : queued_ok rest (closed_world p conn d w)).
    { apply (closed_world_queued p conn d w Hobj Hown rest Hnin).
      intros q Hin. apply Hq. now apply list_elem_of_further. }
    destruct (IH (closed_world p conn d w) cerr Hnd' Hq'
                 (closed_world_own p conn d w Hobj Hown))
      as (w' & Hrun & Hown' & Ha' & (tr & Htr) & Hkeep & Hmono & Hall).
    exists w'. split; [|split; [exact Hown'|split; [|split; [|split; [|split]]]]].
    + cbn [Listener.drain]. rewrite (Close_V3_closed_world p w conn d Hobj Hsig).
      cbn [bind]. destruct cerr; exact Hrun.
    + intros Ha. apply Ha'. now apply closed_world_allocd.
    + exists ([EvSignal d; EvGoClose conn StatusNormalClosure "bye"] ++ tr).
      rewrite Htr. cbn [closed_world trace]. now rewrite <- app_assoc.
    + intros q Hq0. apply not_elem_of_cons in Hq0 as [Hne Hq0].
      rewrite Hkeep by exact Hq0.
      cbn [closed_world objs]. apply lookup_insert_ne. congruence.
    + intros d' Hd'. apply Hmono. cbn [closed_world signals].
      rewrite lookup_insert. case_decide; [reflexivity|exact Hd'].
    + intros q conn' d' Hin Hobj'. apply elem_of_cons in Hin as [->|Hin].
      * rewrite Hobj in Hobj'. injection Hobj' as <- <-.
        split; [|split; [|split]].
        -- apply Hmono. cbn [closed_world signals]. apply lookup_insert_eq.
        -- rewrite Hkeep by exact Hnin. cbn [closed_world objs].
           apply lookup_insert_eq.
        -- rewrite Htr. cbn [closed_world trace]. rewrite !elem_of_app.
           left. right. apply list_elem_of_here.
        -- rewrite Htr. cbn [closed_world trace]. rewrite !elem_of_app.
           left. right. apply list_elem_of_further, list_elem_of_here.
      * apply (Hall q conn' d' Hin). cbn [closed_world objs].
        rewrite lookup_insert_ne; [exact Hobj'|]. intros ->. contradiction.
Qed.

Lemma maxPending_pos (opts : option Listener.ListenOptions) :
  1 <= Listener.maxPending opts.
Proof.
  destruct opts as [o|]; cbn [Listener.maxPending]; [|lia].
  destruct (Z.leb_spec (Listener.MaxPending o) 0); lia.
Qed.

Lemma own_world0 : own world0.
Proof. intros p1 p2 ch1 ch2 d H. cbn in H. now rewrite lookup_empty in H. Qed.

Lemma allocd_world0 : allocd world0.
Proof. intros p ch d H. cbn in H. now rewrite lookup_empty in H. Qed.

Lemma Inv_NewListener zero opts : Inv (Listener.NewListener zero opts) world0.
Proof.
  constructor; cbn.
  - reflexivity.
  - lia.
  - pose proof (maxPending_pos opts). lia.
  - discriminate.
  - constructor.
  - intros p Hp. now apply elem_of_nil in Hp.
  - apply own_world0.
  - apply allocd_world0.
Qed.

Lemma Inv_emit l w e : Inv l w -> Inv l (emit e w).
Proof. intros []. constructor; assumption. Qed.

(** The two answers the handler gives of its own accord have a status that
    [WriteHeader] takes. *)
Lemma http_Error_500 req msg w :
  http_Error req msg StatusInternalServerError w
    = Ret tt (emit (EvHttpError req msg StatusInternalServerError) w).
Proof. reflexivity. Qed.

Lemma http_Error_503 req msg w :
  http_Error req msg StatusServiceUnavailable w
    = Ret tt (emit (EvHttpError req msg StatusServiceUnavailable) w).
Proof. reflexivity. Qed.

(** The handler when the hook reports an error: it answers and returns, or
    it panics in [err.Error()] or in [WriteHeader] before anything is
    answered. *)
Lemma ServeHTTP_hook_cases req l w code e :
  Listener.check l req = (code, Some e) ->
  (Listener.hook_answer_ok (code, Some e) = true /\
   exists msg, call_Error e = Some msg /\
     Listener.ServeHTTP req l w =
       (Listener.Returns, l,
        emit (EvHttpError req msg (Listener.refusal_status code)) w)) \/
  (Listener.hook_answer_ok (code, Some e) = false /\
   exists m, Listener.ServeHTTP req l w = (Listener.HandlerPanics m, l, w)).
Proof.
  intros H. unfold Listener.ServeHTTP, Listener.hook_answer_ok, http_Error.
  rewrite H. destruct (call_Error e) as [msg|]; [|right; eauto].
  destruct (checkWriteHeaderCode _); [left|right]; cbn [Listener.answers]; eauto.
Qed.

(** The handler's critical section when the request is admitted. *)
Lemma ServeHTTP_admits req l w code conn :
  Listener.check l req = (code, None) ->
  Listener.closed l = false ->
  length (buf (Listener.inc l)) <> capacity (Listener.inc l) ->
  ws_upgrade (Listener.u l) (trace w) req (Listener.hdr l) = (conn, None) ->
  Inv l w ->
  let w1 := emit (EvUpgrade req) w in
  Listener.ServeHTTP req l w =
    (Listener.AwaitsDone (fresh_key (signals w)),
     Listener.set_inc l (mkChan (buf (Listener.inc l) ++ [(ChannelV3.New conn w1).1])
                                (capacity (Listener.inc l)) false),
     (ChannelV3.New conn w1).2).
Proof.
  intros Hc Hcl Hlen Hup HI w1. unfold Listener.ServeHTTP.
  rewrite Hc, Hcl. destruct (Nat.eqb_spec (length (buf (Listener.inc l)))
                                           (capacity (Listener.inc l))); [contradiction|].
  rewrite Hup. fold w1. rewrite New_V3_spec. unfold chan_send.
  rewrite (inv_flag _ _ HI), Hcl.
  pose proof (inv_room _ _ HI).
  destruct (Nat.ltb_spec (length (buf (Listener.inc l))) (capacity (Listener.inc l)));
    [|lia].
  cbn [objs fst snd]. rewrite lookup_insert_eq. cbn [done]. reflexivity.
Qed.

Lemma Inv_enqueue l w conn :
  Inv l w ->
  Listener.closed l = false ->
  length (buf (Listener.inc l)) <> capacity (Listener.inc l) ->
  Inv (Listener.set_inc l (mkChan (buf (Listener.inc l) ++ [(ChannelV3.New conn w).1])
                                  (capacity (Listener.inc l)) false))
      (ChannelV3.New conn w).2.
Proof.
  intros HI Hcl Hlen. destruct HI.
  constructor;
    cbn [Listener.inc Listener.closed Listener.set_inc buf capacity chan_closed].
  - now rewrite Hcl.
  - rewrite length_app. cbn [length]. lia.
  - assumption.
  - rewrite Hcl. discriminate.
  - apply NoDup_app. split; [assumption|]. split; [|apply NoDup_singleton].
    intros x Hx Hx'. apply list_elem_of_singleton in Hx'. subst x.
    revert Hx. rewrite New_V3_spec. cbn [fst]. now apply New_fresh_notin.
  - intros p Hp. apply elem_of_app in Hp as [Hp|Hp].
    + now apply (New_queued conn w (buf (Listener.inc l))).
    + apply list_elem_of_singleton in Hp. subst p.
      destruct (New_queued_new conn w) as (d & H1 & H2). eauto.
  - now apply New_own.
  - now apply New_allocd.
Qed.

(** A handler invocation keeps the invariant and does not block in its
    send; it panics only where the hook has reported an error that the
    handler cannot answer. *)
Lemma ServeHTTP_Inv req l w :
  Inv l w ->
  Inv (Listener.ServeHTTP req l w).1.2 (Listener.ServeHTTP req l w).2 /\
  (Listener.ServeHTTP req l w).1.1 <> Listener.BlocksOnSend /\
  (forall msg, (Listener.ServeHTTP req l w).1.1 = Listener.HandlerPanics msg ->
     Listener.hook_answer_ok (Listener.check l req) = false).
Proof.
  intros HI.
  destruct (Listener.check l req) as [code [e|]] eqn:Hc.
  { destruct (ServeHTTP_hook_cases req l w code e Hc)
      as [(_ & msg & _ & ->)|(Hbad & m & ->)]; cbn [fst snd].
    - split; [now apply Inv_emit|]. split; discriminate.
    - split; [exact HI|]. split; [discriminate|]. intros _ _. exact Hbad. }
  destruct (Listener.closed l) eqn:Hcl.
  { unfold Listener.ServeHTTP. rewrite Hc, Hcl. cbn.
    split; [now apply Inv_emit|]. split; [discriminate|discriminate]. }
  destruct (Nat.eqb_spec (length (buf (Listener.inc l))) (capacity (Listener.inc l)))
    as [Hlen|Hlen].
  { unfold Listener.ServeHTTP. rewrite Hc, Hcl.
    rewrite (proj2 (Nat.eqb_eq _ _) Hlen). cbn.
    split; [now apply Inv_emit|]. split; [discriminate|discriminate]. }
  destruct (ws_upgrade (Listener.u l) (trace w) req (Listener.hdr l))
    as [conn [e|]] eqn:Hup.
  { unfold Listener.ServeHTTP. rewrite Hc, Hcl.
    rewrite (proj2 (Nat.eqb_neq _ _) Hlen), Hup. cbn.
    split; [now apply Inv_emit|]. split; [discriminate|discriminate]. }
  rewrite (ServeHTTP_admits req l w code conn Hc Hcl Hlen Hup HI). cbn [fst snd].
  split; [|split; discriminate].
  apply Inv_enqueue; [now apply Inv_emit|assumption|assumption].
Qed.

Lemma Accept_Inv ctx pick_ctx l w :
  Inv l w -> Inv (Listener.Accept ctx pick_ctx l).2 w.
Proof.
  intros HI.
  assert (Hpop : forall p rest, buf (Listener.inc l) = p :: rest ->
            Inv (Listener.set_inc l (mkChan rest (capacity (Listener.inc l))
                                            (chan_closed (Listener.inc l)))) w).
  { intros p rest Hb. destruct HI. rewrite Hb in *.
    apply NoDup_cons in inv_nodup0 as [Hnin Hnd].
    constructor;
      cbn [Listener.inc Listener.closed Listener.set_inc buf capacity chan_closed];
      try assumption.
    - cbn [length] in inv_room0. lia.
    - intros Hcl. now specialize (inv_drained0 Hcl).
    - intros q Hq. apply inv_queued0. now apply list_elem_of_further. }
  unfold Listener.Accept, chan_recv.
  destruct (buf (Listener.inc l)) as [|p rest] eqn:Hb.
  - destruct (chan_closed (Listener.inc l)); destruct ctx; try destruct pick_ctx;
      exact HI.
  - destruct ctx; try destruct pick_ctx; cbn [snd]; try exact HI;
      now apply (Hpop p rest).
Qed.

(** [Listener.Close] on an open listener. *)
Lemma Listener_Close_open l w :
  Inv l w -> Listener.closed l = false ->
  let l' := Listener.mkListener (Listener.u l) (Listener.hdr l) (Listener.check l)
              (mkChan [] (capacity (Listener.inc l)) true) true in
  exists w',
    Listener.Close ChannelV3.Close l w = Ret (None, l') w' /\
    Inv l' w' /\
    (exists rest, trace w' = trace w ++ rest) /\
    (forall q, q ∉ buf (Listener.inc l) -> objs w' !! q = objs w !! q) /\
    (forall p, p ∈ buf (Listener.inc l) ->
       exists conn d,
         objs w !! p = Some (mkChannel conn (Some d)) /\
         signals w !! d = Some false /\
         signals w' !! d = Some true /\
         objs w' !! p = Some (mkChannel conn None) /\
         EvSignal d ∈ trace w' /\
         EvGoClose conn StatusNormalClosure "bye" ∈ trace w').
Proof.
  intros HI Hcl l'.
  destruct (drain_spec (buf (Listener.inc l)) w None
              (inv_nodup _ _ HI) (inv_queued _ _ HI) (inv_own _ _ HI))
    as (w' & Hrun & Hown' & Ha' & Htr & Hkeep & Hmono & Hall).
  exists w'. split; [|split; [|split; [exact Htr|split; [exact Hkeep|]]]].
  - unfold Listener.Close, chan_close. rewrite Hcl, (inv_flag _ _ HI), Hcl.
    cbn [buf]. rewrite Hrun. reflexivity.
  - constructor; cbn [l' Listener.inc Listener.closed buf capacity chan_closed length].
    + reflexivity.
    + lia.
    + apply (inv_cap _ _ HI).
    + reflexivity.
    + constructor.
    + intros p Hp. now apply elem_of_nil in Hp.
    + exact Hown'.
    + apply Ha', (inv_alloc _ _ HI).
  - intros p Hp. destruct (inv_queued _ _ HI p Hp) as (conn & d & Hobj & Hsig).
    exists conn, d. destruct (Hall p conn d Hp Hobj) as (H1 & H2 & H3 & H4).
    repeat split; assumption.
Qed.

(** [Listener.Close] on a closed listener. *)
Lemma Listener_Close_closed (close : nat -> World -> outcome (option error)) l w :
  Listener.closed l = true ->
  Listener.Close close l w = Ret (Some ErrListenerClosed, l) w.
Proof. intros H. unfold Listener.Close. now rewrite H. Qed.

Lemma drain_close_all (Channel_Close : nat -> World -> outcome (option error))
  (chs : list nat) :
  forall (cerr : option error) (w : World),
    Listener.drain Channel_Close chs cerr w =
      bind (close_all Channel_Close chs w) (fun rs w' =>
        Ret (match cerr with Some e => Some e | None => first_error rs end) w').
Proof.
  induction chs as [|p rest IH]; intros cerr w.
  - cbn. now destruct cerr.
  - cbn [Listener.drain close_all].
    destruct (Channel_Close p w) as [r w1|msg w1]; cbn [bind]; [|reflexivity].
    rewrite IH. destruct (close_all Channel_Close rest w1) as [rs w2|msg w2];
      cbn [bind]; [|reflexivity].
    destruct cerr as [e|]; [reflexivity|]. destruct r; reflexivity.
Qed.

Lemma close_all_length (Channel_Close : nat -> World -> outcome (option error))
  (chs : list nat) :
  forall w rs w', close_all Channel_Close chs w = Ret rs w' -> length rs = length chs.
Proof.
  induction chs as [|p rest IH]; intros w rs w'; cbn [close_all].
  - now intros [= <- _].
  - destruct (Channel_Close p w) as [r w1|]; cbn [bind]; [|discriminate].
    destruct (close_all Channel_Close rest w1) as [rs1 w2|] eqn:Hc; cbn [bind];
      [|discriminate].
    intros [= <- _]. cbn [length]. f_equal. eapply IH; eauto.
Qed.

(** The first [Close] of an open listener, whatever the [Close] of its
    channels does: it closes the queue and calls that [Close] on every
    queued channel, oldest first, keeping the first error. *)
Lemma Listener_Close_drains (Channel_Close : nat -> World -> outcome (option error))
  (l : Listener.Listener) (w : World) :
  Listener.closed l = false ->
  chan_closed (Listener.inc l) = false ->
  Listener.Close Channel_Close l w =
    bind (close_all Channel_Close (buf (Listener.inc l)) w) (fun rs w' =>
      Ret (first_error rs,
           Listener.mkListener (Listener.u l) (Listener.hdr l) (Listener.check l)
             (mkChan [] (capacity (Listener.inc l)) true) true) w').
Proof.
  intros Hcl Hq. unfold Listener.Close, chan_close. rewrite Hcl, Hq.
  cbn [buf capacity]. rewrite drain_close_all.
  destruct (close_all Channel_Close (buf (Listener.inc l)) w); reflexivity.
Qed.

Lemma Channel_Close_Inv l w p r w' :
  Inv l w -> p ∉ buf (Listener.inc l) ->
  ChannelV3.Close p w = Ret r w' -> Inv l w'.
Proof.
  intros HI Hnin Hc. apply Close_V3_cases in Hc as [_ [(conn & _ & ->)|H]];
    [exact HI|].
  destruct H as (conn & d & Hobj & Hsig & ->). destruct HI.
  constructor; try assumption.
  - now apply closed_world_queued.
  - now apply closed_world_own.
  - now apply closed_world_allocd.
Qed.

Lemma New_Inv l w conn : Inv l w -> Inv l (ChannelV3.New conn w).2.
Proof.
  intros []. constructor; try assumption.
  - now apply New_queued.
  - now apply New_own.
  - now apply New_allocd.
Qed.

Lemma Send_V3_world T p data w r w' :
  ChannelV3.Send T p data w = Ret r w' ->
  exists ch, w' = emit (EvWrite (c ch) BinaryMessage data) w.
Proof.
  unfold ChannelV3.Send, deref. destruct (objs w !! p) as [ch|]; [|discriminate].
  cbn. intros [= <- <-]. now exists ch.
Qed.

Lemma Recv_V3_world T p w r w' :
  ChannelV3.Recv T p w = Ret r w' ->
  exists ch, w' = emit (EvRead (c ch)) w.
Proof.
  unfold ChannelV3.Recv, deref. destruct (objs w !! p) as [ch|]; [|discriminate].
  cbn. destruct (read_result T (trace w) (c ch)) as [[mt bits] [e|]];
    intros [= <- <-]; now exists ch.
Qed.

Lemma act_Inv a l w l' w' :
  Inv l w -> act a (l, w) = Some (l', w') -> Inv l' w'.
Proof.
  intros HI. destruct a as [req|ctx pick_ctx| |p|conn|T p data|T p]; cbn [act].
  - pose proof (ServeHTTP_Inv req l w HI) as (H1 & _).
    destruct (Listener.ServeHTTP req l w) as [[r l1] w1]. cbn [fst snd] in H1.
    destruct r; intros [= <- <-]; exact H1.
  - intros [= <- <-]. now apply Accept_Inv.
  - destruct (Listener.closed l) eqn:Hcl.
    + rewrite (Listener_Close_closed _ l w Hcl). intros [= <- <-]. exact HI.
    + destruct (Listener_Close_open l w HI Hcl) as (w1 & Hrun & HI1 & _).
      rewrite Hrun. intros [= <- <-]. exact HI1.
  - case_decide; [discriminate|].
    destruct (ChannelV3.Close p w) as [r w1|] eqn:Hc; [|discriminate].
    intros [= <- <-]. eapply Channel_Close_Inv; eauto.
  - intros [= <- <-]. now apply New_Inv.
  - destruct (ChannelV3.Send T p data w) as [r w1|] eqn:Hs; [|discriminate].
    intros [= <- <-]. destruct (Send_V3_world _ _ _ _ _ _ Hs) as [ch ->].
    now apply Inv_emit.
  - destruct (ChannelV3.Recv T p w) as [r w1|] eqn:Hs; [|discriminate].
    intros [= <- <-]. destruct (Recv_V3_world _ _ _ _ _ Hs) as [ch ->].
    now apply Inv_emit.
Qed.

Lemma run_Inv acts : forall s s',
  Inv s.1 s.2 -> run acts s = Some s' -> Inv s'.1 s'.2.
Proof.
  induction acts as [|a rest IH]; intros [l w] s' HI; cbn [run].
  - now intros [= <-].
  - destruct (act a (l, w)) as [[l1 w1]|] eqn:Ha; [|discriminate].
    apply IH. cbn [fst snd]. eapply act_Inv; eauto.
Qed.

Lemma reachable_Inv zero opts l w : reachable zero opts (l, w) -> Inv l w.
Proof.
  intros [acts Hrun].
  apply (run_Inv acts (Listener.NewListener zero opts, world0) (l, w));
    [apply Inv_NewListener|exact Hrun].
Qed.

(** The configuration is fixed when the listener is made, and the closed
    flag is never reset. *)
Lemma act_config a l w l' w' :
  Inv l w ->
  act a (l, w) = Some (l', w') ->
  capacity (Listener.inc l') = capacity (Listener.inc l) /\
  Listener.check l' = Listener.check l /\
  (Listener.closed l = true -> l' = l).
Proof.
  intros HI.
  destruct a as [req|ctx pick_ctx| |p|conn|T p data|T p]; cbn [act].
  - destruct (Listener.check l req) as [code [e|]] eqn:Hc.
    { destruct (ServeHTTP_hook_cases req l w code e Hc)
        as [(_ & msg & _ & ->)|(_ & m & ->)]; [intros [= <- <-]; auto|discriminate]. }
    unfold Listener.ServeHTTP. rewrite Hc.
    destruct (Listener.closed l) eqn:Hcl;
      [rewrite http_Error_500; intros [= <- <-]; auto|].
    destruct (Nat.eqb _ _); [rewrite http_Error_503; intros [= <- <-]; auto|].
    destruct (ws_upgrade _ _ _ _) as [conn [e|]]; [intros [= <- <-]; auto|].
    destruct (ChannelV3.New conn _) as [p w1].
    destruct (chan_send p (Listener.inc l)) as [q| |msg] eqn:Hs;
      [|intros [= <- <-]; auto|discriminate].
    unfold chan_send in Hs. destruct (chan_closed _); [discriminate|].
    destruct (Nat.ltb _ _); [|discriminate]. injection Hs as <-.
    destruct (objs w1 !! p) as [[conn' [d|]]|]; [| |discriminate];
      intros [= <- <-]; repeat split; discriminate.
  - intros [= <- <-]. unfold Listener.Accept, chan_recv.
    destruct (buf (Listener.inc l)) as [|p rest] eqn:Hb.
    + destruct (chan_closed _); destruct ctx; try destruct pick_ctx; auto.
    + assert (Hopen : Listener.closed l = true ->
                      forall l0 : Listener.Listener, l0 = l).
      { intros Hcl. apply (inv_drained _ _ HI) in Hcl. congruence. }
      destruct ctx; try destruct pick_ctx; cbn [snd]; auto.
  - destruct (Listener.closed l) eqn:Hcl.
    + rewrite (Listener_Close_closed _ l w Hcl). intros [= <- <-]. auto.
    + unfold Listener.Close. rewrite Hcl. destruct (chan_close _) as [q|] eqn:Hq;
        [|discriminate].
      destruct (Listener.drain _ _ _ _) as [r w1|]; [|discriminate].
      cbn [bind]. intros [= <- <-]. cbn.
      unfold chan_close in Hq. destruct (chan_closed _); [discriminate|].
      injection Hq as <-. repeat split. discriminate.
  - case_decide; [discriminate|].
    destruct (ChannelV3.Close p w); [|discriminate]. intros [= <- <-]. auto.
  - intros [= <- <-]. auto.
  - destruct (ChannelV3.Send T p data w); [|discriminate]. intros [= <- <-]. auto.
  - destruct (ChannelV3.Recv T p w); [|discriminate]. intros [= <- <-]. auto.
Qed.

Lemma run_config acts : forall s s',
  Inv s.1 s.2 -> run acts s = Some s' ->
  capacity (Listener.inc s'.1) = capacity (Listener.inc s.1) /\
  Listener.check s'.1 = Listener.check s.1.
Proof.
  induction acts as [|a rest IH]; intros [l w] s' HI; cbn [run].
  - intros [= <-]. auto.
  - destruct (act a (l, w)) as [[l1 w1]|] eqn:Ha; [|discriminate].
    intros Hrun. destruct (act_config _ _ _ _ _ HI Ha) as (Hc & Hk & _).
    destruct (IH (l1, w1) s' (act_Inv _ _ _ _ _ HI Ha) Hrun) as (Hc' & Hk').
    cbn [fst snd] in *. split; congruence.
Qed.

Lemma reachable_config zero opts l w :
  reachable zero opts (l, w) ->
  capacity (Listener.inc l) = Z.to_nat (Listener.maxPending opts) /\
  Listener.check l = Listener.checkOf opts.
Proof.
  intros [acts Hrun].
  apply (run_config acts (Listener.NewListener zero opts, world0) (l, w));
    [apply Inv_NewListener|exact Hrun].
Qed.

(** ** The admission test *)


(** Whatever the hook's error, a refused request changes neither the
    listener nor the heap, and is never made to wait. *)
Lemma ServeHTTP_hook_frame req l w code e :
  Listener.check l req = (code, Some e) ->
  (Listener.ServeHTTP req l w).1.2 = l /\
  objs (Listener.ServeHTTP req l w).2 = objs w /\
  signals (Listener.ServeHTTP req l w).2 = signals w /\
  (forall d, (Listener.ServeHTTP req l w).1.1 <> Listener.AwaitsDone d) /\
  (forall ev, ev ∈ trace (Listener.ServeHTTP req l w).2 ->
     ev ∈ trace w \/ exists msg st, ev = EvHttpError req msg st).
Proof.
  intros Hc.
  destruct (ServeHTTP_hook_cases req l w code e Hc)
    as [(_ & msg & _ & ->)|(_ & m & ->)]; cbn [fst snd emit objs signals trace];
    repeat split; try discriminate; intros ev Hev; auto.
  apply elem_of_app in Hev as [Hev|Hev]; [auto|].
  apply list_elem_of_singleton in Hev. right. eauto.
Qed.




(** ** Admission under the mutex *)

Lemma ServeHTTP_rejects_when_closed req l w code :
  Listener.check l req = (code, None) ->
  Listener.closed l = true ->
  Listener.ServeHTTP req l w =
    (Listener.Returns, l,
     emit (EvHttpError req "listener is closed" StatusInternalServerError) w).
Proof. intros Hc Hcl. unfold Listener.ServeHTTP. now rewrite Hc, Hcl. Qed.

Lemma ServeHTTP_rejects_when_full req l w code :
  Listener.check l req = (code, None) ->
  Listener.closed l = false ->
  length (buf (Listener.inc l)) = capacity (Listener.inc l) ->
  Listener.ServeHTTP req l w =
    (Listener.Returns, l,
     emit (EvHttpError req "connection queue is full" StatusServiceUnavailable) w).
Proof.
  intros Hc Hcl Hlen. unfold Listener.ServeHTTP. rewrite Hc, Hcl.
  now rewrite (proj2 (Nat.eqb_eq _ _) Hlen).
Qed.

(** [Accept] receives without the mutex.  A receive that falls between the
    handler's length test and its send leaves the queue open and no longer,
    so the send still proceeds. *)
Lemma send_proceeds_after_receive (q q' : Chan) (r : option nat) (x : nat) :
  chan_closed q = false ->
  (length (buf q) < capacity q)%nat ->
  chan_recv q = Some (r, q') ->
  exists q'', chan_send x q' = SendProceeds q''.
Proof.
  intros Hopen Hlen. unfold chan_recv, chan_send.
  destruct (buf q) as [|y rest] eqn:Hb.
  - rewrite Hopen. discriminate.
  - intros [= <- <-]. cbn [chan_closed buf capacity]. rewrite Hopen.
    cbn [length] in Hlen.
    destruct (Nat.ltb_spec (length rest) (capacity q)); [eauto|lia].
Qed.

(** C4.  In every state of a listener made with options [opts], the queue's
    capacity is [MaxPending] when that is positive and 1 otherwise; a handler
    invocation never blocks in its send, and from the mutex on it does not
    panic either (the one panic of the handler is before, for a refusal by
    the hook that it cannot answer); and when the request passes the hook
    but the listener is closed, or the queue holds capacity-many channels,
    the handler answers at once (500 "listener is closed", 503 "connection
    queue is full") and returns, leaving the queue and the heap as they
    were.  A receive by [Accept] between the length test and the send does
    not make the send block either. *)
Theorem ServeHTTP_never_blocks
  (zero : WsUpgrader) (opts : option Listener.ListenOptions)
  (l : Listener.Listener) (w : World) (req : nat) :
  reachable zero opts (l, w) ->
  let '(r, l', w') := Listener.ServeHTTP req l w in
  capacity (Listener.inc l) =
    Z.to_nat (match opts with
              | Some o => if (0 <? Listener.MaxPending o)%Z
                          then Listener.MaxPending o else 1
              | None => 1
              end) /\
  r <> Listener.BlocksOnSend /\
  (forall msg, r = Listener.HandlerPanics msg ->
     Listener.hook_answer_ok (Listener.check l req) = false) /\
  (forall code, Listener.check l req = (code, None) ->
     Listener.closed l = true ->
     r = Listener.Returns /\ l' = l /\
     w' = emit (EvHttpError req "listener is closed" StatusInternalServerError) w) /\
  (forall code, Listener.check l req = (code, None) ->
     Listener.closed l = false ->
     length (buf (Listener.inc l)) = capacity (Listener.inc l) ->
     r = Listener.Returns /\ l' = l /\
     w' = emit (EvHttpError req "connection queue is full" StatusServiceUnavailable) w) /\
  (forall x q' p,
     Listener.closed l = false ->
     length (buf (Listener.inc l)) <> capacity (Listener.inc l) ->
     chan_recv (Listener.inc l) = Some (x, q') ->
     exists q'', chan_send p q' = SendProceeds q'').
Proof.
  intros Hr. pose proof (reachable_Inv _ _ _ _ Hr) as HI.
  destruct (reachable_config _ _ _ _ Hr) as (Hcap & _).
  pose proof (ServeHTTP_Inv req l w HI) as (_ & Hnb & Hnp).
  destruct (Listener.ServeHTTP req l w) as [[r l'] w'] eqn:Hs.
  cbn [fst snd] in Hnb, Hnp.
  split; [|split; [exact Hnb|split; [exact Hnp|split; [|split]]]].
  - rewrite Hcap. f_equal. destruct opts as [o|]; cbn [Listener.maxPending];
      [|reflexivity].
    destruct (Z.leb_spec (Listener.MaxPending o) 0), (Z.ltb_spec 0 (Listener.MaxPending o));
      lia.
  - intros code Hc Hcl.
    rewrite (ServeHTTP_rejects_when_closed req l w code Hc Hcl) in Hs.
    injection Hs as <- <- <-. auto.
  - intros code Hc Hcl Hlen.
    rewrite (ServeHTTP_rejects_when_full req l w code Hc Hcl Hlen) in Hs.
    injection Hs as <- <- <-. auto.
  - intros x q' p Hcl Hlen Hrecv.
    apply (send_proceeds_after_receive (Listener.inc l) q' x p); [| |exact Hrecv].
    + now rewrite (inv_flag _ _ HI).
    + pose proof (inv_room _ _ HI). lia.
Qed.

(** The package's own test: with default options the first connection takes
    the one slot, and the second is answered 503. *)
Lemma ServeHTTP_never_blocks_witness :
  let '(l, w) := state_after [ActServe 1%nat] in
  length (buf (Listener.inc l)) = 1%nat /\
  Listener.ServeHTTP 2%nat l w =
    (Listener.Returns, l,
     emit (EvHttpError 2%nat "connection queue is full" StatusServiceUnavailable) w).
Proof.
  pose proof (ServeHTTP_never_blocks upgrading None
                (state_after [ActServe 1%nat]).1 (state_after [ActServe 1%nat]).2
                2%nat) as H.
  destruct (state_after [ActServe 1%nat]) as [l w] eqn:Hst. cbn [fst snd] in H.
  assert (Hr : reachable upgrading None (l, w)).
  { exists [ActServe 1%nat]. rewrite <- Hst. vm_compute. reflexivity. }
  specialize (H Hr).
  assert (Hl : length (buf (Listener.inc l)) = 1%nat).
  { apply (f_equal (fun s => length (buf (Listener.inc s.1)))) in Hst.
    cbn [fst] in Hst. rewrite <- Hst. vm_compute. reflexivity. }
  split; [exact Hl|].
  destruct (Listener.ServeHTTP 2%nat l w) as [[r l'] w'].
  destruct H as (Hcap & _ & _ & _ & Hfull & _).
  destruct (Hfull 0) as (-> & -> & ->).
  - apply (f_equal (fun s => Listener.check s.1 2%nat)) in Hst.
    cbn [fst] in Hst. rewrite <- Hst. vm_compute. reflexivity.
  - apply (f_equal (fun s => Listener.closed s.1)) in Hst.
    cbn [fst] in Hst. rewrite <- Hst. vm_compute. reflexivity.
  - rewrite Hl, Hcap. reflexivity.
  - reflexivity.
Defined.

(** ** Listener.Close *)

(** No request is admitted by a closed listener: the handler is not made
    to wait, and neither the listener nor the heap changes.  Unless the hook
    has reported an error that the handler cannot answer, it returns. *)
Lemma ServeHTTP_closed req l w :
  Listener.closed l = true ->
  (Listener.ServeHTTP req l w).1.2 = l /\
  (forall d, (Listener.ServeHTTP req l w).1.1 <> Listener.AwaitsDone d) /\
  (Listener.hook_answer_ok (Listener.check l req) = true ->
   (Listener.ServeHTTP req l w).1.1 = Listener.Returns) /\
  objs (Listener.ServeHTTP req l w).2 = objs w /\
  signals (Listener.ServeHTTP req l w).2 = signals w.
Proof.
  intros Hcl. destruct (Listener.check l req) as [code [e|]] eqn:Hc.
  - destruct (ServeHTTP_hook_cases req l w code e Hc)
      as [(_ & msg & _ & ->)|(Hbad & m & ->)]; cbn [fst snd];
      repeat split; try discriminate. congruence.
  - rewrite (ServeHTTP_rejects_when_closed req l w code Hc Hcl).
    repeat split; discriminate.
Qed.

(** C5, as the code has it, for the listener that fills its queue under
    the mutex.  The first [Close] leaves the listener closed with an empty,
    closed queue.  Whatever the [Close] of the channels does, it is called
    on every channel that was queued, oldest first, and the listener's
    [Close] returns the first error of those calls.  With the [Close] that
    goes with the handler's [New] every call returns nil, so the listener's
    [Close] returns nil, and every queued channel has been closed: its done
    signal, open before, has fired and its close handshake was handed to the
    transport.  From then on no handler admits a connection, no action
    reopens the listener, and every [Close] returns the listener-closed
    error and changes nothing. *)
Theorem Listener_Close_once
  (zero : WsUpgrader) (opts : option Listener.ListenOptions)
  (l : Listener.Listener) (w : World) :
  reachable zero opts (l, w) ->
  Listener.closed l = false ->
  exists l' w',
    Listener.Close ChannelV3.Close l w = Ret (None, l') w' /\
    Listener.closed l' = true /\
    Listener.inc l' = mkChan [] (capacity (Listener.inc l)) true /\
    (forall p, p ∈ buf (Listener.inc l) ->
       exists conn d,
         objs w !! p = Some (mkChannel conn (Some d)) /\
         signals w !! d = Some false /\
         signals w' !! d = Some true /\
         objs w' !! p = Some (mkChannel conn None) /\
         EvSignal d ∈ trace w' /\
         EvGoClose conn StatusNormalClosure "bye" ∈ trace w') /\
    (forall Channel_Close : nat -> World -> outcome (option error),
       Listener.Close Channel_Close l w =
         bind (close_all Channel_Close (buf (Listener.inc l)) w)
              (fun rs w1 => Ret (first_error rs, l') w1)) /\
    (forall req w2,
       (Listener.ServeHTTP req l' w2).1.2 = l' /\
       (forall d, (Listener.ServeHTTP req l' w2).1.1 <> Listener.AwaitsDone d) /\
       (Listener.hook_answer_ok (Listener.check l' req) = true ->
        (Listener.ServeHTTP req l' w2).1.1 = Listener.Returns) /\
       objs (Listener.ServeHTTP req l' w2).2 = objs w2) /\
    (forall a l2 w2, act a (l', w') = Some (l2, w2) -> l2 = l') /\
    (forall (Channel_Close : nat -> World -> outcome (option error)) w2,
       Listener.Close Channel_Close l' w2 = Ret (Some ErrListenerClosed, l') w2).
Proof.
  intros Hr Hcl. pose proof (reachable_Inv _ _ _ _ Hr) as HI.
  destruct (Listener_Close_open l w HI Hcl) as (w' & Hrun & HI' & _ & _ & Hall).
  eexists. exists w'. split; [exact Hrun|].
  split; [reflexivity|]. split; [reflexivity|]. split; [exact Hall|].
  split; [|split; [|split]].
  - intros Channel_Close. apply Listener_Close_drains; [exact Hcl|].
    now rewrite (inv_flag _ _ HI).
  - intros req w2.
    destruct (ServeHTTP_closed req
                (Listener.mkListener (Listener.u l) (Listener.hdr l) (Listener.check l)
                   (mkChan [] (capacity (Listener.inc l)) true) true) w2 eq_refl)
      as (H1 & H2 & H3 & H4 & _).
    repeat split; assumption.
  - intros a l2 w2 Ha. destruct (act_config _ _ _ _ _ HI' Ha) as (_ & _ & H).
    now apply H.
  - intros Channel_Close w2. now apply Listener_Close_closed.
Qed.

(** A listener closed while one connection is still queued. *)
Lemma Listener_Close_once_witness :
  let '(l, w) := state_after [ActServe 1%nat] in
  exists l' w',
    buf (Listener.inc l) = [O] /\
    Listener.Close ChannelV3.Close l w = Ret (None, l') w' /\
    Listener.closed l' = true /\
    signals w !! O = Some false /\
    signals w' !! O = Some true /\
    EvGoClose 1%nat StatusNormalClosure "bye" ∈ trace w' /\
    Listener.Close ChannelV3.Close l' w' = Ret (Some ErrListenerClosed, l') w'.
Proof.
  pose proof (Listener_Close_once upgrading None
                (state_after [ActServe 1%nat]).1 (state_after [ActServe 1%nat]).2) as H.
  destruct (state_after [ActServe 1%nat]) as [l w] eqn:Hst. cbn [fst snd] in H.
  assert (Hr : reachable upgrading None (l, w)).
  { exists [ActServe 1%nat]. rewrite <- Hst. vm_compute. reflexivity. }
  assert (Hcl : Listener.closed l = false).
  { apply (f_equal (fun s => Listener.closed s.1)) in Hst.
    cbn [fst] in Hst. rewrite <- Hst. vm_compute. reflexivity. }
  assert (Hb : buf (Listener.inc l) = [O]).
  { apply (f_equal (fun s => buf (Listener.inc s.1))) in Hst.
    cbn [fst] in Hst. rewrite <- Hst. vm_compute. reflexivity. }
  assert (Ho : objs w !! O = Some (mkChannel 1 (Some O))).
  { apply (f_equal (fun s => objs s.2 !! O)) in Hst.
    cbn [snd] in Hst. rewrite <- Hst. vm_compute. reflexivity. }
  destruct (H Hr Hcl) as (l' & w' & Hrun & Hcl' & _ & Hall & _ & _ & _ & Hagain).
  exists l', w'. split; [exact Hb|]. split; [exact Hrun|]. split; [exact Hcl'|].
  destruct (Hall O) as (conn & d & Hobj & Hs0 & Hs1 & _ & _ & Hev).
  { rewrite Hb. apply list_elem_of_here. }
  rewrite Ho in Hobj. injection Hobj as <- <-.
  split; [exact Hs0|]. split; [exact Hs1|]. split; [exact Hev|]. apply Hagain.
Defined.

(** ** Accept *)

(** C6, as the code has it.  While the cancellation signal has not fired,
    [Accept] returns the oldest queued channel when there is one, the
    listener-closed error when the listener has closed, and blocks when the
    queue is empty and open.  When the signal has fired and the queue is
    empty and open, it returns the context's error, which is not the
    listener-closed error.  When the signal has fired and the queue can be
    received from as well, either ready case may be taken: the context's
    error, or what the queue gives. *)
Theorem Accept_outcomes
  (zero : WsUpgrader) (opts : option Listener.ListenOptions)
  (l : Listener.Listener) (w : World) (ctx : Ctx) (pick_ctx : bool) :
  reachable zero opts (l, w) ->
  (forall p rest, buf (Listener.inc l) = p :: rest -> not_fired ctx ->
     Listener.Accept ctx pick_ctx l =
       (Listener.AcceptsChannel p,
        Listener.set_inc l (mkChan rest (capacity (Listener.inc l)) false))) /\
  (Listener.closed l = true -> not_fired ctx ->
     Listener.Accept ctx pick_ctx l = (Listener.AcceptsError ErrListenerClosed, l)) /\
  (buf (Listener.inc l) = [] -> Listener.closed l = false -> not_fired ctx ->
     Listener.Accept ctx pick_ctx l = (Listener.AcceptBlocks, l)) /\
  (forall e, ctx = Fired e ->
     buf (Listener.inc l) = [] -> Listener.closed l = false ->
     Listener.Accept ctx pick_ctx l = (Listener.AcceptsError (ctx_err e), l)) /\
  (forall e, ctx = Fired e ->
     buf (Listener.inc l) <> [] \/ Listener.closed l = true ->
     Listener.Accept ctx true l = (Listener.AcceptsError (ctx_err e), l) /\
     Listener.Accept ctx false l = Listener.Accept Background false l) /\
  (forall e, ctx_err e <> ErrListenerClosed).
Proof.
  intros Hr. pose proof (reachable_Inv _ _ _ _ Hr) as HI.
  pose proof (inv_flag _ _ HI) as Hflag.
  pose proof (inv_drained _ _ HI) as Hdr.
  unfold Listener.Accept, chan_recv.
  split; [|split; [|split; [|split; [|split]]]].
  - intros p rest Hb Hnf. rewrite Hb.
    assert (Hopen : chan_closed (Listener.inc l) = false).
    { rewrite Hflag. destruct (Listener.closed l); [|reflexivity].
      rewrite Hdr in Hb by reflexivity. discriminate. }
    rewrite Hopen. destruct ctx; [reflexivity|reflexivity|contradiction].
  - intros Hcl Hnf. rewrite (Hdr Hcl), Hflag, Hcl.
    destruct ctx; [reflexivity|reflexivity|contradiction].
  - intros Hb Hcl Hnf. rewrite Hb, Hflag, Hcl.
    destruct ctx; [reflexivity|reflexivity|contradiction].
  - intros e -> Hb Hcl. rewrite Hb, Hflag, Hcl. reflexivity.
  - intros e -> H. destruct (buf (Listener.inc l)) as [|p rest] eqn:Hb.
    + destruct H as [H|H]; [contradiction|]. rewrite Hflag, H. auto.
    + auto.
  - intros []; discriminate.
Qed.

(** A pending context against the one queued connection, which is handed
    out. *)
Lemma Accept_outcomes_witness :
  let '(l, w) := state_after [ActServe 1%nat] in
  Listener.Accept Pending true l =
    (Listener.AcceptsChannel O,
     Listener.set_inc l (mkChan [] (capacity (Listener.inc l)) false)).
Proof.
  pose proof (Accept_outcomes upgrading None
                (state_after [ActServe 1%nat]).1 (state_after [ActServe 1%nat]).2
                Pending true) as H.
  destruct (state_after [ActServe 1%nat]) as [l w] eqn:Hst. cbn [fst snd] in H.
  assert (Hr : reachable upgrading None (l, w)).
  { exists [ActServe 1%nat]. rewrite <- Hst. vm_compute. reflexivity. }
  destruct (H Hr) as (H1 & _). apply H1; [|exact I].
  apply (f_equal (fun s => buf (Listener.inc s.1))) in Hst.
  cbn [fst] in Hst. rewrite <- Hst. vm_compute. reflexivity.
Defined.

(** C6, counterexample: with the signal fired, [Accept] may return
    the context's error although a channel is queued, and although the
    listener has closed. *)
Lemma Accept_cancelled_despite_queue :
  (let '(l, w) := state_after [ActServe 1%nat] in
   buf (Listener.inc l) = [O] /\
   Listener.Accept (Fired ctxCanceled) true l = (Listener.AcceptsError Canceled, l)) /\
  (let '(l, w) := state_after [ActClose] in
   Listener.closed l = true /\
   Listener.Accept (Fired ctxCanceled) true l = (Listener.AcceptsError Canceled, l) /\
   Canceled <> ErrListenerClosed).
Proof.
  split.
  - vm_compute. split; reflexivity.
  - vm_compute. repeat split. discriminate.
Qed.

(** ** The listener with a wait group *)

Module ListenerWGFacts.
Import ListenerWG.

Lemma live_app cs x : live (cs ++ [x]) = (live cs + live [x])%nat.
Proof.
  induction cs as [|[[] b] rest IH]; cbn [app live]; rewrite ?IH; reflexivity.
Qed.

Lemma live_insert cs : forall d pc b pc' b',
  cs !! d = Some (pc, b) ->
  (live (<[d := (pc', b')]> cs) + live [(pc, b)] = live cs + live [(pc', b')])%nat.
Proof.
  induction cs as [|[pc0 b0] rest IH]; intros [|d] pc b pc' b' H; try discriminate.
  - cbn in H. injection H as -> ->. cbn.
    destruct pc, pc'; cbn; lia.
  - cbn in H. specialize (IH d pc b pc' b' H).
    change (<[S d := (pc', b')]> ((pc0, b0) :: rest))
      with ((pc0, b0) :: <[d := (pc', b')]> rest).
    destruct pc0, pc, pc'; cbn [live] in *; lia.
Qed.


Lemma WG_Inv_NewListener : Inv NewListener.
Proof.
  constructor; cbn; try reflexivity; intros; discriminate.
Qed.

Lemma Inv_crash s : Inv s -> Inv (crash s).
Proof. intros []. constructor; assumption. Qed.

Lemma Inv_set_handler i pc s :
  Inv s -> (forall d, pc = H3 d -> (d < length (conns s))%nat) ->
  Inv (set_handler i pc s).
Proof.
  intros [] Hpc. constructor; cbn [set_handler wg conns closers closed handlers];
    try assumption.
  intros j d Hj.
  apply list_lookup_insert_Some in Hj as [(_ & Heq & _)|(Hne & Hj)];
    [now apply Hpc|eauto].
Qed.

Lemma Inv_set_closer k pc s :
  Inv s ->
  (past_body pc = true -> closed s = true) ->
  (waited pc = true -> wg s = O) ->
  Inv (set_closer k pc s).
Proof.
  intros [] Hp Hw. constructor; cbn [set_closer wg conns closers closed handlers];
    try assumption.
  - intros j pc' Hj Hpb.
    apply list_lookup_insert_Some in Hj as [(_ & <- & _)|(Hne & Hj)]; eauto.
  - intros j pc' Hj Hpb.
    apply list_lookup_insert_Some in Hj as [(_ & <- & _)|(Hne & Hj)]; eauto.
Qed.

Lemma Inv_set_queue q s : Inv s -> Inv (set_queue q s).
Proof. intros []. constructor; assumption. Qed.

Lemma Inv_set_mu b s : Inv s -> Inv (set_mu b s).
Proof. intros []. constructor; assumption. Qed.

(** A connection's entry changes without a goroutine finishing. *)
Lemma Inv_set_conn d pc b pc' b' s :
  Inv s -> conns s !! d = Some (pc, b) ->
  live [(pc', b')] = live [(pc, b)] ->
  (pc' = GDone -> b' = true) ->
  Inv (set_conn d (pc', b') s).
Proof.
  intros [] Hd Hl Hb. constructor; cbn [set_conn wg conns closers closed handlers];
    try assumption.
  - pose proof (live_insert _ _ _ _ pc' b' Hd). lia.
  - intros j b0 Hj.
    apply list_lookup_insert_Some in Hj as [(_ & Heq & _)|(Hne & Hj)]; eauto.
    injection Heq as -> ->. now apply Hb.
  - intros i j Hi. rewrite length_insert. eauto.
Qed.

Lemma Inv_signal_done d notified s : Inv s -> Inv (signal_done d notified s).
Proof.
  intros HI. unfold signal_done. destruct notified; [|exact HI].
  destruct (conns s !! d) as [[pc [|]]|] eqn:Hd; try now apply Inv_crash.
  apply (Inv_set_conn d pc false pc true s HI Hd).
  - destruct pc; reflexivity.
  - reflexivity.
Qed.

Lemma step_Inv a s s' : Inv s -> step a s = Some s' -> Inv s'.
Proof.
  intros HI. unfold step. destruct (crashed s); [discriminate|].
  destruct a as [|i pass|i ok|i|i|d|d| |d notified| |k|k|k notified|k|k].
  - intros [= <-]. destruct HI. constructor; cbn; try assumption.
    intros i d Hi. apply lookup_app_Some in Hi as [Hi|[_ Hi]]; [eauto|].
    destruct (i - length (handlers s))%nat as [|[|]]; discriminate.
  - destruct (handlers s !! i) as [[]|]; try discriminate. intros [= <-].
    apply Inv_set_handler; [assumption|]. destruct pass; discriminate.
  - destruct (handlers s !! i) as [[]|]; try discriminate. intros [= <-].
    apply Inv_set_handler; [assumption|]. destruct ok; discriminate.
  - destruct (handlers s !! i) as [[]|]; try discriminate.
    destruct (mu s); [discriminate|]. destruct (closed s) eqn:Hcl.
    + intros [= <-]. apply Inv_set_handler; [assumption|]. discriminate.
    + intros [= <-]. destruct HI. constructor; cbn.
      * rewrite live_app. cbn [live]. lia.
      * intros d b Hd. apply lookup_app_Some in Hd as [Hd|[_ Hd]]; [eauto|].
        destruct (d - length (conns s))%nat as [|[|]]; discriminate.
      * intros k pc Hk Hp. specialize (inv_past0 k pc Hk Hp). congruence.
      * intros k pc Hk Hw.
        assert (past_body pc = true) by (destruct pc; discriminate || reflexivity).
        specialize (inv_past0 k pc Hk H). congruence.
      * intros j d Hj. rewrite length_app. cbn [length].
        apply list_lookup_insert_Some in Hj as [(_ & Heq & _)|(Hne & Hj)].
        -- injection Heq as <-. lia.
        -- specialize (inv_handler0 j d Hj). lia.
  - destruct (handlers s !! i) as [[]|]; try discriminate.
    destruct (conns s !! d) as [[pc [|]]|]; try discriminate. intros [= <-].
    apply Inv_set_handler; [assumption|]. discriminate.
  - destruct (conns s !! d) as [[[] sg]|] eqn:Hd; try discriminate.
    destruct (chan_send d (inc s)); try discriminate.
    + intros [= <-]. apply Inv_set_queue.
      apply (Inv_set_conn d G0 sg G1 sg s HI Hd); [reflexivity|discriminate].
    + intros [= <-]. now apply Inv_crash.
  - destruct (conns s !! d) as [[[] [|]]|] eqn:Hd; try discriminate.
    destruct (wg s) as [|n] eqn:Hwg; intros [= <-]; [now apply Inv_crash|].
    destruct HI. constructor; cbn.
    + pose proof (live_insert _ _ _ _ GDone true Hd). cbn [live] in H. lia.
    + intros j b Hj.
      apply list_lookup_insert_Some in Hj as [(_ & Heq & _)|(Hne & Hj)]; eauto.
      now injection Heq as <-.
    + assumption.
    + intros k pc Hk Hw. specialize (inv_waited0 k pc Hk Hw). congruence.
    + intros i j Hi. rewrite length_insert. eauto.
  - destruct (chan_recv (inc s)) as [[[d|] q]|]; try discriminate.
    intros [= <-]. destruct HI. constructor; assumption.
  - case_decide; [|discriminate]. intros [= <-]. now apply Inv_signal_done.
  - intros [= <-]. destruct HI. constructor; cbn; try assumption.
    + intros k pc Hk. apply lookup_app_Some in Hk as [Hk|[_ Hk]]; [eauto|].
      destruct (k - length (closers s))%nat as [|[|]]; [|discriminate..].
      injection Hk as <-. discriminate.
    + intros k pc Hk. apply lookup_app_Some in Hk as [Hk|[_ Hk]]; [eauto|].
      destruct (k - length (closers s))%nat as [|[|]]; [|discriminate..].
      injection Hk as <-. discriminate.
  - destruct (closers s !! k) as [[]|]; try discriminate.
    destruct (mu s); [discriminate|]. intros [= <-].
    apply Inv_set_mu, Inv_set_closer; [assumption|discriminate|discriminate].
  - destruct (closers s !! k) as [[]|]; try discriminate.
    destruct (closed s) eqn:Hcl.
    + intros [= <-]. apply Inv_set_closer; [assumption|auto|discriminate].
    + destruct (chan_close (inc s)); intros [= <-]; [|now apply Inv_crash].
      apply Inv_set_queue, Inv_set_closer; [assumption|discriminate|discriminate].
  - destruct (closers s !! k) as [[]|]; try discriminate.
    destruct (buf (inc s)) as [|d rest].
    + destruct (chan_closed (inc s)); [|discriminate]. intros [= <-].
      destruct HI. constructor; cbn; try assumption.
      * reflexivity.
      * intros j pc Hj Hw.
        apply list_lookup_insert_Some in Hj as [(_ & <- & _)|(Hne & Hj)];
          [discriminate|eauto].
    + intros [= <-]. now apply Inv_signal_done, Inv_set_queue.
  - destruct (closers s !! k) as [[]|] eqn:Hk; try discriminate.
    destruct (wg s) eqn:Hwg; [|discriminate]. intros [= <-].
    apply Inv_set_closer; [assumption| |auto].
    intros _. apply (inv_past s HI k (C2 r) Hk). reflexivity.
  - destruct (closers s !! k) as [[]|] eqn:Hk; try discriminate. intros [= <-].
    apply Inv_set_mu, Inv_set_closer; [assumption| |].
    + intros _. apply (inv_past s HI k (C3 r) Hk). reflexivity.
    + intros _. apply (inv_waited s HI k (C3 r) Hk). reflexivity.
Qed.

Lemma exec_Inv sched : forall s s', Inv s -> exec sched s = Some s' -> Inv s'.
Proof.
  induction sched as [|a rest IH]; intros s s' HI; cbn [exec].
  - now intros [= <-].
  - destruct (step a s) as [s1|] eqn:Ha; [|discriminate].
    apply IH. eapply step_Inv; eauto.
Qed.

Lemma WG_reachable_Inv s : reachable s -> Inv s.
Proof.
  intros [sched H]. apply (exec_Inv sched NewListener s WG_Inv_NewListener H).
Qed.

End ListenerWGFacts.




(** * Further properties *)

(** ** The queue of the listener *)

(** X1.  The queue never holds more channels than its capacity, which is
    fixed at [MaxPending] when that is positive and at 1 otherwise; the
    queue is closed exactly when the listener is, and then it is empty. *)
Theorem queue_bounded_by_MaxPending
  (zero : WsUpgrader) (opts : option Listener.ListenOptions)
  (l : Listener.Listener) (w : World) :
  reachable zero opts (l, w) ->
  (length (buf (Listener.inc l)) <= capacity (Listener.inc l))%nat /\
  capacity (Listener.inc l) = Z.to_nat (Listener.maxPending opts) /\
  (1 <= capacity (Listener.inc l))%nat /\
  chan_closed (Listener.inc l) = Listener.closed l /\
  (Listener.closed l = true -> buf (Listener.inc l) = []).
Proof.
  intros Hr. pose proof (reachable_Inv _ _ _ _ Hr) as HI.
  destruct (reachable_config _ _ _ _ Hr) as (Hcap & _).
  split; [apply (inv_room _ _ HI)|]. split; [exact Hcap|].
  split; [apply (inv_cap _ _ HI)|]. split; [apply (inv_flag _ _ HI)|].
  apply (inv_drained _ _ HI).
Qed.

(** Three requests against the default listener: one is queued. *)
Lemma queue_bounded_by_MaxPending_witness :
  length (buf (Listener.inc (state_after [ActServe 1; ActServe 2; ActServe 3]%nat).1))
    = 1%nat /\
  (length (buf (Listener.inc (state_after [ActServe 1; ActServe 2; ActServe 3]%nat).1))
   <= capacity (Listener.inc (state_after [ActServe 1; ActServe 2; ActServe 3]%nat).1))%nat.
Proof.
  split; [vm_compute; reflexivity|].
  destruct (state_after [ActServe 1; ActServe 2; ActServe 3]%nat) as [l w] eqn:Hst.
  assert (Hr : reachable upgrading None (l, w)).
  { exists [ActServe 1; ActServe 2; ActServe 3]%nat. rewrite <- Hst.
    vm_compute. reflexivity. }
  apply (queue_bounded_by_MaxPending upgrading None l w Hr).
Defined.

(** X2.  The queue holds each channel once; every queued channel has its
    struct on the heap with a done signal that is still open and that no
    other struct shares. *)
Theorem queued_channels_are_live
  (zero : WsUpgrader) (opts : option Listener.ListenOptions)
  (l : Listener.Listener) (w : World) :
  reachable zero opts (l, w) ->
  NoDup (buf (Listener.inc l)) /\
  (forall p, p ∈ buf (Listener.inc l) ->
     exists conn d,
       objs w !! p = Some (mkChannel conn (Some d)) /\
       signals w !! d = Some false /\
       await (Some d) w = false /\
       (forall q ch, objs w !! q = Some ch -> done ch = Some d -> q = p)).
Proof.
  intros Hr. pose proof (reachable_Inv _ _ _ _ Hr) as HI.
  split; [apply (inv_nodup _ _ HI)|].
  intros p Hp. destruct (inv_queued _ _ HI p Hp) as (conn & d & Hobj & Hsig).
  exists conn, d. split; [exact Hobj|]. split; [exact Hsig|].
  split; [unfold await; now rewrite Hsig|].
  intros q ch Hq Hd. apply (inv_own _ _ HI q p ch _ d Hq Hobj Hd). reflexivity.
Qed.

Lemma queued_channels_are_live_witness :
  NoDup (buf (Listener.inc (state_after [ActServe 1%nat]).1)) /\
  buf (Listener.inc (state_after [ActServe 1%nat]).1) = [O].
Proof.
  split; [|vm_compute; reflexivity].
  destruct (state_after [ActServe 1%nat]) as [l w] eqn:Hst.
  assert (Hr : reachable upgrading None (l, w)).
  { exists [ActServe 1%nat]. rewrite <- Hst. vm_compute. reflexivity. }
  apply (queued_channels_are_live upgrading None l w Hr).
Defined.

(** X3.  [Accept] takes at most the oldest channel off the queue and touches
    nothing else: when it returns an error or blocks, the listener is as it
    was, so a cancelled [Accept] loses no connection. *)
Theorem Accept_takes_only_the_head (ctx : Ctx) (pick_ctx : bool) (l : Listener.Listener) :
  match Listener.Accept ctx pick_ctx l with
  | (Listener.AcceptsChannel p, l') =>
      buf (Listener.inc l) = p :: buf (Listener.inc l') /\
      capacity (Listener.inc l') = capacity (Listener.inc l) /\
      chan_closed (Listener.inc l') = chan_closed (Listener.inc l) /\
      Listener.closed l' = Listener.closed l /\
      Listener.check l' = Listener.check l
  | (_, l') => l' = l
  end.
Proof.
  unfold Listener.Accept, chan_recv.
  destruct (buf (Listener.inc l)) as [|p rest] eqn:Hb.
  - destruct (chan_closed (Listener.inc l)); destruct ctx; try destruct pick_ctx;
      reflexivity.
  - destruct ctx; try destruct pick_ctx; cbn; auto.
Qed.

Lemma accepts_drains_in_order (ctx : Ctx) (l : Listener.Listener) :
  forall xs, buf (Listener.inc l) = xs ->
    accepts ctx (length xs) l =
      (map Listener.AcceptsChannel xs,
       Listener.set_inc l (mkChan [] (capacity (Listener.inc l))
                                  (chan_closed (Listener.inc l)))).
Proof.
  intros xs. revert l. induction xs as [|x rest IH]; intros l Hb.
  - cbn [accepts length map]. destruct l as [u h k [b cp cl] c0]. cbn in *.
    now subst.
  - cbn [accepts length map].
    assert (Ha : Listener.Accept ctx false l =
                 (Listener.AcceptsChannel x,
                  Listener.set_inc l (mkChan rest (capacity (Listener.inc l))
                                             (chan_closed (Listener.inc l))))).
    { unfold Listener.Accept, chan_recv. rewrite Hb. destruct ctx; reflexivity. }
    rewrite Ha.
    rewrite (IH (Listener.set_inc l (mkChan rest (capacity (Listener.inc l))
                                            (chan_closed (Listener.inc l)))) eq_refl).
    reflexivity.
Qed.

(** X4.  First in, first out: an admitted channel is a new struct that goes
    to the back of the queue, and successive [Accept] calls hand out the
    queued channels oldest first, the new one last. *)
Theorem Accept_is_first_in_first_out
  (l : Listener.Listener) (w : World) (req : nat) (ctx : Ctx)
  (l' : Listener.Listener) (w' : World) (d : nat) :
  Listener.ServeHTTP req l w = (Listener.AwaitsDone d, l', w') ->
  exists p,
    objs w !! p = None /\
    objs w' !! p = Some (mkChannel (ws_upgrade (Listener.u l) (trace w) req
                                               (Listener.hdr l)).1 (Some d)) /\
    buf (Listener.inc l') = buf (Listener.inc l) ++ [p] /\
    (accepts ctx (S (length (buf (Listener.inc l)))) l').1
      = map Listener.AcceptsChannel (buf (Listener.inc l) ++ [p]).
Proof.
  intros Hs. exists (fresh_key (objs w)). split; [apply fresh_None|].
  assert (Hb : objs w' !! fresh_key (objs w)
               = Some (mkChannel (ws_upgrade (Listener.u l) (trace w) req
                                             (Listener.hdr l)).1 (Some d)) /\
               buf (Listener.inc l') = buf (Listener.inc l) ++ [fresh_key (objs w)]).
  { revert Hs. destruct (Listener.check l req) as [code [e|]] eqn:Hc.
    { destruct (ServeHTTP_hook_cases req l w code e Hc)
        as [(_ & msg & _ & ->)|(_ & m & ->)]; discriminate. }
    unfold Listener.ServeHTTP. rewrite Hc.
    destruct (Listener.closed l); [rewrite http_Error_500; discriminate|].
    destruct (Nat.eqb _ _); [rewrite http_Error_503; discriminate|].
    destruct (ws_upgrade _ _ _ _) as [conn [e|]]; [discriminate|].
    rewrite New_V3_spec. unfold chan_send.
    destruct (chan_closed _); [discriminate|].
    destruct (Nat.ltb _ _); [|discriminate].
    cbn [objs snd fst emit]. rewrite lookup_insert_eq. cbn [done].
    intros [= <- <- <-]. cbn [Listener.set_inc Listener.inc buf objs].
    rewrite lookup_insert_eq. split; reflexivity. }
  destruct Hb as [Ho Hb]. split; [exact Ho|]. split; [exact Hb|].
  replace (S (length (buf (Listener.inc l))))
    with (length (buf (Listener.inc l) ++ [fresh_key (objs w)]))
    by (rewrite length_app; cbn; lia).
  now rewrite (accepts_drains_in_order ctx l' _ Hb).
Qed.

(** Two slots, two connections: they are accepted in the order they came. *)
Lemma Accept_is_first_in_first_out_witness :
  let o := Listener.mkListenOptions 2 None None upgrading in
  let l0 := Listener.NewListener upgrading (Some o) in
  let '(_, l1, w1) := Listener.ServeHTTP 5%nat l0 world0 in
  let '(_, l2, w2) := Listener.ServeHTTP 6%nat l1 w1 in
  exists p,
    (accepts Background 2 l2).1
      = [Listener.AcceptsChannel O; Listener.AcceptsChannel p] /\
    objs w2 !! p = Some (mkChannel 6 (Some 1%nat)).
Proof.
  destruct (Accept_is_first_in_first_out
              (Listener.ServeHTTP 5%nat
                 (Listener.NewListener upgrading
                    (Some (Listener.mkListenOptions 2 None None upgrading))) world0).1.2
              (Listener.ServeHTTP 5%nat
                 (Listener.NewListener upgrading
                    (Some (Listener.mkListenOptions 2 None None upgrading))) world0).2
              6%nat Background
              (Listener.ServeHTTP 6%nat
                 (Listener.ServeHTTP 5%nat
                    (Listener.NewListener upgrading
                       (Some (Listener.mkListenOptions 2 None None upgrading))) world0).1.2
                 (Listener.ServeHTTP 5%nat
                    (Listener.NewListener upgrading
                       (Some (Listener.mkListenOptions 2 None None upgrading))) world0).2).1.2
              (Listener.ServeHTTP 6%nat
                 (Listener.ServeHTTP 5%nat
                    (Listener.NewListener upgrading
                       (Some (Listener.mkListenOptions 2 None None upgrading))) world0).1.2
                 (Listener.ServeHTTP 5%nat
                    (Listener.NewListener upgrading
                       (Some (Listener.mkListenOptions 2 None None upgrading))) world0).2).2
              1%nat)
    as (p & _ & Ho & _ & Hacc).
  - vm_compute. reflexivity.
  - exists p. split; [exact Hacc|exact Ho].
Defined.

(** X5.  Backpressure: a request that finds the queue full is answered 503
    and leaves the queue as it was; once [Accept] has taken a channel, the
    next request that passes the hook and upgrades is admitted and the queue
    is full again. *)
Theorem queue_admits_again_after_Accept
  (zero : WsUpgrader) (opts : option Listener.ListenOptions)
  (l : Listener.Listener) (w : World) (ctx : Ctx)
  (req req2 : nat) (code code2 : Z) (conn : nat) :
  reachable zero opts (l, w) ->
  Listener.closed l = false ->
  length (buf (Listener.inc l)) = capacity (Listener.inc l) ->
  Listener.check l req = (code, None) ->
  Listener.check l req2 = (code2, None) ->
  let w1 := emit (EvHttpError req "connection queue is full" StatusServiceUnavailable) w in
  ws_upgrade (Listener.u l) (trace w1) req2 (Listener.hdr l) = (conn, None) ->
  Listener.ServeHTTP req l w = (Listener.Returns, l, w1) /\
  exists p l1 d l2 w2,
    Listener.Accept ctx false l = (Listener.AcceptsChannel p, l1) /\
    Listener.ServeHTTP req2 l1 w1 = (Listener.AwaitsDone d, l2, w2) /\
    length (buf (Listener.inc l2)) = capacity (Listener.inc l2) /\
    capacity (Listener.inc l2) = capacity (Listener.inc l).
Proof.
  intros Hr Hcl Hfull Hc Hc2 w1 Hup.
  pose proof (reachable_Inv _ _ _ _ Hr) as HI.
  split; [apply (ServeHTTP_rejects_when_full req l w code Hc Hcl Hfull)|].
  pose proof (inv_cap _ _ HI) as Hcap.
  destruct (buf (Listener.inc l)) as [|p rest] eqn:Hb; [cbn in Hfull; lia|].
  set (l1 := Listener.set_inc l (mkChan rest (capacity (Listener.inc l))
                                        (chan_closed (Listener.inc l)))).
  assert (Ha : Listener.Accept ctx false l = (Listener.AcceptsChannel p, l1)).
  { unfold Listener.Accept, chan_recv. rewrite Hb. destruct ctx; reflexivity. }
  assert (HI1 : Inv l1 w1).
  { apply Inv_emit. pose proof (Accept_Inv ctx false l w HI) as H.
    now rewrite Ha in H. }
  assert (Hlen1 : length (buf (Listener.inc l1)) <> capacity (Listener.inc l1)).
  { cbn. cbn in Hfull. lia. }
  pose proof (ServeHTTP_admits req2 l1 w1 code2 conn Hc2 Hcl Hlen1 Hup HI1) as Hs.
  cbn zeta in Hs. eexists p, l1, _, _, _. split; [exact Ha|]. split; [exact Hs|].
  cbn [Listener.set_inc Listener.inc buf capacity l1].
  rewrite length_app. cbn [length]. cbn in Hfull. lia.
Qed.

(** The package's own test continued: after the server accepts the first
    connection the second client can connect. *)
Lemma queue_admits_again_after_Accept_witness :
  let '(l, w) := state_after [ActServe 1%nat] in
  let w1 := emit (EvHttpError 2%nat "connection queue is full" StatusServiceUnavailable) w in
  Listener.ServeHTTP 2%nat l w = (Listener.Returns, l, w1) /\
  exists d l2 w2,
    Listener.ServeHTTP 2%nat (Listener.Accept Background false l).2 w1
      = (Listener.AwaitsDone d, l2, w2) /\
    length (buf (Listener.inc l2)) = 1%nat.
Proof.
  pose proof (queue_admits_again_after_Accept upgrading None
                (state_after [ActServe 1%nat]).1 (state_after [ActServe 1%nat]).2
                Background 2%nat 2%nat 0 0 2%nat) as H.
  destruct (state_after [ActServe 1%nat]) as [l w] eqn:Hst. cbn [fst snd] in H.
  assert (Hl : l = (state_after [ActServe 1%nat]).1) by now rewrite Hst.
  assert (Hw : w = (state_after [ActServe 1%nat]).2) by now rewrite Hst.
  destruct H as (H1 & p & l1 & d & l2 & w2 & Ha & Hs & Hlen & Hcap).
  - exists [ActServe 1%nat]. rewrite <- Hst. vm_compute. reflexivity.
  - rewrite Hl. vm_compute. reflexivity.
  - rewrite Hl. vm_compute. reflexivity.
  - rewrite Hl. vm_compute. reflexivity.
  - rewrite Hl. vm_compute. reflexivity.
  - rewrite Hl. reflexivity.
  - split; [exact H1|]. exists d, l2, w2. rewrite Ha. cbn [snd].
    split; [exact Hs|]. rewrite Hlen, Hcap, Hl. vm_compute. reflexivity.
Defined.

(** ** Signals stay open until their channel is closed *)

Lemma open_done_world0 : open_done world0.
Proof. intros p ch d H. cbn in H. now rewrite lookup_empty in H. Qed.

Lemma open_done_emit e w : open_done w -> open_done (emit e w).
Proof. intros H. exact H. Qed.

Lemma open_done_New conn w : open_done w -> open_done (ChannelV3.New conn w).2.
Proof.
  intros Ho p ch d. rewrite New_V3_spec. cbn [snd objs signals].
  rewrite lookup_insert. case_decide; subst.
  - intros [= <-] [= <-]. apply lookup_insert_eq.
  - intros Hp Hd. pose proof (Ho p ch d Hp Hd) as Hs.
    rewrite lookup_insert_ne; [exact Hs|].
    intros <-. rewrite fresh_None in Hs. discriminate.
Qed.

Lemma open_done_closed_world p conn d w :
  objs w !! p = Some (mkChannel conn (Some d)) ->
  own w -> open_done w -> open_done (closed_world p conn d w).
Proof.
  intros Hp Hown Ho q ch d'. cbn [closed_world objs signals].
  rewrite lookup_insert. case_decide; subst.
  - intros [= <-]. discriminate.
  - intros Hq Hd. rewrite lookup_insert_ne; [eapply Ho; eauto|].
    intros <-. apply H. eapply (Hown p q); eauto.
Qed.

Lemma drain_open_done (chs : list nat) :
  forall (w : World) (cerr r : option error) (w' : World),
    NoDup chs -> queued_ok chs w -> own w -> open_done w ->
    Listener.drain ChannelV3.Close chs cerr w = Ret r w' -> open_done w'.
Proof.
  induction chs as [|p rest IH]; intros w cerr r w' Hnd Hq Hown Ho.
  - cbn [Listener.drain]. now intros [= _ <-].
  - apply NoDup_cons in Hnd as [Hnin Hnd'].
    destruct (Hq p (list_elem_of_here p rest)) as (conn & d & Hobj & Hsig).
    cbn [Listener.drain]. rewrite (Close_V3_closed_world p w conn d Hobj Hsig).
    cbn [bind]. apply IH.
    + exact Hnd'.
    + apply (closed_world_queued p conn d w Hobj Hown rest Hnin).
      intros q Hin. apply Hq. now apply list_elem_of_further.
    + now apply closed_world_own.
    + now apply open_done_closed_world.
Qed.

Lemma act_open_done a l w l' w' :
  Inv l w -> open_done w -> act a (l, w) = Some (l', w') -> open_done w'.
Proof.
  intros HI Ho. destruct a as [req|ctx pick_ctx| |p|conn|T p data|T p]; cbn [act].
  - destruct (Listener.check l req) as [code [e|]] eqn:Hc.
    { destruct (ServeHTTP_hook_cases req l w code e Hc)
        as [(_ & msg & _ & ->)|(_ & m & ->)]; [now intros [= <- <-]|discriminate]. }
    unfold Listener.ServeHTTP. rewrite Hc.
    destruct (Listener.closed l); [rewrite http_Error_500; now intros [= <- <-]|].
    destruct (Nat.eqb _ _); [rewrite http_Error_503; now intros [= <- <-]|].
    destruct (ws_upgrade _ _ _ _) as [conn [e|]]; [now intros [= <- <-]|].
    pose proof (open_done_New conn (emit (EvUpgrade req) w) Ho) as Ho'.
    destruct (ChannelV3.New conn _) as [p w1]. cbn [snd] in Ho'.
    destruct (chan_send p (Listener.inc l)); [|now intros [= <- <-]|discriminate].
    destruct (objs w1 !! p) as [[conn' [d|]]|]; [| |discriminate];
      now intros [= <- <-].
  - now intros [= <- <-].
  - destruct (Listener.closed l) eqn:Hcl.
    + rewrite (Listener_Close_closed _ l w Hcl). now intros [= <- <-].
    + unfold Listener.Close, chan_close. rewrite Hcl, (inv_flag _ _ HI), Hcl.
      cbn [buf].
      destruct (Listener.drain ChannelV3.Close (buf (Listener.inc l)) None w)
        as [r w1|] eqn:Hd; [|discriminate].
      cbn [bind]. intros [= <- <-].
      apply (drain_open_done _ w None r w1 (inv_nodup _ _ HI) (inv_queued _ _ HI)
               (inv_own _ _ HI) Ho Hd).
  - case_decide; [discriminate|].
    destruct (ChannelV3.Close p w) as [r w1|] eqn:Hc; [|discriminate].
    intros [= <- <-].
    apply Close_V3_cases in Hc as [_ [(conn & _ & ->)|H0]]; [exact Ho|].
    destruct H0 as (conn & d & Hobj & Hsig & ->).
    apply open_done_closed_world; [exact Hobj|apply (inv_own _ _ HI)|exact Ho].
  - intros [= <- <-]. now apply open_done_New.
  - destruct (ChannelV3.Send T p data w) as [r w1|] eqn:Hs; [|discriminate].
    intros [= <- <-]. destruct (Send_V3_world _ _ _ _ _ _ Hs) as [ch ->]. exact Ho.
  - destruct (ChannelV3.Recv T p w) as [r w1|] eqn:Hs; [|discriminate].
    intros [= <- <-]. destruct (Recv_V3_world _ _ _ _ _ Hs) as [ch ->]. exact Ho.
Qed.

Lemma run_open_done acts : forall s s',
  Inv s.1 s.2 -> open_done s.2 -> run acts s = Some s' -> open_done s'.2.
Proof.
  induction acts as [|a rest IH]; intros [l w] s' HI Ho; cbn [run].
  - now intros [= <-].
  - destruct (act a (l, w)) as [[l1 w1]|] eqn:Ha; [|discriminate].
    apply IH; cbn [fst snd].
    + eapply act_Inv; eauto.
    + eapply act_open_done; eauto.
Qed.

Lemma reachable_open_done zero opts l w : reachable zero opts (l, w) -> open_done w.
Proof.
  intros [acts Hrun].
  apply (run_open_done acts (Listener.NewListener zero opts, world0) (l, w));
    [apply Inv_NewListener|apply open_done_world0|exact Hrun].
Qed.

Lemma run_snoc acts a : forall s s1 s2,
  run acts s = Some s1 -> act a s1 = Some s2 -> run (acts ++ [a]) s = Some s2.
Proof.
  induction acts as [|b rest IH]; intros s s1 s2; cbn [run app].
  - intros [= ->] Hact. now rewrite Hact.
  - destruct (act b s); [apply IH|discriminate].
Qed.

(** X6.  The listener panics nowhere but in the handler's answer to a
    refusal by the hook.  In every state an [Accept], a [Close] of the
    listener and the making of a channel run without panic, and a handler
    invocation panics exactly when the hook reports an error whose [Error]
    method panics, or a status that [WriteHeader] does not take.  So the
    handler never sends on a closed queue, and [Close] never closes the
    queue twice and never closes a done signal that is already closed.
    What an action leads to is again a state of the listener. *)
Theorem listener_panics_only_in_hook_refusal
  (zero : WsUpgrader) (opts : option Listener.ListenOptions)
  (l : Listener.Listener) (w : World) (a : action) :
  reachable zero opts (l, w) ->
  listener_action a = true ->
  (act a (l, w) = None <->
   exists req, a = ActServe req /\
               Listener.hook_answer_ok (Listener.check l req) = false) /\
  (forall s', act a (l, w) = Some s' -> reachable zero opts s').
Proof.
  intros Hr Ha. pose proof (reachable_Inv _ _ _ _ Hr) as HI. split.
  - destruct a as [req|ctx pick_ctx| |p|conn|T p data|T p]; try discriminate;
      cbn [act].
    + pose proof (ServeHTTP_Inv req l w HI) as (_ & _ & Hnp). split.
      * intros Hnone. exists req. split; [reflexivity|].
        destruct (Listener.ServeHTTP req l w) as [[r l1] w1]. cbn [fst snd] in Hnp.
        destruct r; try discriminate. now apply (Hnp msg).
      * intros (req' & [= <-] & Hbad).
        destruct (Listener.check l req) as [code [e|]] eqn:Hc; [|discriminate].
        destruct (ServeHTTP_hook_cases req l w code e Hc)
          as [(Hok & _)|(_ & m & ->)]; [congruence|reflexivity].
    + split; [discriminate|]. intros (req & Hreq & _). discriminate.
    + split; [|intros (req & Hreq & _); discriminate].
      destruct (Listener.closed l) eqn:Hcl.
      * rewrite (Listener_Close_closed _ l w Hcl). discriminate.
      * destruct (Listener_Close_open l w HI Hcl) as (w1 & Hrun & _).
        rewrite Hrun. discriminate.
    + split; [discriminate|]. intros (req & Hreq & _). discriminate.
  - intros s' Hact. destruct Hr as [acts Hrun]. exists (acts ++ [a]).
    now apply (run_snoc acts a _ (l, w) s').
Qed.

Lemma listener_panics_only_in_hook_refusal_witness :
  exists l' w',
    act ActClose (state_after [ActServe 1%nat; ActClose]) = Some (l', w') /\
    reachable upgrading None (l', w').
Proof.
  destruct (state_after [ActServe 1%nat; ActClose]) as [l w] eqn:Hst.
  destruct (listener_panics_only_in_hook_refusal upgrading None l w ActClose)
    as [Hiff Hre].
  - exists [ActServe 1%nat; ActClose]. rewrite <- Hst. vm_compute. reflexivity.
  - reflexivity.
  - destruct (act ActClose (l, w)) as [[l' w']|] eqn:Hact.
    + exists l', w'. split; [reflexivity|]. now apply Hre.
    + destruct (proj1 Hiff eq_refl) as (req & Hreq & _). discriminate.
Defined.

(** X7.  In every state, [Close] on any channel that exists returns nil
    without panic, however often it was closed before.  If the struct still
    holds its done signal, the signal was open until then and is fired by
    this call, which also hands the close handshake to the transport and
    sets the field to nil; otherwise the call changes nothing. *)
Theorem Channel_Close_is_safe_in_every_state
  (zero : WsUpgrader) (opts : option Listener.ListenOptions)
  (l : Listener.Listener) (w : World) (p : nat) (ch : Channel) :
  reachable zero opts (l, w) ->
  objs w !! p = Some ch ->
  exists w',
    ChannelV3.Close p w = Ret None w' /\
    objs w' !! p = Some (mkChannel (c ch) None) /\
    match done ch with
    | Some d =>
        await (Some d) w = false /\ await (Some d) w' = true /\
        trace w' = trace w ++ [EvSignal d; EvGoClose (c ch) StatusNormalClosure "bye"]
    | None => w' = w
    end.
Proof.
  intros Hr Hp. pose proof (reachable_open_done _ _ _ _ Hr) as Ho.
  destruct ch as [conn [d|]].
  - pose proof (Ho p _ d Hp eq_refl) as Hsig.
    exists (closed_world p conn d w).
    split; [now apply Close_V3_closed_world|].
    split; [cbn [closed_world objs c]; apply lookup_insert_eq|].
    cbn [done c]. split; [unfold await; now rewrite Hsig|]. split; [|reflexivity].
    unfold await. cbn [closed_world signals]. now rewrite lookup_insert_eq.
  - exists w. split; [now apply (Close_V3_nil_done p w conn)|]. split; [exact Hp|].
    reflexivity.
Qed.

(** The consumer closes the channel it accepted, twice. *)
Lemma Channel_Close_is_safe_in_every_state_witness :
  exists w',
    ChannelV3.Close O
      (state_after [ActServe 1%nat; ActAccept Background false; ActChannelClose O]).2
      = Ret None w' /\
    objs w' !! O = Some (mkChannel 1 None).
Proof.
  destruct (state_after [ActServe 1%nat; ActAccept Background false; ActChannelClose O])
    as [l w] eqn:Hst.
  destruct (Channel_Close_is_safe_in_every_state upgrading None l w O (mkChannel 1 None))
    as (w' & H1 & H2 & _).
  - exists [ActServe 1%nat; ActAccept Background false; ActChannelClose O].
    rewrite <- Hst. vm_compute. reflexivity.
  - apply (f_equal (fun s => objs s.2 !! O)) in Hst. cbn [snd] in Hst.
    rewrite <- Hst. vm_compute. reflexivity.
  - exists w'. split; [exact H1|exact H2].
Defined.

(** ** The drain of Listener.Close *)

(** X8.  Whatever the channels' [Close] does, the first [Close] of an open
    listener calls it on every queued channel, oldest first, and goes on
    after a call has returned an error; it returns the first error among the
    calls' results (nil when there was none) and leaves the listener closed
    with an empty, closed queue. *)
Theorem Listener_Close_reports_first_error
  (Channel_Close : nat -> World -> outcome (option error))
  (l : Listener.Listener) (w : World) :
  Listener.closed l = false ->
  chan_closed (Listener.inc l) = false ->
  Listener.Close Channel_Close l w =
    bind (close_all Channel_Close (buf (Listener.inc l)) w) (fun rs w' =>
      Ret (first_error rs,
           Listener.mkListener (Listener.u l) (Listener.hdr l) (Listener.check l)
             (mkChan [] (capacity (Listener.inc l)) true) true) w') /\
  (forall rs w', close_all Channel_Close (buf (Listener.inc l)) w = Ret rs w' ->
     length rs = length (buf (Listener.inc l))).
Proof.
  intros Hcl Hopen. split; [|apply close_all_length].
  unfold Listener.Close, chan_close. rewrite Hcl, Hopen. cbn [buf capacity].
  rewrite drain_close_all.
  destruct (close_all Channel_Close (buf (Listener.inc l)) w); reflexivity.
Qed.

(** Two queued channels over a dropped connection, closed by the gorilla
    [Close]: both are closed, and the first failure is what is returned. *)
Lemma Listener_Close_reports_first_error_witness :
  let o := Listener.mkListenOptions 2 None None upgrading in
  let l0 := Listener.NewListener upgrading (Some o) in
  let '(_, l1, w1) := Listener.ServeHTTP 5%nat l0 world0 in
  let '(_, l2, w2) := Listener.ServeHTTP 6%nat l1 w1 in
  exists l3 w3,
    Listener.Close (ChannelV2.Close dropped) l2 w2 = Ret (Some broken_pipe, l3) w3 /\
    EvConnClose 5 ∈ trace w3 /\ EvConnClose 6 ∈ trace w3.
Proof.
  pose proof (Listener_Close_reports_first_error (ChannelV2.Close dropped)
    (Listener.ServeHTTP 6%nat
       (Listener.ServeHTTP 5%nat
          (Listener.NewListener upgrading
             (Some (Listener.mkListenOptions 2 None None upgrading))) world0).1.2
       (Listener.ServeHTTP 5%nat
          (Listener.NewListener upgrading
             (Some (Listener.mkListenOptions 2 None None upgrading))) world0).2).1.2
    (Listener.ServeHTTP 6%nat
       (Listener.ServeHTTP 5%nat
          (Listener.NewListener upgrading
             (Some (Listener.mkListenOptions 2 None None upgrading))) world0).1.2
       (Listener.ServeHTTP 5%nat
          (Listener.NewListener upgrading
             (Some (Listener.mkListenOptions 2 None None upgrading))) world0).2).2
    eq_refl eq_refl) as [H _].
  vm_compute in H. vm_compute. eexists _, _. split; [exact H|].
  split; apply list_elem_of_In; cbn; tauto.
Defined.

(** ** Send and Recv *)

Lemma Send_V3_eq T p w ch data :
  objs w !! p = Some ch ->
  ChannelV3.Send T p data w =
    Ret (ChannelV3.filterErr (write_result T (trace w) (c ch) BinaryMessage data))
        (emit (EvWrite (c ch) BinaryMessage data) w).
Proof.
  intros H. unfold ChannelV3.Send. now rewrite (deref_Some _ _ _ H).
Qed.

Lemma Recv_V3_eq T p w ch :
  objs w !! p = Some ch ->
  ChannelV3.Recv T p w =
    match read_result T (trace w) (c ch) with
    | (_, _, Some e) => Ret (None, ChannelV3.filterErr (Some e)) (emit (EvRead (c ch)) w)
    | (_, bits, None) => Ret (Some bits, None) (emit (EvRead (c ch)) w)
    end.
Proof.
  intros H. unfold ChannelV3.Recv. rewrite (deref_Some _ _ _ H).
  cbn [bind]. unfold Read, ReadMessage.
  destruct (read_result T (trace w) (c ch)) as [[mt bits] [e|]]; reflexivity.
Qed.

(** X9.  The nhooyr [Close] keeps the connection in the struct, and [Send]
    and [Recv] look at nothing else: after [Close] they still go to the
    transport and return what the transport answers, so the channel reports
    closed only if the transport does. *)
Theorem Send_Recv_after_Close_reach_transport
  (T : Transport) (p : nat) (w w' : World) (ch : Channel) (r : option error)
  (data : bytes) :
  objs w !! p = Some ch ->
  ChannelV3.Close p w = Ret r w' ->
  ChannelV3.Send T p data w' =
    Ret (ChannelV3.filterErr (write_result T (trace w') (c ch) BinaryMessage data))
        (emit (EvWrite (c ch) BinaryMessage data) w') /\
  ChannelV3.Recv T p w' =
    match read_result T (trace w') (c ch) with
    | (_, _, Some e) => Ret (None, ChannelV3.filterErr (Some e)) (emit (EvRead (c ch)) w')
    | (_, bits, None) => Ret (Some bits, None) (emit (EvRead (c ch)) w')
    end.
Proof.
  intros Hp Hc.
  assert (Hp' : exists dn, objs w' !! p = Some (mkChannel (c ch) dn)).
  { apply Close_V3_cases in Hc as [_ [(conn & Hobj & ->)|H]].
    - rewrite Hp in Hobj. injection Hobj as ->. eauto.
    - destruct H as (conn & d & Hobj & _ & ->). rewrite Hp in Hobj.
      injection Hobj as ->. exists None. cbn [closed_world objs c].
      apply lookup_insert_eq. }
  destruct Hp' as [dn Hp']. split.
  - apply (Send_V3_eq T p w' _ data Hp').
  - apply (Recv_V3_eq T p w' _ Hp').
Qed.

(** On a connection that answers every call, [Send] after [Close] succeeds. *)
Lemma Send_Recv_after_Close_reach_transport_witness :
  exists w',
    ChannelV3.Close (ChannelV3.New 7 world0).1 (ChannelV3.New 7 world0).2 = Ret None w' /\
    ChannelV3.Send quiet (ChannelV3.New 7 world0).1 [x01] w'
      = Ret None (emit (EvWrite 7 BinaryMessage [x01]) w').
Proof.
  destruct (ChannelV3.Close (ChannelV3.New 7 world0).1 (ChannelV3.New 7 world0).2)
    as [r w'|] eqn:Hc; [|vm_compute in Hc; discriminate Hc].
  destruct (Send_Recv_after_Close_reach_transport quiet
              (ChannelV3.New 7 world0).1 (ChannelV3.New 7 world0).2 w'
              (mkChannel 7 (Some O)) r [x01]) as [Hs _].
  - vm_compute. reflexivity.
  - exact Hc.
  - exists w'. destruct (Close_V3_cases _ _ _ _ Hc) as [-> _].
    split; [reflexivity|exact Hs].
Defined.

(** ** The gorilla Close and its done signal *)

(** X10.  In the gorilla revision [Close] fires the done signal exactly when
    the close message could be written: after a failed write it returns the
    write's error with every signal as it was, so whoever waits on done
    keeps waiting; after a successful write an open done signal is closed. *)
Theorem Close_V2_fires_done_iff_notified
  (T : Transport) (p : nat) (w : World) (ch : Channel) (d : nat) :
  objs w !! p = Some ch ->
  done ch = Some d ->
  signals w !! d = Some false ->
  match write_result T (trace w) (c ch) CloseMessage closeMessage with
  | Some e =>
      exists w', ChannelV2.Close T p w = Ret (Some e) w' /\
                 signals w' = signals w /\ await (Some d) w' = false
  | None =>
      exists w', ChannelV2.Close T p w
                   = Ret (close_result T (trace (after_notify ch w)) (c ch)) w' /\
                 await (Some d) w' = true /\
                 trace w' = trace w ++ [notify ch; EvConnClose (c ch); EvSignal d]
  end.
Proof.
  intros Hp Hd Hs. rewrite (Close_V2_eq T p w ch Hp).
  destruct (write_result T _ _ _ _) as [e|].
  - eexists. split; [reflexivity|]. split; [reflexivity|].
    unfold await. cbn [after_conn_close after_notify emit signals]. now rewrite Hs.
  - rewrite Hd. unfold close_signal.
    change (signals (after_conn_close ch w)) with (signals w). rewrite Hs.
    cbn [bind]. eexists. split; [reflexivity|]. split.
    + unfold await. cbn [signals]. now rewrite lookup_insert_eq.
    + cbn [trace]. rewrite after_conn_close_trace. now rewrite <- app_assoc.
Qed.

Lemma Close_V2_fires_done_iff_notified_witness :
  let w := mkWorld [] {[ O := false ]} {[ O := mkChannel 7 (Some O) ]} in
  (exists w', ChannelV2.Close dropped O w = Ret (Some broken_pipe) w' /\
              signals w' = signals w /\ await (Some O) w' = false) /\
  (exists w', ChannelV2.Close quiet O w = Ret None w' /\
              await (Some O) w' = true /\
              trace w' = [notify (mkChannel 7 (Some O)); EvConnClose 7; EvSignal O]).
Proof.
  split.
  - apply (Close_V2_fires_done_iff_notified dropped O
             (mkWorld [] {[ O := false ]} {[ O := mkChannel 7 (Some O) ]})
             (mkChannel 7 (Some O)) O); vm_compute; reflexivity.
  - apply (Close_V2_fires_done_iff_notified quiet O
             (mkWorld [] {[ O := false ]} {[ O := mkChannel 7 (Some O) ]})
             (mkChannel 7 (Some O)) O); vm_compute; reflexivity.
Defined.

(** ** Dial *)

Lemma conn_closes_app conn tr1 tr2 :
  conn_closes conn (tr1 ++ tr2) = (conn_closes conn tr1 + conn_closes conn tr2)%nat.
Proof.
  induction tr1 as [|e rest IH]; cbn [app conn_closes]; [reflexivity|].
  rewrite IH. lia.
Qed.

Lemma closes_V2_nil_done T conn p : forall k w,
  objs w !! p = Some (mkChannel conn None) ->
  exists rs w',
    closes (ChannelV2.Close T) k p w = Ret rs w' /\
    length rs = k /\
    objs w' = objs w /\ signals w' = signals w /\
    conn_closes conn (trace w') = (conn_closes conn (trace w) + k)%nat.
Proof.
  induction k as [|k IH]; intros w Hp.
  - exists [], w. cbn [closes length]. repeat split. lia.
  - cbn [closes]. rewrite (Close_V2_eq T p w _ Hp). cbn [done c].
    assert (Hp' : objs (after_conn_close (mkChannel conn None) w) !! p
                  = Some (mkChannel conn None)) by exact Hp.
    destruct (IH _ Hp') as (rs & w' & Hrun & Hlen & Ho & Hs & Hn).
    assert (Hcount : conn_closes conn (trace w')
                     = (conn_closes conn (trace w) + S k)%nat).
    { rewrite Hn, after_conn_close_trace, conn_closes_app.
      unfold notify. cbn [conn_closes c].
      destruct (decide (EvWrite conn CloseMessage closeMessage = EvConnClose conn));
        [discriminate|].
      destruct (decide (EvConnClose conn = EvConnClose conn)); [lia|contradiction]. }
    destruct (write_result T _ _ _ _) as [e|]; cbn [bind]; rewrite Hrun; cbn [bind];
      eexists _, w'; (split; [reflexivity|]); cbn [length];
      repeat split; auto.
Qed.

(** X11.  [Dial] of the gorilla revision with [DialOptions] returns either
    a channel and no error, or an error and no channel, and in the second
    case allocates nothing.  The channel is a new struct on the dialled
    connection with no done signal, so [Close] may be called on it any
    number of times without panic; every call closes the connection once
    more. *)
Theorem Dial_gives_channel_or_error
  (DefaultDialer : WsDialer) (TrimSpace : string -> string) (T : Transport)
  (url : string) (opts : option DialV2.DialOptions) (w : World)
  (r : option nat) (e : option error) (w' : World) (k : nat) :
  DialV2.Dial DefaultDialer TrimSpace url opts w = Ret (r, e) w' ->
  trace w' = trace w ++ [EvDial url] /\
  match r, e with
  | Some p, None =>
      objs w !! p = None /\
      objs w' !! p
        = Some (mkChannel (ws_dial (DialV2.dialer DefaultDialer opts) (trace w) url
                             (DialV2.header opts)).1.1 None) /\
      exists rs w2,
        closes (ChannelV2.Close T) k p w' = Ret rs w2 /\
        length rs = k /\
        conn_closes (ws_dial (DialV2.dialer DefaultDialer opts) (trace w) url
                       (DialV2.header opts)).1.1 (trace w2)
          = (conn_closes (ws_dial (DialV2.dialer DefaultDialer opts) (trace w) url
                            (DialV2.header opts)).1.1 (trace w') + k)%nat
  | None, Some _ => objs w' = objs w /\ signals w' = signals w
  | _, _ => False
  end.
Proof.
  unfold DialV2.Dial.
  destruct (ws_dial _ _ _ _) as [[conn rsp] [err|]]; cbn [fst].
  - destruct (decide (err <> ErrBadHandshake)).
    + intros [= <- <- <-]. auto.
    + destruct rsp as [[[msg [re|]]]|]; [| |discriminate]; cbn [ReadAll_Body].
      * intros [= <- <- <-]. auto.
      * destruct (Nat.eqb (String.length msg) 0); cbn [negb];
          intros [= <- <- <-]; auto.
  - unfold alloc. intros [= <- <- <-]. split; [reflexivity|].
    cbn [objs emit]. split; [apply fresh_None|].
    split; [apply lookup_insert_eq|].
    destruct (closes_V2_nil_done T conn (fresh_key (objs w)) k
                (mkWorld (trace w ++ [EvDial url]) (signals w)
                   (<[fresh_key (objs w) := mkChannel conn None]> (objs w))))
      as (rs & w2 & Hrun & Hlen & _ & _ & Hn).
    { apply lookup_insert_eq. }
    exists rs, w2. auto.
Qed.

Lemma Dial_gives_channel_or_error_witness :
  exists p w' rs w2,
    DialV2.Dial accepting TrimSpace_ascii "ws://host/" None world0 = Ret (Some p, None) w' /\
    closes (ChannelV2.Close quiet) 3 p w' = Ret rs w2 /\
    conn_closes 7 (trace w2) = 3%nat.
Proof.
  destruct (DialV2.Dial accepting TrimSpace_ascii "ws://host/" None world0)
    as [[r e] w'|] eqn:Hd; [|vm_compute in Hd; discriminate Hd].
  pose proof (Dial_gives_channel_or_error accepting TrimSpace_ascii quiet
                "ws://host/" None world0 r e w' 3 Hd) as [_ H].
  assert (Hr : r = Some O /\ e = None /\ conn_closes 7 (trace w') = O).
  { vm_compute in Hd. injection Hd as <- <- <-. repeat split. }
  destruct Hr as (-> & -> & Hz). destruct H as (_ & _ & rs & w2 & Hrun & _ & Hn).
  exists O, w', rs, w2. split; [reflexivity|]. split; [exact Hrun|].
  cbn in Hn. rewrite Hn, Hz. reflexivity.
Defined.

(** ** The listener with a wait group: what can and cannot go wrong *)

Module ListenerWGSafety.
Import ListenerWG ListenerWGInv.

Lemma holders_app_C0 cs : holders (cs ++ [C0]) = holders cs.
Proof.
  induction cs as [|pc rest IH]; cbn [app holders holds]; [reflexivity|].
  now rewrite IH.
Qed.

Lemma holders_insert cs : forall k pc pc',
  cs !! k = Some pc ->
  (holders (<[k := pc']> cs) + (if holds pc then 1 else 0)
   = holders cs + (if holds pc' then 1 else 0))%nat.
Proof.
  induction cs as [|pc0 rest IH]; intros [|k] pc pc' H; try discriminate.
  - cbn in H. injection H as ->.
    change (<[0%nat := pc']> (pc :: rest)) with (pc' :: rest).
    cbn [holders]. lia.
  - cbn in H. specialize (IH k pc pc' H).
    change (<[S k := pc']> (pc0 :: rest)) with (pc0 :: <[k := pc']> rest).
    cbn [holders]. lia.
Qed.

Lemma holders_two cs : forall k k' pc pc',
  cs !! k = Some pc -> cs !! k' = Some pc' -> k <> k' ->
  holds pc = true -> holds pc' = true -> (2 <= holders cs)%nat.
Proof.
  induction cs as [|pc0 rest IH]; intros [|k] [|k'] pc pc' H H' Hne Hh Hh';
    try discriminate; try contradiction; cbn in H, H'.
  - injection H as ->. cbn [holders]. rewrite Hh.
    assert (1 <= holders rest)%nat; [|lia].
    clear - H' Hh'. revert k' H'. induction rest as [|q r IHr]; intros [|k'] H';
      try discriminate; cbn in H'; cbn [holders].
    + injection H' as ->. rewrite Hh'. lia.
    + specialize (IHr k' H'). lia.
  - injection H' as ->. cbn [holders]. rewrite Hh'.
    assert (1 <= holders rest)%nat; [|lia].
    clear - H Hh. revert k H. induction rest as [|q r IHr]; intros [|k] H;
      try discriminate; cbn in H; cbn [holders].
    + injection H as ->. rewrite Hh. lia.
    + specialize (IHr k H). lia.
  - assert (Hkk : k <> k') by congruence.
    specialize (IH k k' pc pc' H H' Hkk Hh Hh'). cbn [holders]. lia.
Qed.

Lemma live_pos cs : forall d pc b,
  cs !! d = Some (pc, b) -> pc <> GDone -> (1 <= live cs)%nat.
Proof.
  induction cs as [|[pc0 b0] rest IH]; intros [|d] pc b H Hne; try discriminate;
    cbn in H.
  - injection H as -> ->. destruct pc; cbn [live]; [lia|lia|contradiction].
  - specialize (IH d pc b H Hne). destruct pc0; cbn [live]; lia.
Qed.

Lemma drain_stays (cs : list cpc) (k k' : nat) (pc pc' : cpc) :
  cs !! k = Some pc -> pc <> CDrain ->
  cs !! k' = Some CDrain -> <[k := pc']> cs !! k' = Some CDrain.
Proof.
  intros Hk Hne Hk'. rewrite list_lookup_insert_ne; [exact Hk'|].
  intros ->. rewrite Hk in Hk'. congruence.
Qed.

Lemma Inv2_NewListener : Inv2 NewListener.
Proof.
  constructor; cbn;
    first [ reflexivity | lia | intros; discriminate
          | intros d Hd; now apply elem_of_nil in Hd
          | apply NoDup_nil_2 ].
Qed.

Lemma Inv2_crash s : Inv2 s -> Inv2 (crash s).
Proof. intros []. constructor; assumption. Qed.

Lemma Inv2_set_handler i pc s : Inv2 s -> Inv2 (set_handler i pc s).
Proof. intros []. constructor; assumption. Qed.

Lemma Inv2_set_wg n s : Inv2 s -> Inv2 (set_wg n s).
Proof. intros []. constructor; assumption. Qed.

(** A [Close] moves on without taking or giving up the mutex. *)
Lemma Inv2_set_closer k pc pc' s :
  Inv2 s -> closers s !! k = Some pc -> holds pc' = holds pc -> pc <> CDrain ->
  Inv2 (set_closer k pc' s).
Proof.
  intros [] Hk Hh Hne. constructor;
    cbn [set_closer closers mu closed inc conns held]; try assumption.
  - pose proof (holders_insert _ _ _ pc' Hk) as H. rewrite Hh in H.
    rewrite <- inv_mutex0. lia.
  - intros Hc. destruct (inv_queue_closer0 Hc) as [|[k' Hk']]; [now left|].
    right. exists k'. eapply drain_stays; eauto.
Qed.

(** The entry of a connection changes, the connection being neither queued
    nor unsent afterwards. *)
Lemma Inv2_set_conn d pc b s :
  Inv2 s -> d ∉ buf (inc s) -> pc <> G0 -> is_Some (conns s !! d) ->
  Inv2 (set_conn d (pc, b) s).
Proof.
  intros [] Hnin Hpc Hsome. constructor;
    cbn [set_conn closers mu closed inc conns held]; try assumption.
  - intros d' Hd'. rewrite list_lookup_insert_ne; [now apply inv_buf0|].
    intros ->. contradiction.
  - intros d' b' Hd'.
    apply list_lookup_insert_Some in Hd' as [(_ & Heq & _)|(_ & Hd')];
      [congruence|eauto].
  - intros d' Hd'. destruct (inv_held0 d' Hd') as (Hn & pc' & b' & Hc & Hp).
    split; [exact Hn|]. destruct (decide (d = d')) as [->|Hne].
    + exists pc, b. split; [|exact Hpc]. apply list_lookup_insert_eq.
      now apply lookup_lt_is_Some.
    + exists pc', b'. split; [|exact Hp]. now rewrite list_lookup_insert_ne.
Qed.

Lemma Inv2_signal_done d notified s :
  Inv2 s -> d ∉ buf (inc s) ->
  (forall pc b, conns s !! d = Some (pc, b) -> pc <> G0) ->
  Inv2 (signal_done d notified s).
Proof.
  intros HI Hnin Hpc. unfold signal_done. destruct notified; [|exact HI].
  destruct (conns s !! d) as [[pc [|]]|] eqn:Hd; try now apply Inv2_crash.
  apply Inv2_set_conn; [exact HI|exact Hnin|eapply Hpc; eauto|].
  rewrite Hd. eauto.
Qed.

Lemma Inv2_set_queue_tail d rest s :
  Inv2 s -> buf (inc s) = d :: rest ->
  Inv2 (set_queue (mkChan rest (capacity (inc s)) (chan_closed (inc s))) s).
Proof.
  intros HI Hb.
  pose proof (inv_buf_nodup s HI) as Hnd. rewrite Hb in Hnd.
  apply NoDup_cons in Hnd as [Hnin Hnd].
  constructor; cbn [set_queue closers mu closed inc conns held buf capacity chan_closed].
  - apply (inv_mutex s HI).
  - apply (inv_closed_queue s HI).
  - apply (inv_queue_closer s HI).
  - apply (inv_cap1 s HI).
  - pose proof (inv_len1 s HI) as Hl. rewrite Hb in Hl. cbn [length] in Hl. lia.
  - intros d' Hd'. apply (inv_buf s HI). rewrite Hb. now apply list_elem_of_further.
  - apply (inv_unsent s HI).
  - exact Hnd.
  - intros d' Hd'. destruct (inv_held s HI d' Hd') as (Hn & Hex). split; [|exact Hex].
    intros Hin. apply Hn. rewrite Hb. now apply list_elem_of_further.
Qed.

Lemma step_Inv2 a s s' : Inv2 s -> step a s = Some s' -> Inv2 s'.
Proof.
  intros HI. unfold step. destruct (crashed s); [discriminate|].
  destruct a as [|i pass|i ok|i|i|d|d| |d notified| |k|k|k notified|k|k].
  - (* a request arrives *)
    intros [= <-]. destruct HI. constructor; assumption.
  - destruct (handlers s !! i) as [[]|]; try discriminate. intros [= <-].
    now apply Inv2_set_handler.
  - destruct (handlers s !! i) as [[]|]; try discriminate. intros [= <-].
    now apply Inv2_set_handler.
  - (* add *)
    destruct (handlers s !! i) as [[]|]; try discriminate.
    destruct (mu s) eqn:Hmu; [discriminate|]. destruct (closed s) eqn:Hcl.
    + intros [= <-]. now apply Inv2_set_handler.
    + intros [= <-].
      constructor; cbn [closers mu closed inc conns held].
      * pose proof (inv_mutex s HI) as H. now rewrite Hmu in H.
      * discriminate.
      * intros Hc. destruct (inv_queue_closer s HI Hc) as [H|H]; [|now right].
        rewrite Hcl in H. discriminate.
      * apply (inv_cap1 s HI).
      * apply (inv_len1 s HI).
      * intros d Hd. apply lookup_app_l_Some. now apply (inv_buf s HI).
      * intros d b Hd. apply lookup_app_Some in Hd as [Hd|[_ Hd]].
        -- apply (inv_unsent s HI d b Hd).
        -- destruct (d - length (conns s))%nat as [|[|]]; [|discriminate..].
           now injection Hd as <-.
      * apply (inv_buf_nodup s HI).
      * intros d Hd. destruct (inv_held s HI d Hd) as (Hn & pc & b & Hc & Hp).
        split; [exact Hn|]. exists pc, b. split; [|exact Hp].
        now apply lookup_app_l_Some.
  - destruct (handlers s !! i) as [[]|]; try discriminate.
    destruct (conns s !! d) as [[pc [|]]|]; try discriminate. intros [= <-].
    now apply Inv2_set_handler.
  - (* the goroutine sends *)
    destruct (conns s !! d) as [[[] sg]|] eqn:Hd; try discriminate.
    pose proof (inv_unsent s HI d sg Hd) as ->.
    unfold chan_send. destruct (chan_closed (inc s)) eqn:Hcc.
    { intros [= <-]. now apply Inv2_crash. }
    destruct (Nat.ltb_spec (length (buf (inc s))) (capacity (inc s))) as [Hlt|];
      [|discriminate].
    intros [= <-].
    assert (Hnin : d ∉ buf (inc s)).
    { intros Hin. pose proof (inv_buf s HI d Hin) as H. congruence. }
    constructor; cbn [set_queue set_conn closers mu closed inc conns held buf
                      capacity chan_closed].
    + apply (inv_mutex s HI).
    + intros Hc. pose proof (inv_closed_queue s HI Hc) as H. congruence.
    + discriminate.
    + apply (inv_cap1 s HI).
    + rewrite length_app. cbn [length]. rewrite (inv_cap1 s HI) in Hlt. lia.
    + intros d' Hd'. apply elem_of_app in Hd' as [Hd'|Hd'].
      * rewrite list_lookup_insert_ne; [now apply (inv_buf s HI)|].
        intros ->. contradiction.
      * apply list_elem_of_singleton in Hd'. subst d'.
        apply list_lookup_insert_eq. apply lookup_lt_is_Some. rewrite Hd. eauto.
    + intros d' b Hd'.
      apply list_lookup_insert_Some in Hd' as [(_ & Heq & _)|(_ & Hd')];
        [discriminate|]. apply (inv_unsent s HI d' b Hd').
    + apply NoDup_app. split; [apply (inv_buf_nodup s HI)|].
      split; [|apply NoDup_singleton].
      intros x Hx Hx'. apply list_elem_of_singleton in Hx'. now subst x.
    + intros d' Hd'. destruct (inv_held s HI d' Hd') as (Hn & pc & b & Hc & Hp).
      assert (d <> d') by (intros ->; rewrite Hd in Hc; congruence).
      split.
      * intros Hin. apply elem_of_app in Hin as [Hin|Hin]; [contradiction|].
        apply list_elem_of_singleton in Hin. congruence.
      * exists pc, b. split; [|exact Hp]. now rewrite list_lookup_insert_ne.
  - (* the goroutine finishes *)
    destruct (conns s !! d) as [[[] [|]]|] eqn:Hd; try discriminate.
    destruct (wg s) as [|n]; intros [= <-]; [now apply Inv2_crash|].
    apply Inv2_set_wg, Inv2_set_conn; [exact HI| |discriminate|rewrite Hd; eauto].
    intros Hin. pose proof (inv_buf s HI d Hin) as H. congruence.
  - (* Accept *)
    unfold chan_recv. destruct (buf (inc s)) as [|d rest] eqn:Hb.
    { destruct (chan_closed (inc s)); discriminate. }
    intros [= <-].
    pose proof (Inv2_set_queue_tail d rest s HI Hb) as HI'.
    pose proof (inv_buf_nodup s HI) as Hnd. rewrite Hb in Hnd.
    apply NoDup_cons in Hnd as [Hnin _].
    destruct HI'. constructor; cbn [closers mu closed inc conns held buf] in *;
      try assumption.
    intros d' Hd'. apply elem_of_cons in Hd' as [->|Hd'].
    + split; [exact Hnin|]. exists G1, false. split; [|discriminate].
      apply (inv_buf s HI). rewrite Hb. apply list_elem_of_here.
    + now apply inv_held0.
  - (* a consumer closes its channel *)
    case_decide as Hh; [|discriminate]. intros [= <-].
    destruct (inv_held s HI d Hh) as (Hn & pc & b & Hc & Hp).
    apply Inv2_signal_done; [exact HI|exact Hn|].
    intros pc' b' Hc'. rewrite Hc in Hc'. now injection Hc' as <- <-.
  - (* a call of Close starts *)
    intros [= <-]. constructor; cbn [closers mu closed inc conns held];
      try apply HI.
    + rewrite holders_app_C0. apply (inv_mutex s HI).
    + intros Hc. destruct (inv_queue_closer s HI Hc) as [|[k Hk]]; [now left|].
      right. exists k. now apply lookup_app_l_Some.
  - (* Lock *)
    destruct (closers s !! k) as [[]|] eqn:Hk; try discriminate.
    destruct (mu s) eqn:Hmu; [discriminate|]. intros [= <-].
    constructor; cbn [set_mu set_closer closers mu closed inc conns held];
      try apply HI.
    + pose proof (holders_insert _ _ _ C1 Hk) as H. cbn [holds] in H.
      pose proof (inv_mutex s HI) as Hm. rewrite Hmu in Hm. lia.
    + intros Hc. destruct (inv_queue_closer s HI Hc) as [|[k' Hk']]; [now left|].
      right. exists k'. eapply drain_stays; eauto; discriminate.
  - (* the body of Close *)
    destruct (closers s !! k) as [[]|] eqn:Hk; try discriminate.
    destruct (closed s) eqn:Hcl.
    + intros [= <-]. eapply Inv2_set_closer; eauto; discriminate.
    + unfold chan_close. destruct (chan_closed (inc s)) eqn:Hcc;
        intros [= <-]; [now apply Inv2_crash|].
      constructor; cbn [set_queue set_closer closers mu closed inc conns held buf
                        capacity chan_closed]; try apply HI.
      * pose proof (holders_insert _ _ _ CDrain Hk) as H. cbn [holds] in H.
        rewrite <- (inv_mutex s HI). lia.
      * reflexivity.
      * intros _. right. exists k. apply list_lookup_insert_eq.
        apply lookup_lt_is_Some. rewrite Hk. eauto.
  - (* the range loop *)
    destruct (closers s !! k) as [[]|] eqn:Hk; try discriminate.
    destruct (buf (inc s)) as [|d rest] eqn:Hb.
    + destruct (chan_closed (inc s)) eqn:Hcc; [|discriminate]. intros [= <-].
      constructor; cbn [set_closed set_closer closers mu closed inc conns held];
        try apply HI.
      * pose proof (holders_insert _ _ _ (C2 None) Hk) as H. cbn [holds] in H.
        rewrite <- (inv_mutex s HI). lia.
      * intros _. exact Hcc.
      * intros _. now left.
    + intros [= <-].
      pose proof (inv_buf_nodup s HI) as Hnd. rewrite Hb in Hnd.
      apply NoDup_cons in Hnd as [Hnin _].
      apply Inv2_signal_done.
      * apply (Inv2_set_queue_tail d rest s HI Hb).
      * exact Hnin.
      * cbn [set_queue conns]. intros pc b Hc.
        assert (Hq : conns s !! d = Some (G1, false)).
        { apply (inv_buf s HI). rewrite Hb. apply list_elem_of_here. }
        rewrite Hq in Hc. injection Hc as <- <-. discriminate.
  - (* Wait *)
    destruct (closers s !! k) as [[]|] eqn:Hk; try discriminate.
    destruct (wg s); [|discriminate]. intros [= <-].
    eapply Inv2_set_closer; eauto; discriminate.
  - (* Unlock *)
    destruct (closers s !! k) as [[]|] eqn:Hk; try discriminate. intros [= <-].
    constructor; cbn [set_mu set_closer closers mu closed inc conns held];
      try apply HI.
    + pose proof (holders_insert _ _ _ (CDone r) Hk) as H. cbn [holds] in H.
      pose proof (inv_mutex s HI) as Hm. destruct (mu s); lia.
    + intros Hc. destruct (inv_queue_closer s HI Hc) as [|[k' Hk']]; [now left|].
      right. exists k'. eapply drain_stays; eauto; discriminate.
Qed.

Lemma exec_Inv2 sched : forall s s', Inv2 s -> exec sched s = Some s' -> Inv2 s'.
Proof.
  induction sched as [|a rest IH]; intros s s' HI; cbn [exec].
  - now intros [= <-].
  - destruct (step a s) as [s1|] eqn:Ha; [|discriminate].
    apply IH. eapply step_Inv2; eauto.
Qed.

Lemma reachable_Inv2 s : reachable s -> Inv2 s.
Proof.
  intros [sched H]. apply (exec_Inv2 sched NewListener s Inv2_NewListener H).
Qed.

Lemma holders_one cs : forall k pc,
  cs !! k = Some pc -> holds pc = true -> (1 <= holders cs)%nat.
Proof.
  induction cs as [|pc0 rest IH]; intros [|k] pc H Hh; try discriminate; cbn in H;
    cbn [holders].
  - injection H as ->. rewrite Hh. lia.
  - specialize (IH k pc H Hh). lia.
Qed.

Lemma signal_done_frame d' notified s :
  closed (signal_done d' notified s) = closed s /\
  mu (signal_done d' notified s) = mu s /\
  inc (signal_done d' notified s) = inc s /\
  handlers (signal_done d' notified s) = handlers s /\
  closers (signal_done d' notified s) = closers s /\
  held (signal_done d' notified s) = held s /\
  (forall d, d <> d' -> conns (signal_done d' notified s) !! d = conns s !! d).
Proof.
  unfold signal_done. destruct notified; [|repeat split].
  destruct (conns s !! d') as [[pc [|]]|]; cbn; repeat split; try reflexivity.
  intros d Hne. now apply list_lookup_insert_ne.
Qed.

(** An orphan stays one, and the handler that waits on it stays where it
    is. *)
Lemma step_orphan a s s' d :
  orphan d s -> step a s = Some s' ->
  orphan d s' /\
  (forall i, handlers s !! i = Some (H3 d) -> handlers s' !! i = Some (H3 d)).
Proof.
  intros (Hc & Hb & Hh). unfold step. destruct (crashed s); [discriminate|].
  destruct a as [|i pass|i ok|i|i|d'|d'| |d' notified| |k|k|k notified|k|k].
  - intros [= <-]. split; [now split|]. intros i Hi. cbn.
    now apply lookup_app_l_Some.
  - destruct (handlers s !! i) as [[]|] eqn:Hi; try discriminate. intros [= <-].
    split; [now split|]. intros j Hj. cbn. rewrite list_lookup_insert_ne; [exact Hj|].
    intros ->. congruence.
  - destruct (handlers s !! i) as [[]|] eqn:Hi; try discriminate. intros [= <-].
    split; [now split|]. intros j Hj. cbn. rewrite list_lookup_insert_ne; [exact Hj|].
    intros ->. congruence.
  - destruct (handlers s !! i) as [[]|] eqn:Hi; try discriminate.
    destruct (mu s); [discriminate|]. destruct (closed s); intros [= <-].
    + split; [now split|]. intros j Hj. cbn.
      rewrite list_lookup_insert_ne; [exact Hj|]. intros ->. congruence.
    + split.
      * split; [|now split]. cbn. now apply lookup_app_l_Some.
      * intros j Hj. cbn. rewrite list_lookup_insert_ne; [exact Hj|].
        intros ->. congruence.
  - destruct (handlers s !! i) as [[]|] eqn:Hi; try discriminate.
    destruct (conns s !! d0) as [[pc [|]]|] eqn:Hd0; try discriminate.
    intros [= <-]. split; [now split|]. intros j Hj. cbn.
    rewrite list_lookup_insert_ne; [exact Hj|]. intros ->.
    rewrite Hi in Hj. injection Hj as ->. rewrite Hc in Hd0. discriminate.
  - destruct (conns s !! d') as [[[] sg]|] eqn:Hd'; try discriminate.
    assert (Hne : d' <> d) by (intros ->; rewrite Hc in Hd'; discriminate).
    unfold chan_send. destruct (chan_closed (inc s)).
    { intros [= <-]. split; [now split|]. auto. }
    destruct (Nat.ltb _ _); [|discriminate]. intros [= <-]. split; [|auto].
    split; [|split]; cbn.
    + now rewrite list_lookup_insert_ne.
    + intros Hin. apply elem_of_app in Hin as [Hin|Hin]; [contradiction|].
      apply list_elem_of_singleton in Hin. congruence.
    + exact Hh.
  - destruct (conns s !! d') as [[[] [|]]|] eqn:Hd'; try discriminate.
    assert (Hne : d' <> d) by (intros ->; rewrite Hc in Hd'; discriminate).
    destruct (wg s); intros [= <-]; (split; [|auto]).
    + now split.
    + split; [|now split]. cbn. now rewrite list_lookup_insert_ne.
  - unfold chan_recv. destruct (buf (inc s)) as [|d' rest] eqn:Hbuf.
    { destruct (chan_closed (inc s)); discriminate. }
    intros [= <-]. split; [|auto]. split; [exact Hc|]. cbn. split.
    + intros Hin. apply Hb. now apply list_elem_of_further.
    + intros Hin. apply elem_of_cons in Hin as [->|Hin]; [|contradiction].
      apply Hb. apply list_elem_of_here.
  - case_decide as Hheld; [|discriminate]. intros [= <-].
    assert (Hne : d <> d') by (intros ->; contradiction).
    destruct (signal_done_frame d' notified s) as (_ & _ & Hi & Hhd & _ & Hhe & Hcs).
    split; [|intros i Hi'; now rewrite Hhd].
    split; [rewrite Hcs; assumption|]. now rewrite Hi, Hhe.
  - intros [= <-]. split; [now split|auto].
  - destruct (closers s !! k) as [[]|]; try discriminate.
    destruct (mu s); [discriminate|]. intros [= <-]. split; [now split|auto].
  - destruct (closers s !! k) as [[]|]; try discriminate.
    destruct (closed s).
    + intros [= <-]. split; [now split|auto].
    + destruct (chan_close (inc s)) as [q|] eqn:Hq; intros [= <-];
        (split; [|auto]); [|now split].
      unfold chan_close in Hq. destruct (chan_closed (inc s)); [discriminate|].
      injection Hq as <-. now split.
  - destruct (closers s !! k) as [[]|]; try discriminate.
    destruct (buf (inc s)) as [|d' rest] eqn:Hbuf.
    + destruct (chan_closed (inc s)); [|discriminate]. intros [= <-].
      split; [|auto]. split; [exact Hc|]. cbn. rewrite Hbuf. now split.
    + intros [= <-].
      assert (Hne : d <> d').
      { intros ->. apply Hb. apply list_elem_of_here. }
      destruct (signal_done_frame d' notified
                  (set_queue (mkChan rest (capacity (inc s)) (chan_closed (inc s))) s))
        as (_ & _ & Hi & Hhd & _ & Hhe & Hcs).
      split; [|intros i Hi'; now rewrite Hhd].
      split; [rewrite Hcs; assumption|]. rewrite Hi, Hhe. cbn. split; [|exact Hh].
      intros Hin. apply Hb. now apply list_elem_of_further.
  - destruct (closers s !! k) as [[]|]; try discriminate.
    destruct (wg s); [|discriminate]. intros [= <-]. split; [now split|auto].
  - destruct (closers s !! k) as [[]|]; try discriminate. intros [= <-].
    split; [now split|auto].
Qed.

Lemma exec_orphan sched d : forall s s',
  orphan d s -> exec sched s = Some s' ->
  orphan d s' /\
  (forall i, handlers s !! i = Some (H3 d) -> handlers s' !! i = Some (H3 d)).
Proof.
  induction sched as [|a rest IH]; intros s s' Ho; cbn [exec].
  - intros [= <-]. auto.
  - destruct (step a s) as [s1|] eqn:Ha; [|discriminate]. intros Hx.
    destruct (step_orphan a s s1 d Ho Ha) as [Ho1 Hh1].
    destruct (IH s1 s' Ho1 Hx) as [Ho' Hh']. auto.
Qed.

(** How an orphan comes about: [Close] takes a channel off the queue and
    the channel's close message cannot be written. *)
Lemma failed_drain_orphans k s s' d rest :
  Inv2 s ->
  closers s !! k = Some CDrain ->
  buf (inc s) = d :: rest ->
  step (LDrain k false) s = Some s' ->
  orphan d s'.
Proof.
  intros HI Hk Hb. unfold step. destruct (crashed s); [discriminate|].
  rewrite Hk, Hb. cbn [signal_done]. intros [= <-].
  pose proof (inv_buf s HI d) as Hd. pose proof (inv_buf_nodup s HI) as Hnd.
  pose proof (inv_held s HI d) as Hh. rewrite Hb in Hd, Hnd, Hh.
  split; [|split]; cbn [conns inc held set_queue buf].
  - apply Hd, list_elem_of_here.
  - now apply NoDup_cons in Hnd as [Hnin _].
  - intros Hin. destruct (Hh Hin) as [Hnin _]. apply Hnin, list_elem_of_here.
Qed.

(** With an orphan the wait group stays positive, so no call of [Close]
    gets past its wait. *)
Lemma orphan_blocks_Close sched d s s' :
  ListenerWG.Inv s -> orphan d s -> exec sched s = Some s' ->
  forall k pc, closers s' !! k = Some pc -> waited pc = false.
Proof.
  intros HI Ho Hx k pc Hk.
  pose proof (ListenerWGFacts.exec_Inv sched s s' HI Hx) as HI'.
  destruct (exec_orphan sched d s s' Ho Hx) as [(Hc & _) _].
  destruct (waited pc) eqn:Hw; [|reflexivity].
  pose proof (ListenerWG.inv_waited s' HI' k pc Hk Hw) as Hz.
  rewrite (ListenerWG.inv_wg s' HI') in Hz.
  pose proof (live_pos _ _ _ _ Hc) as Hpos. specialize (Hpos ltac:(discriminate)). lia.
Qed.

End ListenerWGSafety.

(** C5, counterexample: the first [Close] of the listener with a wait group
    need not return.  In the first schedule [Close] takes the one queued
    channel, whose close message cannot be written: the channel's done
    signal stays open, and whatever happens afterwards this call of [Close]
    never gets past its wait for the wait group, which it makes with the
    mutex held.  In the second schedule [Close] closes the queue before the
    goroutine of a registered connection has sent its channel: the send
    panics while [Close] is still waiting. *)
Lemma WG_first_Close_need_not_return :
  (exists s,
     ListenerWG.exec ListenerWGInv.sched_failed_notification ListenerWG.NewListener
       = Some s /\
     ListenerWG.closers s = [ListenerWG.CDrain] /\
     ListenerWG.handlers s = [ListenerWG.H3 0] /\
     buf (ListenerWG.inc s) = [] /\
     ListenerWG.conns s = [(ListenerWG.G1, false)] /\
     forall sched s',
       ListenerWG.exec sched s = Some s' ->
       forall k pc, ListenerWG.closers s' !! k = Some pc ->
                    ListenerWG.waited pc = false /\ ListenerWG.returned pc = false) /\
  (exists s,
     ListenerWG.exec (ListenerWGInv.sched_close_before_send ++ [ListenerWG.LSend 0])
                     ListenerWG.NewListener = Some s /\
     ListenerWG.closed s = true /\
     ListenerWG.closers s = [ListenerWG.C2 None] /\
     ListenerWG.crashed s = true).
Proof.
  split.
  - destruct (ListenerWG.exec ListenerWGInv.sched_failed_notification
                ListenerWG.NewListener) as [s|] eqn:Hs;
      [|vm_compute in Hs; discriminate Hs].
    exists s. split; [reflexivity|].
    assert (HI : ListenerWG.Inv s).
    { apply ListenerWGFacts.WG_reachable_Inv.
      exists ListenerWGInv.sched_failed_notification. exact Hs. }
    vm_compute in Hs. injection Hs as Hs.
    assert (Ho : ListenerWGInv.orphan 0 s).
    { rewrite <- Hs. split; [reflexivity|].
      split; intros Hin; now apply elem_of_nil in Hin. }
    split; [now rewrite <- Hs|]. split; [now rewrite <- Hs|].
    split; [now rewrite <- Hs|]. split; [now rewrite <- Hs|].
    intros sched s' Hx k pc Hk.
    pose proof (ListenerWGSafety.orphan_blocks_Close sched 0 s s' HI Ho Hx k pc Hk) as Hw.
    split; [exact Hw|]. destruct pc; try reflexivity. discriminate Hw.
  - eexists. split; [vm_compute; reflexivity|]. repeat split.
Qed.

(** X12.  In the listener with a wait group only two steps can panic: the
    send of a goroutine of [add] on a queue that [Close] has closed, and a
    consumer's second [Close] of a channel whose done signal is closed
    already.  So [Close] of the listener never closes the queue or a done
    signal twice, and the wait group's counter never goes below zero. *)
Theorem WG_panics_only_in_send_or_second_close
  (s s' : ListenerWG.State) (a : ListenerWG.label) :
  ListenerWG.reachable s ->
  ListenerWG.step a s = Some s' ->
  ListenerWG.crashed s' = true ->
  (exists d, a = ListenerWG.LSend d /\
             ListenerWG.conns s !! d = Some (ListenerWG.G0, false) /\
             chan_closed (ListenerWG.inc s) = true) \/
  (exists d pc, a = ListenerWG.LChannelClose d true /\
                d ∈ ListenerWG.held s /\
                ListenerWG.conns s !! d = Some (pc, true)).
Proof.
  intros Hr. pose proof (ListenerWGFacts.WG_reachable_Inv s Hr) as HI.
  pose proof (ListenerWGSafety.reachable_Inv2 s Hr) as HI2.
  unfold ListenerWG.step.
  destruct (ListenerWG.crashed s) eqn:Hcr; [discriminate|].
  destruct a as [|i pass|i ok|i|i|d|d| |d notified| |k|k|k notified|k|k].
  - intros [= <-]. cbn. congruence.
  - destruct (ListenerWG.handlers s !! i) as [[]|]; try discriminate.
    intros [= <-]. cbn. congruence.
  - destruct (ListenerWG.handlers s !! i) as [[]|]; try discriminate.
    intros [= <-]. cbn. congruence.
  - destruct (ListenerWG.handlers s !! i) as [[]|]; try discriminate.
    destruct (ListenerWG.mu s); [discriminate|].
    destruct (ListenerWG.closed s); intros [= <-]; cbn; congruence.
  - destruct (ListenerWG.handlers s !! i) as [[]|]; try discriminate.
    destruct (ListenerWG.conns s !! d) as [[pc [|]]|]; try discriminate.
    intros [= <-]. cbn. congruence.
  - destruct (ListenerWG.conns s !! d) as [[[] sg]|] eqn:Hd; try discriminate.
    pose proof (ListenerWGInv.inv_unsent s HI2 d sg Hd) as ->.
    unfold chan_send. destruct (chan_closed (ListenerWG.inc s)) eqn:Hcc.
    + intros _ _. left. exists d. auto.
    + destruct (Nat.ltb _ _); [|discriminate]. intros [= <-]. cbn. congruence.
  - destruct (ListenerWG.conns s !! d) as [[[] [|]]|] eqn:Hd; try discriminate.
    pose proof (ListenerWGSafety.live_pos _ _ _ _ Hd) as Hl.
    rewrite <- (ListenerWG.inv_wg s HI) in Hl.
    destruct (ListenerWG.wg s); [specialize (Hl ltac:(discriminate)); lia|].
    intros [= <-]. cbn. congruence.
  - destruct (chan_recv (ListenerWG.inc s)) as [[[d|] q]|]; try discriminate.
    intros [= <-]. cbn. congruence.
  - case_decide as Hh; [|discriminate]. intros [= <-].
    unfold ListenerWG.signal_done. destruct notified; [|congruence].
    destruct (ListenerWGInv.inv_held s HI2 d Hh) as (_ & pc & b & Hc & _).
    rewrite Hc. destruct b; [|cbn; congruence].
    intros _. right. exists d, pc. auto.
  - intros [= <-]. cbn. congruence.
  - destruct (ListenerWG.closers s !! k) as [[]|]; try discriminate.
    destruct (ListenerWG.mu s); [discriminate|]. intros [= <-]. cbn. congruence.
  - destruct (ListenerWG.closers s !! k) as [[]|] eqn:Hk; try discriminate.
    destruct (ListenerWG.closed s) eqn:Hcl; [intros [= <-]; cbn; congruence|].
    unfold chan_close. destruct (chan_closed (ListenerWG.inc s)) eqn:Hcc;
      [|intros [= <-]; cbn; congruence].
    intros _ _. exfalso.
    destruct (ListenerWGInv.inv_queue_closer s HI2 Hcc) as [H|[k' Hk']];
      [congruence|].
    assert (Hne : k <> k') by (intros ->; congruence).
    pose proof (ListenerWGSafety.holders_two _ _ _ _ _ Hk Hk' Hne eq_refl eq_refl) as H2.
    rewrite (ListenerWGInv.inv_mutex s HI2) in H2.
    destruct (ListenerWG.mu s); lia.
  - destruct (ListenerWG.closers s !! k) as [[]|]; try discriminate.
    destruct (buf (ListenerWG.inc s)) as [|d rest] eqn:Hb.
    + destruct (chan_closed (ListenerWG.inc s)); [|discriminate].
      intros [= <-]. cbn. congruence.
    + intros [= <-]. unfold ListenerWG.signal_done.
      destruct notified; [|cbn; congruence]. cbn [ListenerWG.set_queue ListenerWG.conns].
      assert (Hq : ListenerWG.conns s !! d = Some (ListenerWG.G1, false)).
      { apply (ListenerWGInv.inv_buf s HI2). rewrite Hb. apply list_elem_of_here. }
      rewrite Hq. cbn. congruence.
  - destruct (ListenerWG.closers s !! k) as [[]|]; try discriminate.
    destruct (ListenerWG.wg s); [|discriminate]. intros [= <-]. cbn. congruence.
  - destruct (ListenerWG.closers s !! k) as [[]|]; try discriminate.
    intros [= <-]. cbn. congruence.
Qed.

Lemma WG_panics_only_in_send_or_second_close_witness :
  let s := WG_state_after ListenerWGInv.sched_close_before_send in
  (exists d, ListenerWG.LSend 0 = ListenerWG.LSend d /\
             ListenerWG.conns s !! d = Some (ListenerWG.G0, false) /\
             chan_closed (ListenerWG.inc s) = true) \/
  (exists d pc, ListenerWG.LSend 0 = ListenerWG.LChannelClose d true /\
                d ∈ ListenerWG.held s /\
                ListenerWG.conns s !! d = Some (pc, true)).
Proof.
  apply (WG_panics_only_in_send_or_second_close
           (WG_state_after ListenerWGInv.sched_close_before_send)
           (ListenerWG.crash (WG_state_after ListenerWGInv.sched_close_before_send))
           (ListenerWG.LSend 0)).
  - exists ListenerWGInv.sched_close_before_send. vm_compute. reflexivity.
  - vm_compute. reflexivity.
  - reflexivity.
Defined.

(** X13.  Once the listener is closed its queue is closed, so a goroutine
    of [add] that has not yet sent its channel panics when it sends: a
    connection registered just before [Close] brings the process down. *)
Theorem WG_send_after_Close_panics
  (s : ListenerWG.State) (d : nat) (b : bool) :
  ListenerWG.reachable s ->
  ListenerWG.crashed s = false ->
  ListenerWG.closed s = true ->
  ListenerWG.conns s !! d = Some (ListenerWG.G0, b) ->
  chan_closed (ListenerWG.inc s) = true /\
  ListenerWG.step (ListenerWG.LSend d) s = Some (ListenerWG.crash s).
Proof.
  intros Hr Hcr Hcl Hd. pose proof (ListenerWGSafety.reachable_Inv2 s Hr) as HI2.
  pose proof (ListenerWGInv.inv_closed_queue s HI2 Hcl) as Hcc.
  split; [exact Hcc|].
  unfold ListenerWG.step, chan_send. now rewrite Hcr, Hd, Hcc.
Qed.

Lemma WG_send_after_Close_panics_witness :
  let s := WG_state_after ListenerWGInv.sched_close_before_send in
  ListenerWG.closed s = true /\
  ListenerWG.conns s = [(ListenerWG.G0, false)] /\
  ListenerWG.step (ListenerWG.LSend 0) s = Some (ListenerWG.crash s).
Proof.
  split; [reflexivity|]. split; [reflexivity|].
  apply (WG_send_after_Close_panics
           (WG_state_after ListenerWGInv.sched_close_before_send) 0 false).
  - exists ListenerWGInv.sched_close_before_send. vm_compute. reflexivity.
  - reflexivity.
  - reflexivity.
  - reflexivity.
Defined.

(** X14.  The mutex: at most one call of [Close] is between its [Lock] and
    its [Unlock], a stretch that includes its wait for the wait group; while
    one is, the mutex is held and [add] cannot run. *)
Theorem WG_mutual_exclusion
  (s : ListenerWG.State) (k : nat) (pc : ListenerWG.cpc) :
  ListenerWG.reachable s ->
  ListenerWG.closers s !! k = Some pc ->
  ListenerWGInv.holds pc = true ->
  ListenerWG.mu s = true /\
  (forall k' pc', ListenerWG.closers s !! k' = Some pc' ->
     ListenerWGInv.holds pc' = true -> k' = k) /\
  (forall i, ListenerWG.step (ListenerWG.LAdd i) s = None) /\
  (forall k', ListenerWG.step (ListenerWG.LLock k') s = None).
Proof.
  intros Hr Hk Hh. pose proof (ListenerWGSafety.reachable_Inv2 s Hr) as HI2.
  pose proof (ListenerWGSafety.holders_one _ _ _ Hk Hh) as H1.
  pose proof (ListenerWGInv.inv_mutex s HI2) as Hm.
  assert (Hmu : ListenerWG.mu s = true).
  { destruct (ListenerWG.mu s); [reflexivity|lia]. }
  split; [exact Hmu|]. split; [|split].
  - intros k' pc' Hk' Hh'. destruct (decide (k' = k)) as [|Hne]; [assumption|].
    pose proof (ListenerWGSafety.holders_two _ _ _ _ _ Hk' Hk Hne Hh' Hh) as H2.
    rewrite Hmu in Hm. lia.
  - intros i. unfold ListenerWG.step. destruct (ListenerWG.crashed s); [reflexivity|].
    destruct (ListenerWG.handlers s !! i) as [[]|]; try reflexivity. now rewrite Hmu.
  - intros k'. unfold ListenerWG.step. destruct (ListenerWG.crashed s); [reflexivity|].
    destruct (ListenerWG.closers s !! k') as [[]|]; try reflexivity. now rewrite Hmu.
Qed.

Lemma WG_mutual_exclusion_witness :
  let s := WG_state_after ListenerWG.sched_locked_out in
  ListenerWG.closers s = [ListenerWG.C2 None] /\
  ListenerWG.handlers s = [ListenerWG.H3 0; ListenerWG.H2] /\
  ListenerWG.mu s = true /\
  ListenerWG.step (ListenerWG.LAdd 1) s = None.
Proof.
  split; [reflexivity|]. split; [reflexivity|].
  destruct (WG_mutual_exclusion (WG_state_after ListenerWG.sched_locked_out) 0
              (ListenerWG.C2 None)) as (Hmu & _ & Hadd & _).
  - exists ListenerWG.sched_locked_out. vm_compute. reflexivity.
  - reflexivity.
  - reflexivity.
  - split; [exact Hmu|apply Hadd].
Defined.

(** X15.  The queue of this listener has one slot.  It never holds more than
    one channel, and what it holds is a channel whose goroutine waits on an
    open done signal.  While the slot is taken and the queue open, a further
    connection is not refused: the send of its goroutine cannot proceed. *)
Theorem WG_queue_has_one_slot (s : ListenerWG.State) :
  ListenerWG.reachable s ->
  capacity (ListenerWG.inc s) = 1%nat /\
  (length (buf (ListenerWG.inc s)) <= 1)%nat /\
  (forall d, d ∈ buf (ListenerWG.inc s) ->
     ListenerWG.conns s !! d = Some (ListenerWG.G1, false)) /\
  (forall d b,
     buf (ListenerWG.inc s) <> [] ->
     chan_closed (ListenerWG.inc s) = false ->
     ListenerWG.conns s !! d = Some (ListenerWG.G0, b) ->
     ListenerWG.step (ListenerWG.LSend d) s = None).
Proof.
  intros Hr. pose proof (ListenerWGSafety.reachable_Inv2 s Hr) as HI2.
  pose proof (ListenerWGInv.inv_cap1 s HI2) as Hcap.
  pose proof (ListenerWGInv.inv_len1 s HI2) as Hlen.
  split; [exact Hcap|]. split; [exact Hlen|].
  split; [apply (ListenerWGInv.inv_buf s HI2)|].
  intros d b Hne Hopen Hd. unfold ListenerWG.step, chan_send.
  destruct (ListenerWG.crashed s); [reflexivity|]. rewrite Hd, Hopen, Hcap.
  destruct (buf (ListenerWG.inc s)) as [|x rest]; [contradiction|].
  cbn [length] in *. destruct (Nat.ltb_spec (S (length rest)) 1); [lia|reflexivity].
Qed.

Lemma WG_queue_has_one_slot_witness :
  let s := WG_state_after sched_two_connections in
  buf (ListenerWG.inc s) = [O] /\
  ListenerWG.conns s = [(ListenerWG.G1, false); (ListenerWG.G0, false)] /\
  ListenerWG.step (ListenerWG.LSend 1) s = None.
Proof.
  split; [reflexivity|]. split; [reflexivity|].
  destruct (WG_queue_has_one_slot (WG_state_after sched_two_connections))
    as (_ & _ & _ & H).
  - exists sched_two_connections. vm_compute. reflexivity.
  - apply (H 1%nat false); [discriminate|reflexivity|reflexivity].
Defined.

(** X16.  A channel that [Close] drains while its close message cannot be
    written keeps its done signal open (the gorilla [Close] returns before
    closing it), and nobody holds the channel any more.  From then on,
    whatever happens, no call of [Close] of the listener gets past its wait,
    let alone returns, and the handler of that connection stays blocked. *)
Theorem WG_failed_notification_blocks_Close_for_ever
  (s s' : ListenerWG.State) (d : nat) (sched : list ListenerWG.label) :
  ListenerWG.reachable s ->
  ListenerWGInv.orphan d s ->
  ListenerWG.exec sched s = Some s' ->
  ListenerWGInv.orphan d s' /\
  (1 <= ListenerWG.wg s')%nat /\
  (forall k pc, ListenerWG.closers s' !! k = Some pc -> ListenerWG.waited pc = false) /\
  (forall k, ListenerWG.step (ListenerWG.LWait k) s' = None) /\
  (forall i, ListenerWG.handlers s !! i = Some (ListenerWG.H3 d) ->
     ListenerWG.handlers s' !! i = Some (ListenerWG.H3 d) /\
     ListenerWG.step (ListenerWG.LReturn i) s' = None).
Proof.
  intros Hr Ho Hx. pose proof (ListenerWGFacts.WG_reachable_Inv s Hr) as HI.
  pose proof (ListenerWGFacts.exec_Inv sched s s' HI Hx) as HI'.
  destruct (ListenerWGSafety.exec_orphan sched d s s' Ho Hx) as [Ho' Hh'].
  destruct Ho' as (Hc & Hb & Hheld).
  assert (Hwg : (1 <= ListenerWG.wg s')%nat).
  { rewrite (ListenerWG.inv_wg s' HI').
    apply (ListenerWGSafety.live_pos _ _ _ _ Hc). discriminate. }
  split; [now split|]. split; [exact Hwg|]. split; [|split].
  - intros k pc Hk. destruct (ListenerWG.waited pc) eqn:Hw; [|reflexivity].
    pose proof (ListenerWG.inv_waited s' HI' k pc Hk Hw). lia.
  - intros k. unfold ListenerWG.step. destruct (ListenerWG.crashed s'); [reflexivity|].
    destruct (ListenerWG.closers s' !! k) as [[]|]; try reflexivity.
    destruct (ListenerWG.wg s'); [lia|reflexivity].
  - intros i Hi. split; [now apply Hh'|].
    unfold ListenerWG.step. destruct (ListenerWG.crashed s'); [reflexivity|].
    rewrite (Hh' i Hi), Hc. reflexivity.
Qed.

Lemma WG_failed_notification_blocks_Close_for_ever_witness :
  let s := WG_state_after ListenerWGInv.sched_failed_notification in
  ListenerWG.closers s = [ListenerWG.CDrain] /\
  ListenerWG.handlers s = [ListenerWG.H3 0] /\
  forall s',
    ListenerWG.exec [ListenerWG.LDrain 0 true] s = Some s' ->
    ListenerWG.step (ListenerWG.LWait 0) s' = None /\
    ListenerWG.step (ListenerWG.LReturn 0) s' = None.
Proof.
  split; [reflexivity|]. split; [reflexivity|]. intros s' Hx.
  destruct (WG_failed_notification_blocks_Close_for_ever
              (WG_state_after ListenerWGInv.sched_failed_notification) s' 0
              [ListenerWG.LDrain 0 true]) as (_ & _ & _ & Hw & Hh).
  - exists ListenerWGInv.sched_failed_notification. vm_compute. reflexivity.
  - split; [reflexivity|]. split.
    + intros Hin. vm_compute in Hin. now apply elem_of_nil in Hin.
    + intros Hin. vm_compute in Hin. now apply elem_of_nil in Hin.
  - exact Hx.
  - split; [apply Hw|]. apply (Hh 0%nat). reflexivity.
Defined.

(** ** What Send, Recv and the handler never do *)

Lemma filterErr_V2_None err : ChannelV2.filterErr err = None <-> err = None.
Proof. destruct err as [[]|]; cbn; split; congruence. Qed.

Lemma filterErr_V3_None err : ChannelV3.filterErr err = None <-> err = None.
Proof.
  destruct err as [e|]; cbn; [|tauto].
  destruct (errors_Is e ChannelV3.nil_CloseError); split; congruence.
Qed.

Lemma Send_V2_eq T p w ch data :
  objs w !! p = Some ch ->
  ChannelV2.Send T p data w =
    Ret (ChannelV2.filterErr (write_result T (trace w) (c ch) BinaryMessage data))
        (emit (EvWrite (c ch) BinaryMessage data) w).
Proof.
  intros H. unfold ChannelV2.Send. now rewrite (deref_Some _ _ _ H).
Qed.

(** X17.  In the revisions with [filterErr], [Send] returns nil exactly when
    the transport's write did, and [Recv] returns either the transport's
    bytes and no error, whatever the message type, or no bytes and an error:
    filtering never swallows an error and never invents one. *)
Theorem Send_Recv_never_swallow_errors
  (T : Transport) (p : nat) (w : World) (ch : Channel) (data : bytes) :
  objs w !! p = Some ch ->
  let werr := write_result T (trace w) (c ch) BinaryMessage data in
  let '(mt, got, rerr) := read_result T (trace w) (c ch) in
  (exists r, ChannelV2.Send T p data w
               = Ret r (emit (EvWrite (c ch) BinaryMessage data) w) /\
             (r = None <-> werr = None)) /\
  (exists r, ChannelV3.Send T p data w
               = Ret r (emit (EvWrite (c ch) BinaryMessage data) w) /\
             (r = None <-> werr = None)) /\
  (exists bits e, ChannelV2.Recv T p w = Ret (bits, e) (emit (EvRead (c ch)) w) /\
                  (e = None <-> rerr = None) /\
                  bits = match rerr with None => Some got | Some _ => None end) /\
  (exists bits e, ChannelV3.Recv T p w = Ret (bits, e) (emit (EvRead (c ch)) w) /\
                  (e = None <-> rerr = None) /\
                  bits = match rerr with None => Some got | Some _ => None end).
Proof.
  intros Hp werr.
  destruct (read_result T (trace w) (c ch)) as [[mt got] rerr] eqn:Hr.
  split; [|split; [|split]].
  - eexists. split; [apply (Send_V2_eq T p w ch data Hp)|apply filterErr_V2_None].
  - eexists. split; [apply (Send_V3_eq T p w ch data Hp)|apply filterErr_V3_None].
  - rewrite (Recv_V2_filters T p w ch Hp), Hr. destruct rerr as [e|].
    + eexists _, _. split; [reflexivity|]. split; [apply filterErr_V2_None|reflexivity].
    + eexists _, _. split; [reflexivity|]. split; [tauto|reflexivity].
  - rewrite (Recv_V3_eq T p w ch Hp), Hr. destruct rerr as [e|].
    + eexists _, _. split; [reflexivity|]. split; [apply filterErr_V3_None|reflexivity].
    + eexists _, _. split; [reflexivity|]. split; [tauto|reflexivity].
Qed.

Lemma Send_Recv_never_swallow_errors_witness :
  exists e, ChannelV3.Recv dropped (ChannelV3.New 7 world0).1 (ChannelV3.New 7 world0).2
              = Ret (None, e) (emit (EvRead 7) (ChannelV3.New 7 world0).2) /\
            e <> None.
Proof.
  pose proof (Send_Recv_never_swallow_errors dropped
                (ChannelV3.New 7 world0).1 (ChannelV3.New 7 world0).2
                (mkChannel 7 (Some O)) []) as H.
  cbn zeta in H. change (read_result dropped (trace (ChannelV3.New 7 world0).2)
                           (c (mkChannel 7 (Some O))))
    with (BinaryMessage, @nil byte, Some broken_pipe) in H.
  destruct H as (_ & _ & _ & bits & e & Hrecv & Hiff & ->).
  - vm_compute. reflexivity.
  - exists e. split; [exact Hrecv|]. intros He. apply Hiff in He. discriminate.
Defined.

(** X18.  A handler invocation answers its request at most once: it
    appends to the trace one [http.Error] with a status that [WriteHeader]
    takes, or one upgrade, never both; or it panics over the hook's refusal
    before anything is answered.  When it returns without waiting (the hook
    refused, the listener is closed, the queue is full, or the upgrade
    failed), and when it panics over the hook's refusal, the listener and
    the heap are as before, so that nothing is left behind; when it waits,
    exactly one new channel was put at the back of the queue. *)
Theorem ServeHTTP_answers_at_most_once_and_leaks_nothing
  (req : nat) (l : Listener.Listener) (w : World) :
  let '(r, l', w') := Listener.ServeHTTP req l w in
  match r with
  | Listener.Returns =>
      l' = l /\ objs w' = objs w /\ signals w' = signals w /\
      exists ev, trace w' = trace w ++ [ev] /\
                 ((exists msg code, ev = EvHttpError req msg code /\
                                    checkWriteHeaderCode code = true) \/
                  ev = EvUpgrade req)
  | Listener.AwaitsDone d =>
      trace w' = trace w ++ [EvUpgrade req] /\
      signals w !! d = None /\ signals w' !! d = Some false /\
      exists p, objs w !! p = None /\
                buf (Listener.inc l') = buf (Listener.inc l) ++ [p] /\
                objs w' = <[p := mkChannel (ws_upgrade (Listener.u l) (trace w) req
                                                       (Listener.hdr l)).1 (Some d)]> (objs w)
  | Listener.BlocksOnSend =>
      trace w' = trace w ++ [EvUpgrade req] /\
      Listener.closed l = false /\
      chan_closed (Listener.inc l) = false /\
      (capacity (Listener.inc l) < length (buf (Listener.inc l)))%nat
  | Listener.HandlerPanics _ =>
      (Listener.hook_answer_ok (Listener.check l req) = false /\ l' = l /\ w' = w) \/
      (trace w' = trace w ++ [EvUpgrade req] /\
       Listener.closed l = false /\
       chan_closed (Listener.inc l) = true)
  end.
Proof.
  destruct (Listener.check l req) as [code [e|]] eqn:Hc.
  { destruct (ServeHTTP_hook_cases req l w code e Hc)
      as [(Hok & msg & Hmsg & ->)|(Hbad & m & ->)]; [|left; auto].
    repeat split. eexists. split; [reflexivity|]. left. eexists _, _.
    split; [reflexivity|]. unfold Listener.hook_answer_ok in Hok.
    now rewrite Hmsg in Hok. }
  unfold Listener.ServeHTTP. rewrite Hc.
  destruct (Listener.closed l) eqn:Hcl.
  { rewrite http_Error_500. cbn [Listener.answers]. repeat split.
    eexists. split; [reflexivity|]. left. eexists _, _. split; reflexivity. }
  destruct (Nat.eqb_spec (length (buf (Listener.inc l))) (capacity (Listener.inc l)))
    as [Hlen|Hlen].
  { rewrite http_Error_503. cbn [Listener.answers]. repeat split.
    eexists. split; [reflexivity|]. left. eexists _, _. split; reflexivity. }
  destruct (ws_upgrade (Listener.u l) (trace w) req (Listener.hdr l)) as [conn [e|]].
  { repeat split. eexists. split; [reflexivity|]. now right. }
  rewrite New_V3_spec. unfold chan_send.
  destruct (chan_closed (Listener.inc l)) eqn:Hcc.
  { right. auto. }
  destruct (Nat.ltb_spec (length (buf (Listener.inc l))) (capacity (Listener.inc l))).
  - cbn [objs snd fst emit]. rewrite lookup_insert_eq. cbn [done].
    split; [reflexivity|]. split; [apply fresh_None|].
    split; [cbn [signals]; apply lookup_insert_eq|].
    exists (fresh_key (objs w)). split; [apply fresh_None|]. split; reflexivity.
  - split; [reflexivity|]. split; [reflexivity|]. split; [reflexivity|]. lia.
Qed.
